(** * deltafs-nexus: bootstrap, topology discovery and next-hop routing

    A shallow embedding of [src/nexus_setup.cc] and of the API contract of
    [include/deltafs-nexus_api.h].

    Conventions.
    - A C [int] is a [Z]; where the source computes on ints the 32-bit
      two's-complement wrap-around is written out ([wrap_int]).
    - The process runs against an environment ([env]): MPI, Mercury, the
      socket layer and the allocator are oracles that answer each call.
      The calls the code makes are recorded, in program order, in a trace
      of [event]s.
    - A call can return, terminate the process through [msg_abort], or
      leave the model ([Stuck]: an out-of-bounds access, a division by
      zero, a loop that does not end).
    - [fprintf] diagnostics and the [NEXUS_DEBUG] blocks are left out. *)

From Stdlib Require Import Ascii.
From stdpp Require Import base gmap list strings pretty sorting.

Open Scope Z_scope.

(** ** Machine integers *)

Definition INT_MIN : Z := - 2 ^ 31.
Definition INT_MAX : Z := 2 ^ 31 - 1.

Definition wrap_int (z : Z) : Z := (z + 2 ^ 31) `mod` 2 ^ 32 - 2 ^ 31.

Definition int_add (a b : Z) : Z := wrap_int (a + b).
Definition int_sub (a b : Z) : Z := wrap_int (a - b).

(** [a % b] on ints: truncated remainder; [b = 0] is undefined. *)
Definition int_rem (a b : Z) : option Z :=
  if decide (b = 0) then None else Some (Z.rem a b).

(** [arr[i]] for a C array held as a list. *)
Definition array_get {A : Type} (arr : list A) (i : Z) : option A :=
  if decide (0 ≤ i) then arr !! Z.to_nat i else None.

(** [arr[i] = v]; outside the array the store is undefined. *)
Definition array_set {A : Type} (arr : list A) (i : Z) (v : A) : option (list A) :=
  if decide (0 ≤ i < Z.of_nat (length arr))
  then Some (<[Z.to_nat i := v]> arr) else None.

(** ** Types of the API and of Mercury *)

(** [nexus_ret_t], deltafs-nexus_api.h. *)
Inductive nexus_ret_t : Type :=
| NX_SUCCESS
| NX_ERROR
| NX_NOTFOUND
| NX_ISLOCAL
| NX_SRCREP
| NX_DESTREP
| NX_INVAL
| NX_DONE.

#[global] Instance nexus_ret_t_eq_dec : EqDecision nexus_ret_t.
Proof. solve_decision. Defined.

(** Mercury's [hg_return_t]: the three values the source names, and the
    rest of the enumeration by its numeric code. *)
Inductive hg_return_t : Type :=
| HG_SUCCESS
| HG_TIMEOUT
| HG_NOMEM_ERROR
| HG_OTHER_ERROR (code : Z).

#[global] Instance hg_return_t_eq_dec : EqDecision hg_return_t.
Proof. solve_decision. Defined.

(** [hg_addr_t] is an opaque handle; [HG_ADDR_NULL] is the null handle. *)
Definition hg_addr_t : Type := Z.
Definition HG_ADDR_NULL : hg_addr_t := 0.

(** The two Mercury endpoints of a context, and the three communicators. *)
Inductive endpoint : Type := EP_LOCAL | EP_REMOTE.
Inductive comm : Type := MPI_COMM_WORLD | localcomm | repcomm.

#[global] Instance endpoint_eq_dec : EqDecision endpoint.
Proof. solve_decision. Defined.
#[global] Instance comm_eq_dec : EqDecision comm.
Proof. solve_decision. Defined.

(** [ldata_t]: the record exchanged within the local group. *)
Record ldata_t : Type := mk_ldata {
  l_pid : Z;
  l_hgid : Z;
  l_grank : Z;
  l_lrank : Z
}.

(** [rdata_t]: the record exchanged within the representative group.
    [r_addr] holds the bytes of [char addr[60]]. *)
Record rdata_t : Type := mk_rdata {
  r_addr : list ascii;
  r_grank : Z
}.

Definition RDATA_ADDR_SIZE : Z := 60.   (* sizeof(rdat.addr) *)
Definition RDATA_GRANK_OFFSET : Z := 60. (* offsetof(rdata_t, grank) *)
Definition RDATA_SIZE : Z := 64.        (* sizeof(rdata_t) *)

(** The fields of [struct nexus_ctx] that nexus_setup.cc reads and writes.
    The class and context handles are 0 when NULL. *)
Record nexus_ctx : Type := mk_ctx {
  grank : Z;
  gsize : Z;
  lrank : Z;
  lsize : Z;
  lroot : Z;
  localranks : list Z;
  rankreps : list Z;
  laddrs : gmap Z hg_addr_t;
  gaddrs : gmap Z hg_addr_t;
  local_hgcl : Z;
  local_hgctx : Z;
  remote_hgcl : Z;
  remote_hgctx : Z
}.

Definition set_grank (v : Z) (c : nexus_ctx) : nexus_ctx :=
  mk_ctx v (gsize c) (lrank c) (lsize c) (lroot c) (localranks c) (rankreps c)
         (laddrs c) (gaddrs c) (local_hgcl c) (local_hgctx c) (remote_hgcl c) (remote_hgctx c).
Definition set_gsize (v : Z) (c : nexus_ctx) : nexus_ctx :=
  mk_ctx (grank c) v (lrank c) (lsize c) (lroot c) (localranks c) (rankreps c)
         (laddrs c) (gaddrs c) (local_hgcl c) (local_hgctx c) (remote_hgcl c) (remote_hgctx c).
Definition set_lrank (v : Z) (c : nexus_ctx) : nexus_ctx :=
  mk_ctx (grank c) (gsize c) v (lsize c) (lroot c) (localranks c) (rankreps c)
         (laddrs c) (gaddrs c) (local_hgcl c) (local_hgctx c) (remote_hgcl c) (remote_hgctx c).
Definition set_lsize (v : Z) (c : nexus_ctx) : nexus_ctx :=
  mk_ctx (grank c) (gsize c) (lrank c) v (lroot c) (localranks c) (rankreps c)
         (laddrs c) (gaddrs c) (local_hgcl c) (local_hgctx c) (remote_hgcl c) (remote_hgctx c).
Definition set_lroot (v : Z) (c : nexus_ctx) : nexus_ctx :=
  mk_ctx (grank c) (gsize c) (lrank c) (lsize c) v (localranks c) (rankreps c)
         (laddrs c) (gaddrs c) (local_hgcl c) (local_hgctx c) (remote_hgcl c) (remote_hgctx c).
Definition set_localranks (v : list Z) (c : nexus_ctx) : nexus_ctx :=
  mk_ctx (grank c) (gsize c) (lrank c) (lsize c) (lroot c) v (rankreps c)
         (laddrs c) (gaddrs c) (local_hgcl c) (local_hgctx c) (remote_hgcl c) (remote_hgctx c).
Definition set_rankreps (v : list Z) (c : nexus_ctx) : nexus_ctx :=
  mk_ctx (grank c) (gsize c) (lrank c) (lsize c) (lroot c) (localranks c) v
         (laddrs c) (gaddrs c) (local_hgcl c) (local_hgctx c) (remote_hgcl c) (remote_hgctx c).
Definition set_laddrs (v : gmap Z hg_addr_t) (c : nexus_ctx) : nexus_ctx :=
  mk_ctx (grank c) (gsize c) (lrank c) (lsize c) (lroot c) (localranks c) (rankreps c)
         v (gaddrs c) (local_hgcl c) (local_hgctx c) (remote_hgcl c) (remote_hgctx c).
Definition set_gaddrs (v : gmap Z hg_addr_t) (c : nexus_ctx) : nexus_ctx :=
  mk_ctx (grank c) (gsize c) (lrank c) (lsize c) (lroot c) (localranks c) (rankreps c)
         (laddrs c) v (local_hgcl c) (local_hgctx c) (remote_hgcl c) (remote_hgctx c).
Definition set_hgcl (ep : endpoint) (v : Z) (c : nexus_ctx) : nexus_ctx :=
  match ep with
  | EP_LOCAL =>
      mk_ctx (grank c) (gsize c) (lrank c) (lsize c) (lroot c) (localranks c) (rankreps c)
             (laddrs c) (gaddrs c) v (local_hgctx c) (remote_hgcl c) (remote_hgctx c)
  | EP_REMOTE =>
      mk_ctx (grank c) (gsize c) (lrank c) (lsize c) (lroot c) (localranks c) (rankreps c)
             (laddrs c) (gaddrs c) (local_hgcl c) (local_hgctx c) v (remote_hgctx c)
  end.
Definition set_hgctx (ep : endpoint) (v : Z) (c : nexus_ctx) : nexus_ctx :=
  match ep with
  | EP_LOCAL =>
      mk_ctx (grank c) (gsize c) (lrank c) (lsize c) (lroot c) (localranks c) (rankreps c)
             (laddrs c) (gaddrs c) (local_hgcl c) v (remote_hgcl c) (remote_hgctx c)
  | EP_REMOTE =>
      mk_ctx (grank c) (gsize c) (lrank c) (lsize c) (lroot c) (localranks c) (rankreps c)
             (laddrs c) (gaddrs c) (local_hgcl c) (local_hgctx c) (remote_hgcl c) v
  end.

(** The communicator of the group of an endpoint. *)
Definition comm_of (ep : endpoint) : comm :=
  match ep with EP_LOCAL => localcomm | EP_REMOTE => repcomm end.

(** ** Events: the calls the code makes into its environment *)

Inductive alloc_site : Type :=
| A_bgarg (ep : endpoint)
| A_hginfo (ep : endpoint)
| A_localranks
| A_rankreps
| A_lookup_out (ep : endpoint) (uri : string).

Inductive event : Type :=
(* group operations *)
| EvCommRank (c : comm)
| EvCommSize (c : comm)
| EvInitLocalComm
| EvInitRepComm
| EvAllgather (c : comm)
| EvBarrier (c : comm)
| EvCommFree (c : comm)
(* Mercury *)
| EvInit (ep : endpoint) (uri : string)
| EvContextCreate (ep : endpoint)
| EvAddrSelf (ep : endpoint)
| EvAddrLookup (ep : endpoint) (uri : string)
| EvAddrFree (ep : endpoint) (a : hg_addr_t)
| EvContextDestroy (ep : endpoint)
| EvFinalize (ep : endpoint)
(* the background progress thread of an endpoint *)
| EvThreadCreate (ep : endpoint)
| EvSetDone (ep : endpoint)
| EvThreadJoin (ep : endpoint)
(* socket layer *)
| EvGetifaddrs
| EvGetnameinfo
| EvSocket
| EvBind (port : Z)
| EvGetsockname.

#[global] Instance alloc_site_eq_dec : EqDecision alloc_site.
Proof. solve_decision. Defined.
#[global] Instance event_eq_dec : EqDecision event.
Proof. solve_decision. Defined.

(** A group operation, a network operation (Mercury or sockets). *)
Definition is_group_op (e : event) : bool :=
  match e with
  | EvCommRank _ | EvCommSize _ | EvInitLocalComm | EvInitRepComm
  | EvAllgather _ | EvBarrier _ | EvCommFree _ => true
  | _ => false
  end.

Definition is_network_op (e : event) : bool :=
  match e with
  | EvInit _ _ | EvContextCreate _ | EvAddrSelf _ | EvAddrLookup _ _
  | EvAddrFree _ _ | EvContextDestroy _ | EvFinalize _
  | EvGetifaddrs | EvGetnameinfo | EvSocket | EvBind _ | EvGetsockname => true
  | _ => false
  end.

(** An address resolution against an endpoint. *)
Definition is_resolution (ep : endpoint) (e : event) : bool :=
  match e with
  | EvAddrSelf ep' => bool_decide (ep' = ep)
  | EvAddrLookup ep' _ => bool_decide (ep' = ep)
  | _ => false
  end.

(** ** The environment *)

(** One entry of the [getifaddrs] list: [ifa_addr] (None when NULL) with
    its family and what [getnameinfo] answers for it: the return code and
    the content of the [ip] buffer after the call. *)
Record ifaddr : Type := mk_ifaddr {
  ifa_addr : option (Z * (Z * string))
}.

Definition AF_INET : Z := 2.

Record env : Type := mk_env {
  (* MPI: rank and size of the caller in a communicator; whether the group
     splits of init_local_comm and init_rep_comm succeed *)
  MPI_Comm_rank : comm → Z;
  MPI_Comm_size : comm → Z;
  init_local_comm_ok : bool;
  init_rep_comm_ok : bool;
  (* what the members of a communicator send to an all-gather, by rank *)
  local_sendbufs : list ldata_t;
  world_sendbufs : list Z;
  rep_sendbufs : list rdata_t;
  (* process: its pid; whether the malloc at a site returns non-NULL; the
     content of fresh heap and stack memory; the return code of
     pthread_create for the progress thread of an endpoint *)
  getpid : Z;
  malloc_ok : alloc_site → bool;
  heap_garbage : Z;
  stack_garbage : Z;
  pthread_create : endpoint → Z;
  (* Mercury: the handles HG_Init and HG_Context_create return (0 when
     NULL); the code and address of HG_Addr_self; the code HG_Addr_lookup
     returns when it posts a lookup; what the callback of the lookup
     receives (info->ret, info->info.lookup.addr) *)
  HG_Init : endpoint → string → Z;
  HG_Context_create : endpoint → Z;
  HG_Addr_self : endpoint → hg_return_t * hg_addr_t;
  HG_Addr_lookup : endpoint → string → hg_return_t;
  lookup_cb_info : endpoint → string → hg_return_t * hg_addr_t;
  (* socket layer: the interface list (None when getifaddrs returns -1);
     the content of the ip buffer before the first getnameinfo; what
     socket() and bind() return in the probe of a port; the same for the
     port the OS assigns, and the code and port of getsockname *)
  getifaddrs : option (list ifaddr);
  ip_garbage : string;
  socket_fd : Z → Z;
  bind_ret : Z → Z;
  auto_socket_fd : Z;
  auto_bind_ret : Z;
  auto_getsockname : Z * Z
}.

(** ** The monad: state, trace, abort *)

(** The outcome of a call: it returns, [msg_abort] terminates the process,
    or the run leaves the model. *)
Inductive outcome (A : Type) : Type :=
| Ret (a : A)
| Abort (msg : string)
| Stuck.
Arguments Ret {A} a.
Arguments Abort {A} msg.
Arguments Stuck {A}.

Record state : Type := mk_state {
  nctx : nexus_ctx;
  trace : list event
}.

Definition M (A : Type) : Type := state → outcome A * state.

Definition ret {A : Type} (a : A) : M A := fun s => (Ret a, s).

Definition bind {A B : Type} (m : M A) (k : A → M B) : M B :=
  fun s =>
    match m s with
    | (Ret a, s') => k a s'
    | (Abort msg, s') => (Abort msg, s')
    | (Stuck, s') => (Stuck, s')
    end.

#[global] Instance M_ret : MRet M := @ret.
#[global] Instance M_bind : MBind M := fun A B k m => bind m k.

Definition msg_abort {A : Type} (msg : string) : M A := fun s => (Abort msg, s).
Definition stuck {A : Type} : M A := fun s => (Stuck, s).

Definition emit (e : event) : M unit :=
  fun s => (Ret tt, mk_state (nctx s) (trace s ++ [e])).

Definition get_ctx : M nexus_ctx := fun s => (Ret (nctx s), s).
Definition modify_ctx (f : nexus_ctx → nexus_ctx) : M unit :=
  fun s => (Ret tt, mk_state (f (nctx s)) (trace s)).

Definition when_ (b : bool) (m : M unit) : M unit := if b then m else ret tt.

Definition from_option {A : Type} (o : option A) : M A :=
  match o with Some a => ret a | None => stuck end.

(** A loop over the elements of [l], in order. *)
Fixpoint for_each {A : Type} (l : list A) (body : A → M unit) : M unit :=
  match l with
  | [] => ret tt
  | i :: l' => body i;; for_each l' body
  end.

(** [for (int i = 0; i < n; i++) body(i)] with [n] fixed during the loop. *)
Definition for_upto (n : Z) (body : Z → M unit) : M unit :=
  for_each (seqZ 0 n) body.

(** ** nexus_setup.cc *)

(** [hg_lookup_cb]: what the callback stores in the completion record
    ([out->hret], [out->addr]) from the [info] Mercury hands it. *)
Definition hg_lookup_cb (info : hg_return_t * hg_addr_t) : hg_return_t * hg_addr_t :=
  let out_hret := info.1 in
  if decide (out_hret ≠ HG_SUCCESS) then (out_hret, HG_ADDR_NULL)
  else (out_hret, info.2).

(** [hg_lookup]: the blocking wrapper around [HG_Addr_lookup].  [addr] is
    the content of [*addr] at the call; the result is the returned code and
    the content of [*addr] afterwards.  The wait on the condition variable
    ends when the callback has run. *)
Definition hg_lookup (E : env) (ep : endpoint) (hgaddr : string) (addr : hg_addr_t)
  : M (hg_return_t * hg_addr_t) :=
  if negb (malloc_ok E (A_lookup_out ep hgaddr)) then mret (HG_NOMEM_ERROR, addr)
  else
    emit (EvAddrLookup ep hgaddr);;
    let hret := HG_Addr_lookup E ep hgaddr in
    if decide (hret ≠ HG_SUCCESS) then mret (hret, addr)
    else
      let out := hg_lookup_cb (lookup_cb_info E ep hgaddr) in
      if decide (out.1 ≠ HG_SUCCESS) then mret (out.1, addr)
      else mret (HG_SUCCESS, out.2).

(** [HG_Addr_self(cl, &addr)]. *)
Definition addr_self (E : env) (ep : endpoint) : M (hg_return_t * hg_addr_t) :=
  emit (EvAddrSelf ep);; mret (HG_Addr_self E ep).

(** [MPI_Allgather] on communicator [c]: every member receives the send
    buffers of all members, ordered by rank, its own among them. *)
Definition MPI_Allgather {A : Type} (E : env) (c : comm) (mine : A) (sendbufs : list A)
  : M (list A) :=
  emit (EvAllgather c);;
  if decide (0 ≤ MPI_Comm_rank E c < MPI_Comm_size E c
             ∧ Z.of_nat (length sendbufs) = MPI_Comm_size E c)
  then mret (<[Z.to_nat (MPI_Comm_rank E c) := mine]> sendbufs)
  else stuck.

(** The address string of a local peer: ["na+sm://%d/%d"]. *)
Definition local_hgaddr (pid hgid : Z) : string :=
  "na+sm://" +:+ pretty pid +:+ "/" +:+ pretty hgid.

(** The body of the loop of [discover_local_info] over the gathered
    records [hginfo], for loop index [i]. *)
Definition discover_local_peer (E : env) (hginfo : list ldata_t) (i : Z) : M unit :=
  c ← get_ctx;
  eff_i ← from_option (int_rem (int_add (lrank c) i) (lsize c));
  p ← from_option (array_get hginfo eff_i);
  (* Find the local root *)
  when_ (bool_decide (l_lrank p = 0)) (modify_ctx (set_lroot (l_grank p)));;
  (* Update mapping *)
  c ← get_ctx;
  lr ← from_option (array_set (localranks c) (l_lrank p) (l_grank p));
  modify_ctx (set_localranks lr);;
  let hgaddr := local_hgaddr (l_pid p) (l_hgid p) in
  c ← get_ctx;
  r ← (if decide (l_grank p = grank c)
       then addr_self E EP_LOCAL
       else hg_lookup E EP_LOCAL hgaddr (stack_garbage E));
  when_ (bool_decide (r.1 ≠ HG_SUCCESS)) (msg_abort "hg_lookup failed");;
  (* Add to local map *)
  modify_ctx (fun c => set_laddrs (<[l_grank p := r.2]> (laddrs c)) c).

Definition discover_local_info (E : env) : M unit :=
  emit (EvCommRank localcomm);;
  modify_ctx (set_lrank (MPI_Comm_rank E localcomm));;
  emit (EvCommSize localcomm);;
  modify_ctx (set_lsize (MPI_Comm_size E localcomm));;
  (* Initialize local Mercury listening endpoints *)
  let hgaddr := "na+sm://" +:+ pretty (getpid E) +:+ "/0" in
  emit (EvInit EP_LOCAL hgaddr);;
  modify_ctx (set_hgcl EP_LOCAL (HG_Init E EP_LOCAL hgaddr));;
  c ← get_ctx;
  when_ (bool_decide (local_hgcl c = 0))
        (msg_abort "HG_init failed for local endpoint");;
  emit (EvContextCreate EP_LOCAL);;
  modify_ctx (set_hgctx EP_LOCAL (HG_Context_create E EP_LOCAL));;
  c ← get_ctx;
  when_ (bool_decide (local_hgctx c = 0))
        (msg_abort "HG_Context_create failed for local endpoint");;
  (* Start the network thread *)
  when_ (negb (malloc_ok E (A_bgarg EP_LOCAL))) (msg_abort "malloc failed");;
  emit (EvThreadCreate EP_LOCAL);;
  when_ (bool_decide (pthread_create E EP_LOCAL ≠ 0))
        (msg_abort "pthread_create failed");;
  (* Exchange PID, ID, global rank, local rank among local ranks *)
  c ← get_ctx;
  let ldat := mk_ldata (getpid E) 0 (grank c) (lrank c) in
  when_ (negb (malloc_ok E (A_hginfo EP_LOCAL))) (msg_abort "malloc failed");;
  hginfo ← MPI_Allgather E localcomm ldat (local_sendbufs E);
  (* Build local => global rank map *)
  when_ (negb (malloc_ok E A_localranks)) (msg_abort "malloc failed");;
  modify_ctx (set_localranks (replicate (Z.to_nat (lsize c)) (heap_garbage E)));;
  for_upto (lsize c) (discover_local_peer E hginfo);;
  (* Sync before terminating background threads *)
  emit (EvBarrier localcomm);;
  (* Terminate network thread *)
  emit (EvSetDone EP_LOCAL);;
  emit (EvThreadJoin EP_LOCAL).

Definition NUL : ascii := Ascii.zero.

(** The characters of a C string: those before the first NUL. *)
Fixpoint c_chars (l : list ascii) : list ascii :=
  match l with
  | [] => []
  | a :: l' => if decide (a = NUL) then [] else a :: c_chars l'
  end.

(** Reading [char arr[n]] as a C string; without a NUL inside the array the
    read runs past its end. *)
Definition c_str (arr : list ascii) : option string :=
  if decide (NUL ∈ arr) then Some (String.string_of_list_ascii (c_chars arr)) else None.

(** [strncpy(dest, src, n)]: writes exactly [n] bytes, the characters of
    [src] then NUL padding; no NUL when [src] has [n] characters or more. *)
Definition strncpy (src : string) (n : Z) : list ascii :=
  take (Z.to_nat n) (c_chars (String.list_ascii_of_string src) ++ replicate (Z.to_nat n) NUL).

(** Byte [k] (little-endian) of the int [n] replaced by [v]. *)
Definition set_int_byte (k : Z) (v : ascii) (n : Z) : Z :=
  wrap_int (n - (n `div` 256 ^ k) `mod` 256 * 256 ^ k
              + Z.of_N (N_of_ascii v) * 256 ^ k).

(** [rdat.addr[i] = v] as a byte store at offset [i] of the record: inside
    [addr] for [i < 60]; from 60 to 63 the byte belongs to [grank], which
    follows [addr] without padding; further out it leaves the record. *)
Definition rdata_store_addr (i : Z) (v : ascii) (r : rdata_t) : option rdata_t :=
  if decide (0 ≤ i < RDATA_ADDR_SIZE) then
    Some (mk_rdata (<[Z.to_nat i := v]> (r_addr r)) (r_grank r))
  else if decide (RDATA_GRANK_OFFSET ≤ i < RDATA_SIZE) then
    Some (mk_rdata (r_addr r) (set_int_byte (i - RDATA_GRANK_OFFSET) v (r_grank r)))
  else None.

(** The index of [rdat.addr[60] = '\0']. *)
Definition RDAT_NUL_INDEX : Z := 60.

(** The first two statements that fill [rdat] (an uninitialised local):
    [strncpy(rdat.addr, hgaddr, sizeof(rdat.addr)); rdat.addr[60] = '\0';] *)
Definition fill_rdat_addr (E : env) (hgaddr : string) : option rdata_t :=
  let rdat := mk_rdata (strncpy hgaddr RDATA_ADDR_SIZE) (stack_garbage E) in
  rdata_store_addr RDAT_NUL_INDEX NUL rdat.

(** ... followed by [rdat.grank = nctx->grank]. *)
Definition fill_rdat (E : env) (hgaddr : string) (g : Z) : option rdata_t :=
  rdat ← fill_rdat_addr E hgaddr;
  Some (mk_rdata (r_addr rdat) g).

(** The body of the loop of [discover_remote_info]. *)
Definition discover_remote_peer (E : env) (rep_rank rep_size : Z)
    (hginfo : list rdata_t) (i : Z) : M unit :=
  eff_i ← from_option (int_rem (int_add rep_rank i) rep_size);
  p ← from_option (array_get hginfo eff_i);
  c ← get_ctx;
  r ← (if decide (r_grank p = grank c)
       then addr_self E EP_REMOTE
       else (uri ← from_option (c_str (r_addr p));
             hg_lookup E EP_REMOTE uri (stack_garbage E)));
  when_ (bool_decide (r.1 ≠ HG_SUCCESS)) (msg_abort "hg_lookup failed");;
  (* Add to remote map *)
  modify_ctx (fun c => set_gaddrs (<[r_grank p := r.2]> (gaddrs c)) c).

Definition discover_remote_info (E : env) (hgaddr : string) : M unit :=
  emit (EvCommRank repcomm);;
  let rep_rank := MPI_Comm_rank E repcomm in
  emit (EvCommSize repcomm);;
  let rep_size := MPI_Comm_size E repcomm in
  (* Build rank => rep mapping *)
  when_ (negb (malloc_ok E A_rankreps)) (msg_abort "malloc failed");;
  c ← get_ctx;
  reps ← MPI_Allgather E MPI_COMM_WORLD (lroot c) (world_sendbufs E);
  modify_ctx (set_rankreps reps);;
  (* Initialize remote Mercury listening endpoints *)
  emit (EvInit EP_REMOTE hgaddr);;
  modify_ctx (set_hgcl EP_REMOTE (HG_Init E EP_REMOTE hgaddr));;
  c ← get_ctx;
  when_ (bool_decide (remote_hgcl c = 0))
        (msg_abort "HG_Init failed for remote endpoint");;
  emit (EvContextCreate EP_REMOTE);;
  modify_ctx (set_hgctx EP_REMOTE (HG_Context_create E EP_REMOTE));;
  c ← get_ctx;
  when_ (bool_decide (remote_hgctx c = 0))
        (msg_abort "HG_Context_create failed for remote endpoint");;
  (* Start the network thread *)
  when_ (negb (malloc_ok E (A_bgarg EP_REMOTE))) (msg_abort "malloc failed");;
  emit (EvThreadCreate EP_REMOTE);;
  when_ (bool_decide (pthread_create E EP_REMOTE ≠ 0))
        (msg_abort "pthread_create failed");;
  (* Exchange the address and the global rank among the representatives *)
  c ← get_ctx;
  rdat ← from_option (fill_rdat E hgaddr (grank c));
  when_ (negb (malloc_ok E (A_hginfo EP_REMOTE))) (msg_abort "malloc failed");;
  hginfo ← MPI_Allgather E repcomm rdat (rep_sendbufs E);
  for_upto rep_size (discover_remote_peer E rep_rank rep_size hginfo);;
  (* Sync before terminating background threads *)
  emit (EvBarrier repcomm);;
  (* Terminate network thread *)
  emit (EvSetDone EP_REMOTE);;
  emit (EvThreadJoin EP_REMOTE).

(** The scan of the interface list in [prepare_addr]: stops at the first
    AF_INET entry whose numeric host starts with [subnet].  [ip] is the
    content of the [ip] buffer; the result tells whether the scan stopped
    before the end of the list ([cur != NULL]). *)
Fixpoint scan_ifaddrs (subnet : string) (l : list ifaddr) (ip : string)
  : M (bool * string) :=
  match l with
  | [] => mret (false, ip)
  | cur :: l' =>
      match ifa_addr cur with
      | None => scan_ifaddrs subnet l' ip
      | Some (family, (gni_ret, host)) =>
          if decide (family = AF_INET) then
            emit EvGetnameinfo;;
            when_ (bool_decide (gni_ret = -1)) (msg_abort "getnameinfo failed");;
            (* strncmp(subnet, ip, strlen(subnet)) == 0 *)
            if String.prefix subnet host then mret (true, host)
            else scan_ifaddrs subnet l' host
          else scan_ifaddrs subnet l' ip
      end
  end.

(** The probe loop [for (; port <= maxport; port += size)]; the result is
    [port] when the loop is left.  [fuel] bounds the number of iterations;
    [prepare_addr] gives enough of it for any [size] of at least 1
    ([probe_ports_fuel]). *)
Fixpoint probe_ports (E : env) (fuel : nat) (port maxport size : Z) : M Z :=
  match fuel with
  | O => stuck
  | S fuel' =>
      if decide (port ≤ maxport) then
        (* test port availability *)
        emit EvSocket;;
        let so := socket_fd E port in
        if decide (so ≠ -1) then
          emit (EvBind port);;
          let n := bind_ret E port in
          if decide (n = 0) then mret port (* done *)
          else probe_ports E fuel' (int_add port size) maxport size
        else msg_abort "socket"
      else mret port
  end.

(** The size of the [hgaddr] buffer of [nexus_bootstrap]. *)
Definition HGADDR_SIZE : Z := 128.

(** [prepare_addr]: returns the server URI it writes into [*uri]. *)
Definition prepare_addr (E : env) (minport maxport : Z) (subnet proto : string)
  : M string :=
  (* Query local socket layer to get our IP addr *)
  emit EvGetifaddrs;;
  ifaddr ← match getifaddrs E with
           | None => msg_abort "getifaddrs failed"
           | Some l => mret l
           end;
  found ← scan_ifaddrs subnet ifaddr (ip_garbage E);
  let ip := found.2 in
  when_ (negb found.1) (msg_abort "no ip addr");;
  (* sanity check on port range *)
  when_ (bool_decide (int_sub maxport minport < 0)) (msg_abort "bad min-max port");;
  when_ (bool_decide (minport < 1)) (msg_abort "bad min port");;
  when_ (bool_decide (maxport > 65535)) (msg_abort "bad max port");;
  emit (EvCommRank localcomm);;
  let rank := MPI_Comm_rank E localcomm in
  emit (EvCommSize localcomm);;
  let size := MPI_Comm_size E localcomm in
  off ← from_option (int_rem rank (int_sub (int_add 1 maxport) minport));
  let port := int_add minport off in
  port ← probe_ports E (S (Z.to_nat (maxport - port + 1))) port maxport size;
  port ← (if decide (port > maxport) then
            let port := 0 in
            emit EvSocket;;
            let so := auto_socket_fd E in
            if decide (so ≠ -1) then
              emit (EvBind 0);;
              let n := auto_bind_ret E in
              if decide (n = 0) then
                emit EvGetsockname;;
                let n := (auto_getsockname E).1 in
                if decide (n = 0) then mret (auto_getsockname E).2 (* okay *)
                else mret port
              else mret port
            else msg_abort "socket"
          else mret port);
  when_ (bool_decide (port = 0)) (msg_abort "no free ports");;
  (* add proto *)
  let uri := proto +:+ "://" +:+ ip +:+ ":" +:+ pretty port in
  if decide (Z.of_nat (String.length uri) < HGADDR_SIZE) then mret uri else stuck.

(** Modelled from the spec: [init_local_comm] and [init_rep_comm] are
    called by [nexus_bootstrap] but defined outside nexus_setup.cc.  The
    Group Partitioner (section 4.1) splits the group through the
    process-coordination substrate and aborts when the substrate cannot
    produce the membership. *)
Definition init_local_comm (E : env) : M unit :=
  emit EvInitLocalComm;;
  when_ (negb (init_local_comm_ok E)) (msg_abort "init_local_comm failed").

Definition init_rep_comm (E : env) : M unit :=
  emit EvInitRepComm;;
  when_ (negb (init_rep_comm_ok E)) (msg_abort "init_rep_comm failed").

Definition nexus_bootstrap (E : env) (minport maxport : Z) (subnet proto : string)
  : M nexus_ret_t :=
  (* Grab MPI rank info *)
  emit (EvCommRank MPI_COMM_WORLD);;
  modify_ctx (set_grank (MPI_Comm_rank E MPI_COMM_WORLD));;
  emit (EvCommSize MPI_COMM_WORLD);;
  modify_ctx (set_gsize (MPI_Comm_size E MPI_COMM_WORLD));;
  init_local_comm E;;
  discover_local_info E;;
  hgaddr ← prepare_addr E minport maxport subnet proto;
  init_rep_comm E;;
  discover_remote_info E hgaddr;;
  mret NX_SUCCESS.

(** The entries of a [std::map<int, hg_addr_t>] in iteration order: by
    increasing key. *)
Definition key_le (x y : Z * hg_addr_t) : Prop := x.1 ≤ y.1.

#[global] Instance key_le_dec : RelDecision key_le.
Proof. intros x y. unfold key_le. apply _. Defined.

Definition map_entries (m : gmap Z hg_addr_t) : list (Z * hg_addr_t) :=
  merge_sort key_le (map_to_list m).

Definition free_addrs (ep : endpoint) (m : gmap Z hg_addr_t) : M unit :=
  for_each (map_entries m) (fun it =>
    when_ (bool_decide (it.2 ≠ HG_ADDR_NULL)) (emit (EvAddrFree ep it.2))).

Definition nexus_destroy : M nexus_ret_t :=
  (* Free local Mercury addresses *)
  c ← get_ctx;
  free_addrs EP_LOCAL (laddrs c);;
  (* Sync before tearing down local endpoints *)
  emit (EvBarrier localcomm);;
  emit (EvCommFree localcomm);;
  (* Destroy Mercury local endpoints *)
  emit (EvContextDestroy EP_LOCAL);;
  emit (EvFinalize EP_LOCAL);;
  (* Free remote Mercury addresses *)
  free_addrs EP_REMOTE (gaddrs c);;
  (* Sync before tearing down remote endpoints *)
  emit (EvBarrier repcomm);;
  (* Destroy Mercury remote endpoints *)
  emit (EvContextDestroy EP_REMOTE);;
  emit (EvFinalize EP_REMOTE);;
  emit (EvCommFree repcomm);;
  mret NX_SUCCESS.

(** ** The background progress thread *)

(** The thread sees the flag [bgdone] (written by the owning thread) and
    Mercury through the answers to its successive calls: the [n]-th read of
    the flag, the [n]-th [HG_Trigger] (return code and [count] afterwards),
    the [n]-th [HG_Progress]. *)
Record bg_env : Type := mk_bg_env {
  bgdone : nat → Z;
  HG_Trigger : nat → hg_return_t * Z;
  HG_Progress : nat → hg_return_t
}.

Inductive bg_event : Type :=
| BgTrigger (timeout : Z) (max_count : Z)
| BgProgress (timeout : Z).

Record bg_state : Type := mk_bg_state {
  n_reads : nat;
  n_trigger : nat;
  n_progress : nat;
  bg_trace : list bg_event
}.

(** [do { hret = HG_Trigger(hgctx, 0, 1, &count); }
     while (hret == HG_SUCCESS && count);] *)
Fixpoint trigger_loop (B : bg_env) (fuel : nat) (s : bg_state)
  : outcome hg_return_t * bg_state :=
  match fuel with
  | O => (Stuck, s)
  | S fuel' =>
      let r := HG_Trigger B (n_trigger s) in
      let s' := mk_bg_state (n_reads s) (S (n_trigger s)) (n_progress s)
                            (bg_trace s ++ [BgTrigger 0 1]) in
      if decide (r.1 = HG_SUCCESS ∧ r.2 ≠ 0) then trigger_loop B fuel' s'
      else (Ret r.1, s')
  end.

Fixpoint nexus_bgthread (B : bg_env) (fuel : nat) (s : bg_state)
  : outcome unit * bg_state :=
  match fuel with
  | O => (Stuck, s)
  | S fuel' =>
      (* while (!bgdat->bgdone) *)
      let flag := bgdone B (n_reads s) in
      let s := mk_bg_state (S (n_reads s)) (n_trigger s) (n_progress s) (bg_trace s) in
      if decide (flag ≠ 0) then (Ret tt, s)
      else
        match trigger_loop B fuel' s with
        | (Ret hret, s) =>
            if decide (hret ≠ HG_SUCCESS ∧ hret ≠ HG_TIMEOUT)
            then (Abort "nexus_bgthread: HG_Trigger failed", s)
            else
              let hret := HG_Progress B (n_progress s) in
              let s := mk_bg_state (n_reads s) (n_trigger s) (S (n_progress s))
                                   (bg_trace s ++ [BgProgress 100]) in
              if decide (hret ≠ HG_SUCCESS ∧ hret ≠ HG_TIMEOUT)
              then (Abort "nexus_bgthread: HG_Progress failed", s)
              else nexus_bgthread B fuel' s
        | (Abort msg, s) => (Abort msg, s)
        | (Stuck, s) => (Stuck, s)
        end
  end.

(** ** The routing resolver *)

(** Modelled from the spec: [nexus_next_hop] is declared in
    deltafs-nexus_api.h; its definition is not in nexus_setup.cc.
    Section 4.6: a
    destination outside the valid global-rank range is rejected as an
    invalid-parameter error without side effects; otherwise, in priority
    order, the destination is the caller (already at destination), is
    co-located (its representative is the caller's: its local address), the
    caller is not its node's representative (the local address of the
    caller's representative), or the caller is the representative (the
    remote address of the destination's representative); an identity
    missing from its table is a not-found error.  The result is the
    context afterwards, the decision, and the next hop's rank and address
    when there is one. *)
Definition nexus_next_hop (c : nexus_ctx) (dest : Z)
  : nexus_ctx * (nexus_ret_t * option (Z * hg_addr_t)) :=
  if decide (dest < 0 ∨ gsize c ≤ dest) then (c, (NX_INVAL, None))
  else if decide (dest = grank c) then (c, (NX_DONE, None))
  else
    match array_get (rankreps c) dest with
    | None => (c, (NX_NOTFOUND, None))
    | Some destrep =>
        if decide (destrep = lroot c) then
          match laddrs c !! dest with
          | Some a => (c, (NX_ISLOCAL, Some (dest, a)))
          | None => (c, (NX_NOTFOUND, None))
          end
        else if decide (grank c ≠ lroot c) then
          match laddrs c !! lroot c with
          | Some a => (c, (NX_SRCREP, Some (lroot c, a)))
          | None => (c, (NX_NOTFOUND, None))
          end
        else
          match gaddrs c !! destrep with
          | Some a => (c, (NX_DESTREP, Some (destrep, a)))
          | None => (c, (NX_NOTFOUND, None))
          end
    end.

(** ** Vocabulary of the statements *)

(** Peers are visited by index into the gathered records, starting at the
    caller's rank in the group and wrapping around. *)
Definition cyclic_order (rank size : Z) : list Z :=
  seqZ rank (size - rank) ++ seqZ 0 rank.

(** What the discovery loops use of a gathered record: the peer's global
    rank and its address string (None when the bytes hold no C string). *)
Record peer : Type := mk_peer {
  peer_grank : Z;
  peer_uri : option string
}.

Definition local_peer (p : ldata_t) : peer :=
  mk_peer (l_grank p) (Some (local_hgaddr (l_pid p) (l_hgid p))).

Definition remote_peer (p : rdata_t) : peer :=
  mk_peer (r_grank p) (c_str (r_addr p)).

(** The answer of the Lookup Adapter for an address string: the Mercury
    call it makes, the code it returns and the address it hands back. *)
Definition hg_lookup_result (E : env) (ep : endpoint) (uri : string)
  : list event * (hg_return_t * hg_addr_t) :=
  if malloc_ok E (A_lookup_out ep uri) then
    ([EvAddrLookup ep uri],
     if decide (HG_Addr_lookup E ep uri = HG_SUCCESS) then
       if decide ((lookup_cb_info E ep uri).1 = HG_SUCCESS)
       then (HG_SUCCESS, (lookup_cb_info E ep uri).2)
       else ((lookup_cb_info E ep uri).1, stack_garbage E)
     else (HG_Addr_lookup E ep uri, stack_garbage E))
  else ([], (HG_NOMEM_ERROR, stack_garbage E)).

(** The resolution of a peer: a self-address query for the caller itself,
    the Lookup Adapter on the peer's address string otherwise. *)
Definition resolution (E : env) (ep : endpoint) (self : bool) (pk : peer)
  : option (list event * (hg_return_t * hg_addr_t)) :=
  if self then Some ([EvAddrSelf ep], HG_Addr_self E ep)
  else uri ← peer_uri pk; Some (hg_lookup_result E ep uri).

Definition resolution_event (ep : endpoint) (self : bool) (pk : peer) : event :=
  if self then EvAddrSelf ep
  else EvAddrLookup ep (default "" (peer_uri pk)).

Definition resolution_code (E : env) (ep : endpoint) (self : bool) (pk : peer)
  : option hg_return_t :=
  r ← resolution E ep self pk; Some r.2.1.

Definition resolution_addr (E : env) (ep : endpoint) (self : bool) (pk : peer)
  : hg_addr_t :=
  match resolution E ep self pk with
  | Some r => r.2.2
  | None => HG_ADDR_NULL
  end.

(** Resolving the peers of [pks] in order, for a caller of global rank [g],
    on a routing table and a trace. *)
Fixpoint visit_peers (E : env) (ep : endpoint) (g : Z) (pks : list peer)
    (tbl : gmap Z hg_addr_t) (tr : list event)
  : outcome unit * (gmap Z hg_addr_t * list event) :=
  match pks with
  | [] => (Ret tt, (tbl, tr))
  | pk :: rest =>
      match resolution E ep (bool_decide (peer_grank pk = g)) pk with
      | None => (Stuck, (tbl, tr))
      | Some (evs, (hret, a)) =>
          if decide (hret = HG_SUCCESS)
          then visit_peers E ep g rest (<[peer_grank pk := a]> tbl) (tr ++ evs)
          else (Abort "hg_lookup failed", (tbl, tr ++ evs))
      end
  end.

(** The records a member of the local group receives from the all-gather;
    [g] is its global rank. *)
Definition local_hginfo (E : env) (g : Z) : list ldata_t :=
  <[Z.to_nat (MPI_Comm_rank E localcomm) :=
      mk_ldata (getpid E) 0 g (MPI_Comm_rank E localcomm)]> (local_sendbufs E).

(** The local group as MPI presents it: the caller's rank lies in the
    group, the group has at most 2^30 members (so that [rank + i] stays an
    int), the members answer the all-gather, each reports its local rank,
    and only the caller has the caller's global rank. *)
Record local_group_ok (E : env) (g : Z) : Prop := mk_local_group_ok {
  lg_rank : 0 ≤ MPI_Comm_rank E localcomm < MPI_Comm_size E localcomm;
  lg_size : MPI_Comm_size E localcomm ≤ 2 ^ 30;
  lg_length : Z.of_nat (length (local_sendbufs E)) = MPI_Comm_size E localcomm;
  lg_lrank : ∀ (j : nat) p, local_hginfo E g !! j = Some p → l_lrank p = Z.of_nat j;
  lg_grank : ∀ (j : nat) p, local_hginfo E g !! j = Some p →
             (l_grank p = g ↔ Z.of_nat j = MPI_Comm_rank E localcomm)
}.

(** The records a member of the representative group receives; [rdat] is
    its own. *)
Definition remote_hginfo (E : env) (rdat : rdata_t) : list rdata_t :=
  <[Z.to_nat (MPI_Comm_rank E repcomm) := rdat]> (rep_sendbufs E).

(** The representative group as MPI presents it (at most 2^30 members, so
    that [rank + i] stays an int), and the all-gather over the whole group;
    the address of every other member is a C string. *)
Record rep_group_ok (E : env) (g : Z) : Prop := mk_rep_group_ok {
  rg_rank : 0 ≤ MPI_Comm_rank E repcomm < MPI_Comm_size E repcomm;
  rg_size : MPI_Comm_size E repcomm ≤ 2 ^ 30;
  rg_length : Z.of_nat (length (rep_sendbufs E)) = MPI_Comm_size E repcomm;
  rg_world_rank : 0 ≤ MPI_Comm_rank E MPI_COMM_WORLD < MPI_Comm_size E MPI_COMM_WORLD;
  rg_world_length :
    Z.of_nat (length (world_sendbufs E)) = MPI_Comm_size E MPI_COMM_WORLD;
  rg_grank : ∀ (j : nat) p, rep_sendbufs E !! j = Some p →
             Z.of_nat j ≠ MPI_Comm_rank E repcomm → r_grank p ≠ g;
  rg_uri : ∀ (j : nat) p, rep_sendbufs E !! j = Some p →
           Z.of_nat j ≠ MPI_Comm_rank E repcomm → NUL ∈ r_addr p
}.

#[global] Instance ldata_inhabited : Inhabited ldata_t := populate (mk_ldata 0 0 0 0).
#[global] Instance rdata_inhabited : Inhabited rdata_t := populate (mk_rdata [] 0).

(** The peers of a group in the order of the visit. *)
Definition visited {A : Type} `{Inhabited A} (hginfo : list A) (rank size : Z) : list A :=
  (fun j => hginfo !!! Z.to_nat j) <$> cyclic_order rank size.

(** What the local loop does to the context before it resolves the peer
    of record [p]: the local root and the local-to-global rank map. *)
Definition note_local_peer (p : ldata_t) (c : nexus_ctx) : nexus_ctx :=
  set_localranks (<[Z.to_nat (l_lrank p) := l_grank p]> (localranks c))
    (if bool_decide (l_lrank p = 0) then set_lroot (l_grank p) c else c).

(** The local root the loop of [discover_local_info] leaves after the
    records [ps]: the global rank of the last one of local rank 0. *)
Definition local_root_after (r : Z) (ps : list ldata_t) : Z :=
  foldl (fun r p => if bool_decide (l_lrank p = 0) then l_grank p else r) r ps.

(** The fields of the context the local loop leaves alone. *)
Definition local_loop_frame (c c' : nexus_ctx) : Prop :=
  grank c' = grank c ∧ gsize c' = gsize c ∧ lrank c' = lrank c ∧ lsize c' = lsize c
  ∧ length (localranks c') = length (localranks c).

(** The calls [discover_local_info] and [discover_remote_info] make before
    their loops, when nothing fails. *)
Definition local_setup_events (E : env) : list event :=
  [EvCommRank localcomm; EvCommSize localcomm;
   EvInit EP_LOCAL ("na+sm://" +:+ pretty (getpid E) +:+ "/0");
   EvContextCreate EP_LOCAL; EvThreadCreate EP_LOCAL; EvAllgather localcomm].

Definition remote_setup_events (hgaddr : string) : list event :=
  [EvCommRank repcomm; EvCommSize repcomm; EvAllgather MPI_COMM_WORLD;
   EvInit EP_REMOTE hgaddr; EvContextCreate EP_REMOTE; EvThreadCreate EP_REMOTE;
   EvAllgather repcomm].

(** The calls that end the discovery on an endpoint: the barrier on its
    group, then the stop flag of its progress thread and the join. *)
Definition teardown_events (ep : endpoint) : list event :=
  [EvBarrier (comm_of ep); EvSetDone ep; EvThreadJoin ep].

(** The three calls of the teardown of an endpoint. *)
Definition is_teardown (ep : endpoint) (e : event) : bool :=
  bool_decide (e ∈ teardown_events ep).

(** The [n]-th trigger reports completed work. *)
Definition trigger_worked (B : bg_env) (n : nat) : Prop :=
  (HG_Trigger B n).1 = HG_SUCCESS ∧ (HG_Trigger B n).2 ≠ 0.

(** An index into [char addr[60]] is in bounds from 0 to 59. *)
Definition addr_index_in_bounds (i : Z) : Prop := 0 ≤ i < RDATA_ADDR_SIZE.

(** The discovery on an endpoint, and the well-formedness of its group. *)
Definition discovery (ep : endpoint) (E : env) (hgaddr : string) : M unit :=
  match ep with
  | EP_LOCAL => discover_local_info E
  | EP_REMOTE => discover_remote_info E hgaddr
  end.

Definition group_ok (ep : endpoint) (E : env) (g : Z) : Prop :=
  match ep with
  | EP_LOCAL => local_group_ok E g
  | EP_REMOTE => rep_group_ok E g
  end.

(** ** Several processes *)

(** A schedule: the events of the processes of a group, each tagged with
    the process that performs it, in the order in which they happen. *)
Abbreviation schedule := (list (Z * event)).

Definition events_of (p : Z) (sch : schedule) : list event :=
  (filter (fun x => x.1 = p) sch).*2.

(** [MPI_Barrier] on the communicator [c] of the group [members]: a member
    acts after its barrier only once every member has entered the barrier. *)
Definition barrier_holds (c : comm) (members : list Z) (sch : schedule) : Prop :=
  ∀ l1 l2 q e, sch = l1 ++ (q, e) :: l2 → q ∈ members → (q, EvBarrier c) ∈ l1 →
               ∀ p, p ∈ members → (p, EvBarrier c) ∈ l1.

(** The same, as a check along the schedule; [entered] lists the processes
    that have entered the barrier so far. *)
Fixpoint barrier_check (c : comm) (members entered : list Z) (sch : schedule) : bool :=
  match sch with
  | [] => true
  | (q, e) :: rest =>
      (if bool_decide (q ∈ members ∧ q ∈ entered)
       then bool_decide (members ⊆ entered) else true)
      && barrier_check c members
           (if bool_decide (e = EvBarrier c) then q :: entered else entered) rest
  end.

(** The calls that come after the check of the port range: the port
    probes, every operation on the representative group and on the whole
    group's all-gather, every operation on the remote endpoint. *)
Definition is_port_or_remote_op (e : event) : bool :=
  match e with
  | EvSocket | EvBind _ | EvGetsockname | EvInitRepComm => true
  | EvCommRank repcomm | EvCommSize repcomm | EvBarrier repcomm
  | EvCommFree repcomm | EvAllgather repcomm | EvAllgather MPI_COMM_WORLD => true
  | EvInit EP_REMOTE _ | EvContextCreate EP_REMOTE | EvAddrSelf EP_REMOTE
  | EvAddrLookup EP_REMOTE _ | EvAddrFree EP_REMOTE _ | EvContextDestroy EP_REMOTE
  | EvFinalize EP_REMOTE | EvThreadCreate EP_REMOTE | EvSetDone EP_REMOTE
  | EvThreadJoin EP_REMOTE => true
  | _ => false
  end.

(** The port range bootstrap must refuse: inverted, below 1, above 65535. *)
Definition bad_port_range (minport maxport : Z) : Prop :=
  minport > maxport ∨ minport < 1 ∨ maxport > 65535.

(** C4 as the specification states it: bootstrap aborts before it has made
    any group or network operation and leaves the context as it was. *)
Definition fails_before_any_operation (E : env) (minport maxport : Z)
    (subnet proto : string) (s : state) : Prop :=
  ∃ msg s', nexus_bootstrap E minport maxport subnet proto s = (Abort msg, s')
            ∧ nctx s' = nctx s
            ∧ Forall (fun e => is_group_op e = false ∧ is_network_op e = false)
                     (drop (length (trace s)) (trace s')).

(** The state in which [nexus_bootstrap], entered in state [s], calls
    [discover_local_info]. *)
Definition local_discovery_entry (E : env) (s : state) : state :=
  mk_state (set_gsize (MPI_Comm_size E MPI_COMM_WORLD)
              (set_grank (MPI_Comm_rank E MPI_COMM_WORLD) (nctx s)))
           (trace s ++ [EvCommRank MPI_COMM_WORLD; EvCommSize MPI_COMM_WORLD;
                        EvInitLocalComm]).

(** A computation that leaves the context as it is, whatever its outcome. *)
Definition keeps_ctx {A : Type} (m : M A) : Prop :=
  ∀ s o s', m s = (o, s') → nctx s' = nctx s.

(** ** The whole group *)

(** The global ranks of the members of the local group of [g], by local
    rank, as the all-gather of [discover_local_info] shows them to [g]. *)
Definition node_of (E : env) (g : Z) : list Z := l_grank <$> local_hginfo E g.

(** A run of the group: its size and, for every global rank, the
    environment of the process and the states in which it enters and leaves
    [discover_local_info]. *)
Record world : Type := mk_world {
  w_size : Z;
  w_env : Z → env;
  w_enter : Z → state;
  w_exit : Z → state
}.

(** The group as MPI presents it to its members: global ranks are ranks
    in [MPI_COMM_WORLD]; the local groups are well formed and are the same
    for all their members; every process completes its local discovery; and
    in the all-gather over [MPI_COMM_WORLD] every rank sends the [lroot] of
    its context. *)
Record world_ok (W : world) : Prop := mk_world_ok {
  wo_rank : ∀ g, 0 ≤ g < w_size W →
            MPI_Comm_rank (w_env W g) MPI_COMM_WORLD = g
            ∧ MPI_Comm_size (w_env W g) MPI_COMM_WORLD = w_size W
            ∧ grank (nctx (w_enter W g)) = g;
  wo_local : ∀ g, 0 ≤ g < w_size W → local_group_ok (w_env W g) g;
  wo_node : ∀ g g', 0 ≤ g < w_size W → g' ∈ node_of (w_env W g) g →
            0 ≤ g' < w_size W ∧ node_of (w_env W g') g' = node_of (w_env W g) g;
  wo_run : ∀ g, 0 ≤ g < w_size W →
           discover_local_info (w_env W g) (w_enter W g) = (Ret tt, w_exit W g);
  wo_gather : ∀ g r, 0 ≤ g < w_size W → 0 ≤ r < w_size W →
              Z.of_nat (length (world_sendbufs (w_env W g))) = w_size W
              ∧ world_sendbufs (w_env W g) !! Z.to_nat r
                = Some (lroot (nctx (w_exit W r)))
}.

(** ** A test topology *)

(** Two nodes of two processes each: global ranks 0 to 3, node A = {0, 1},
    node B = {2, 3}; rank 0 represents node A and rank 2 node B.  The
    process of global rank [g] has local rank [g mod 2] on node [g / 2];
    the representatives form one group and the other processes another.
    Node A has the interface 10.0.0.1 and node B 10.0.0.2, which match the
    subnet 10.0; every port is free.  The local address of rank [r] is the
    handle [1000 + r], its remote address [2000 + r]. *)
Definition test_node (g : Z) : Z := g `div` 2.
Definition test_lrank (g : Z) : Z := g `mod` 2.
Definition test_pid (g : Z) : Z := 100 * (test_node g + 1) + test_lrank g.
Definition test_ip (g : Z) : string := "10.0.0." +:+ pretty (test_node g + 1).
Definition test_uri (g : Z) : string :=
  "tcp://" +:+ test_ip g +:+ ":" +:+ pretty (5000 + test_lrank g).

Definition test_env (g : Z) : env := {|
  MPI_Comm_rank := fun c => match c with
                            | MPI_COMM_WORLD => g
                            | localcomm => test_lrank g
                            | repcomm => test_node g
                            end;
  MPI_Comm_size := fun c => match c with MPI_COMM_WORLD => 4 | _ => 2 end;
  init_local_comm_ok := true;
  init_rep_comm_ok := true;
  local_sendbufs :=
    (fun l => mk_ldata (test_pid (2 * test_node g + l)) 0 (2 * test_node g + l) l)
      <$> [0; 1];
  world_sendbufs := [0; 0; 2; 2];
  rep_sendbufs :=
    (fun n => mk_rdata (strncpy (test_uri (2 * n + test_lrank g)) 60)
                       (2 * n + test_lrank g))
      <$> [0; 1];
  getpid := test_pid g;
  malloc_ok := fun _ => true;
  heap_garbage := 0;
  stack_garbage := 305441741;
  pthread_create := fun _ => 0;
  HG_Init := fun ep _ => match ep with EP_LOCAL => 11 | EP_REMOTE => 12 end;
  HG_Context_create := fun ep => match ep with EP_LOCAL => 21 | EP_REMOTE => 22 end;
  HG_Addr_self := fun ep =>
    (HG_SUCCESS, match ep with EP_LOCAL => 1000 + g | EP_REMOTE => 2000 + g end);
  HG_Addr_lookup := fun _ _ => HG_SUCCESS;
  lookup_cb_info := fun ep _ =>
    (HG_SUCCESS,
     match ep with
     | EP_LOCAL => 1000 + (2 * test_node g + (1 - test_lrank g))
     | EP_REMOTE => 2000 + (2 * (1 - test_node g) + test_lrank g)
     end);
  getifaddrs := Some [mk_ifaddr None;
                      mk_ifaddr (Some (10, (0, "::1")));
                      mk_ifaddr (Some (AF_INET, (0, "127.0.0.1")));
                      mk_ifaddr (Some (AF_INET, (0, test_ip g)))];
  ip_garbage := "";
  socket_fd := fun _ => 3;
  bind_ret := fun _ => 0;
  auto_socket_fd := 3;
  auto_bind_ret := 0;
  auto_getsockname := (0, 40000)
|}.

Definition rank0_env : env := test_env 0.
Definition rank1_env : env := test_env 1.
Definition node_b_uri : string := "tcp://10.0.0.2:5000".

(** The environment of rank 0 with node B's representative unreachable:
    the lookup of its address completes with an error. *)
Definition rank0_env_unreachable : env := {|
  MPI_Comm_rank := MPI_Comm_rank rank0_env;
  MPI_Comm_size := MPI_Comm_size rank0_env;
  init_local_comm_ok := init_local_comm_ok rank0_env;
  init_rep_comm_ok := init_rep_comm_ok rank0_env;
  local_sendbufs := local_sendbufs rank0_env;
  world_sendbufs := world_sendbufs rank0_env;
  rep_sendbufs := rep_sendbufs rank0_env;
  getpid := getpid rank0_env;
  malloc_ok := malloc_ok rank0_env;
  heap_garbage := heap_garbage rank0_env;
  stack_garbage := stack_garbage rank0_env;
  pthread_create := pthread_create rank0_env;
  HG_Init := HG_Init rank0_env;
  HG_Context_create := HG_Context_create rank0_env;
  HG_Addr_self := HG_Addr_self rank0_env;
  HG_Addr_lookup := HG_Addr_lookup rank0_env;
  lookup_cb_info := fun ep uri =>
    if decide (ep = EP_REMOTE) then (HG_OTHER_ERROR 11, 0)
    else lookup_cb_info rank0_env ep uri;
  getifaddrs := getifaddrs rank0_env;
  ip_garbage := ip_garbage rank0_env;
  socket_fd := socket_fd rank0_env;
  bind_ret := bind_ret rank0_env;
  auto_socket_fd := auto_socket_fd rank0_env;
  auto_bind_ret := auto_bind_ret rank0_env;
  auto_getsockname := auto_getsockname rank0_env
|}.

(** A context before bootstrap: every field still to be written. *)
Definition fresh_ctx : nexus_ctx := mk_ctx 0 0 0 0 0 [] [] ∅ ∅ 0 0 0 0.
Definition fresh_state : state := mk_state fresh_ctx [].

(** The states in which rank 0 leaves its local discovery, its bootstrap,
    and its remote discovery (run after the local one). *)
Definition rank0_after_local : state := (discover_local_info rank0_env fresh_state).2.
Definition rank0_after_bootstrap : state :=
  (nexus_bootstrap rank0_env 5000 5010 "10.0" "tcp" fresh_state).2.
Definition rank0_before_remote : state :=
  mk_state (set_grank 0 (nctx rank0_after_local)) [].
Definition rank0_after_remote : state :=
  (discover_remote_info rank0_env "tcp://10.0.0.1:5000" rank0_before_remote).2.

Definition rank1_start : state := mk_state (set_grank 1 fresh_ctx) [].
Definition rank1_after_local : state := (discover_local_info rank1_env rank1_start).2.

(** The test topology as a run of the group. *)
Definition test_enter (g : Z) : state := local_discovery_entry (test_env g) fresh_state.
Definition test_world : world :=
  mk_world 4 test_env test_enter
           (fun g => (discover_local_info (test_env g) (test_enter g)).2).

(** A schedule of the local discovery on node A: rank 0 then rank 1 set
    up and resolve their peers, both enter the barrier, then rank 1 and
    rank 0 stop and join their progress threads. *)
Definition node_a_schedule : schedule :=
  (pair 0 <$> take 8 (trace rank0_after_local))
  ++ (pair 1 <$> take 8 (trace rank1_after_local))
  ++ [(0, EvBarrier localcomm); (1, EvBarrier localcomm)]
  ++ (pair 1 <$> drop 9 (trace rank1_after_local))
  ++ (pair 0 <$> drop 9 (trace rank0_after_local)).

(** A script for the progress thread: two triggers that complete work, one
    that finds none, a progress that times out, then the flag is set. *)
Definition bg_script : bg_env := {|
  bgdone := fun n => match n with O => 0 | _ => 1 end;
  HG_Trigger := fun n => match n with
                         | O | S O => (HG_SUCCESS, 1)
                         | _ => (HG_TIMEOUT, 0)
                         end;
  HG_Progress := fun _ => HG_TIMEOUT
|}.

(** ** Vocabulary of the further properties *)

(** A string without a NUL character: the content of a C string. *)
Definition is_c_string (s : string) : Prop := NUL ∉ String.list_ascii_of_string s.

(** What the scan of [prepare_addr] looks at in an interface: the answer
    of [getnameinfo] (return code, numeric host) for an AF_INET address. *)
Definition iface_host (cur : ifaddr) : option (Z * string) :=
  match ifa_addr cur with
  | Some (family, r) => if decide (family = AF_INET) then Some r else None
  | None => None
  end.

(** The scan passes over the interface: it has no AF_INET address, or its
    numeric host does not start with [subnet]. *)
Definition iface_skipped (subnet : string) (cur : ifaddr) : Prop :=
  match iface_host cur with
  | Some (gni_ret, host) => gni_ret ≠ -1 ∧ String.prefix subnet host = false
  | None => True
  end.

(** The scan stops at the interface: its numeric host starts with
    [subnet]. *)
Definition iface_selected (subnet : string) (cur : ifaddr) (host : string) : Prop :=
  ∃ gni_ret, iface_host cur = Some (gni_ret, host) ∧ gni_ret ≠ -1
             ∧ String.prefix subnet host = true.

(** [host] is the numeric host of the first interface of [l] that the
    scan does not pass over. *)
Definition first_match (subnet : string) (l : list ifaddr) (host : string) : Prop :=
  ∃ l1 cur l2, l = l1 ++ cur :: l2 ∧ Forall (iface_skipped subnet) l1
               ∧ iface_selected subnet cur host.

(** The ports the probe loop tries: [start], [start + size], ... *)
Definition stride_port (start size : Z) (j : nat) : Z := start + Z.of_nat j * size.

(** The calls of [k] turns of the probe loop from [port] on, each with a
    socket and a bind. *)
Fixpoint probe_events (port size : Z) (k : nat) : list event :=
  match k with
  | O => []
  | S k' => EvSocket :: EvBind port :: probe_events (port + size) size k'
  end.

(** The port at which the caller starts to probe,
    [minport + (rank % (1 + maxport - minport))], written for a rank of at
    least 0 and a range that passes the checks: nothing wraps around and
    [%] is [mod]. *)
Definition first_port (E : env) (minport maxport : Z) : Z :=
  minport + MPI_Comm_rank E localcomm `mod` (maxport - minport + 1).

(** The [j]-th port of the stride lies in the range and cannot be bound. *)
Definition port_busy (E : env) (start size maxport : Z) (j : nat) : Prop :=
  stride_port start size j ≤ maxport
  ∧ socket_fd E (stride_port start size j) ≠ -1
  ∧ bind_ret E (stride_port start size j) ≠ 0.

(** The [j]-th port of the stride lies in the range and can be bound. *)
Definition port_free (E : env) (start size maxport : Z) (j : nat) : Prop :=
  stride_port start size j ≤ maxport
  ∧ socket_fd E (stride_port start size j) ≠ -1
  ∧ bind_ret E (stride_port start size j) = 0.

(** ["%s://%s:%d"]. *)
Definition port_uri (proto ip : string) (port : Z) : string :=
  proto +:+ "://" +:+ ip +:+ ":" +:+ pretty port.

(** [prepare_addr] from the query of the local rank on (lines 119 to 172):
    the probe of the ports of the range, the port assigned by the system
    when none is free, the URI. *)
Definition choose_port_uri (E : env) (minport maxport : Z) (ip proto : string)
  : M string :=
  emit (EvCommRank localcomm);;
  let rank := MPI_Comm_rank E localcomm in
  emit (EvCommSize localcomm);;
  let size := MPI_Comm_size E localcomm in
  off ← from_option (int_rem rank (int_sub (int_add 1 maxport) minport));
  let port := int_add minport off in
  port ← probe_ports E (S (Z.to_nat (maxport - port + 1))) port maxport size;
  port ← (if decide (port > maxport) then
            let port := 0 in
            emit EvSocket;;
            let so := auto_socket_fd E in
            if decide (so ≠ -1) then
              emit (EvBind 0);;
              let n := auto_bind_ret E in
              if decide (n = 0) then
                emit EvGetsockname;;
                let n := (auto_getsockname E).1 in
                if decide (n = 0) then mret (auto_getsockname E).2 (* okay *)
                else mret port
              else mret port
            else msg_abort "socket"
          else mret port);
  when_ (bool_decide (port = 0)) (msg_abort "no free ports");;
  (* add proto *)
  let uri := proto +:+ "://" +:+ ip +:+ ":" +:+ pretty port in
  if decide (Z.of_nat (String.length uri) < HGADDR_SIZE) then mret uri else stuck.

(** The port of the last resort (lines 142 to 166), bound to port 0 and
    read back with [getsockname]: the calls made and the port obtained, 0
    when the system gives none, [None] when no socket can be opened. *)
Definition auto_port (E : env) : list event * option Z :=
  if decide (auto_socket_fd E = -1) then ([EvSocket], None)
  else if decide (auto_bind_ret E ≠ 0) then ([EvSocket; EvBind 0], Some 0)
  else ([EvSocket; EvBind 0; EvGetsockname],
        Some (if decide ((auto_getsockname E).1 = 0) then (auto_getsockname E).2 else 0)).

(** The end of [prepare_addr] once the port is chosen: port 0 is refused,
    the URI must fit the [hgaddr] buffer of the caller. *)
Definition uri_result (proto ip : string) (port : Z) : outcome string :=
  if decide (port = 0) then Abort "no free ports"
  else if decide (Z.of_nat (String.length (port_uri proto ip port)) < HGADDR_SIZE)
       then Ret (port_uri proto ip port) else Stuck.

(** A port range that passes the checks of [prepare_addr]. *)
Definition port_range_ok (minport maxport : Z) : Prop :=
  1 ≤ minport ∧ minport ≤ maxport ∧ maxport ≤ 65535.

(** The calls a run adds to the trace. *)
Definition new_events (s s' : state) : list event :=
  drop (length (trace s)) (trace s').

(** A computation that leaves the value of [f] on the context as it is,
    whatever its outcome. *)
Definition keeps {A B : Type} (f : nexus_ctx → B) (m : M A) : Prop :=
  ∀ s o s', m s = (o, s') → f (nctx s') = f (nctx s).

(** The fields of the context by the phase of bootstrap that writes them:
    the ranks in the whole group, what the local discovery builds, what
    the remote discovery builds. *)
Definition rank_part (c : nexus_ctx) : Z * Z := (grank c, gsize c).

Definition local_part (c : nexus_ctx)
  : Z * Z * Z * list Z * gmap Z hg_addr_t * Z * Z :=
  (lrank c, lsize c, lroot c, localranks c, laddrs c, local_hgcl c, local_hgctx c).

Definition remote_part (c : nexus_ctx) : list Z * gmap Z hg_addr_t * Z * Z :=
  (rankreps c, gaddrs c, remote_hgcl c, remote_hgctx c).

(** The local-to-global rank map the loop of [discover_local_info] leaves
    after the records [ps]. *)
Definition localranks_after (lr : list Z) (ps : list ldata_t) : list Z :=
  foldl (fun lr p => <[Z.to_nat (l_lrank p) := l_grank p]> lr) lr ps.

(** The global ranks of the members of the representative group, by rank
    in the group, as the all-gather of [discover_remote_info] shows them
    to the member of global rank [g]. *)
Definition reps_of (E : env) (g : Z) : list Z :=
  <[Z.to_nat (MPI_Comm_rank E repcomm) := g]> (r_grank <$> rep_sendbufs E).

(** The setup of the Mercury endpoint [ep] on address [uri] fails: the
    class or the context cannot be created, the argument of the progress
    thread or the gather buffer cannot be allocated, or the thread cannot
    be started. *)
Definition endpoint_setup_fails (E : env) (ep : endpoint) (uri : string) : Prop :=
  HG_Init E ep uri = 0 ∨ HG_Context_create E ep = 0
  ∨ malloc_ok E (A_bgarg ep) = false ∨ pthread_create E ep ≠ 0
  ∨ malloc_ok E (A_hginfo ep) = false.

(** A computation that, whatever its outcome, adds to the trace only
    calls that satisfy [P]. *)
Definition emits {A : Type} (P : event → bool) (m : M A) : Prop :=
  ∀ s o s', m s = (o, s') →
            ∃ evs, trace s' = trace s ++ evs ∧ Forall (fun e => P e = true) evs.

(** The calls of the three phases of bootstrap: the local discovery (the
    local group and the local endpoint), the choice of the address (the
    socket layer and the rank in the local group), the remote discovery
    (the representative group, the all-gather over the whole group, the
    remote endpoint). *)
Definition is_local_phase_op (e : event) : bool :=
  match e with
  | EvCommRank localcomm | EvCommSize localcomm | EvAllgather localcomm
  | EvBarrier localcomm => true
  | EvInit EP_LOCAL _ | EvContextCreate EP_LOCAL | EvAddrSelf EP_LOCAL
  | EvAddrLookup EP_LOCAL _ | EvThreadCreate EP_LOCAL | EvSetDone EP_LOCAL
  | EvThreadJoin EP_LOCAL => true
  | _ => false
  end.

Definition is_address_phase_op (e : event) : bool :=
  match e with
  | EvGetifaddrs | EvGetnameinfo | EvSocket | EvBind _ | EvGetsockname => true
  | EvCommRank localcomm | EvCommSize localcomm => true
  | _ => false
  end.

Definition is_remote_phase_op (e : event) : bool :=
  match e with
  | EvCommRank repcomm | EvCommSize repcomm | EvAllgather repcomm
  | EvBarrier repcomm | EvAllgather MPI_COMM_WORLD => true
  | EvInit EP_REMOTE _ | EvContextCreate EP_REMOTE | EvAddrSelf EP_REMOTE
  | EvAddrLookup EP_REMOTE _ | EvThreadCreate EP_REMOTE | EvSetDone EP_REMOTE
  | EvThreadJoin EP_REMOTE => true
  | _ => false
  end.

(** The addresses [nexus_destroy] hands to [HG_Addr_free] for a table: the
    non-NULL ones, in the order of the iteration. *)
Definition freed_addrs (m : gmap Z hg_addr_t) : list hg_addr_t :=
  filter (fun a => a ≠ HG_ADDR_NULL) (map_entries m).*2.

(** The calls of [nexus_destroy] on a context. *)
Definition destroy_events (c : nexus_ctx) : list event :=
  (EvAddrFree EP_LOCAL <$> freed_addrs (laddrs c))
  ++ [EvBarrier localcomm; EvCommFree localcomm;
      EvContextDestroy EP_LOCAL; EvFinalize EP_LOCAL]
  ++ (EvAddrFree EP_REMOTE <$> freed_addrs (gaddrs c))
  ++ [EvBarrier repcomm; EvContextDestroy EP_REMOTE; EvFinalize EP_REMOTE;
      EvCommFree repcomm].

(** The order of the iteration over a table is total and transitive. *)
#[global] Instance key_le_total : Total key_le.
Proof. intros x y. unfold key_le. lia. Qed.

#[global] Instance key_le_trans : Transitive key_le.
Proof. intros x y z. unfold key_le. lia. Qed.

(** The calls of one turn of the loop of the progress thread that drains
    [k] completed callbacks: [k + 1] triggers, then one progress. *)
Definition bg_turn (k : nat) : list bg_event :=
  replicate (S k) (BgTrigger 0 1) ++ [BgProgress 100].

(** A return code the progress thread goes on with. *)
Definition hg_tolerated (h : hg_return_t) : Prop := h = HG_SUCCESS ∨ h = HG_TIMEOUT.

#[global] Instance trigger_worked_dec (B : bg_env) (n : nat) : Decision (trigger_worked B n).
Proof. unfold trigger_worked. apply _. Defined.

#[global] Instance hg_tolerated_dec (h : hg_return_t) : Decision (hg_tolerated h).
Proof. unfold hg_tolerated. apply _. Defined.

(** ** More of the test topology *)

(** The environment of rank 0 with every port of the range taken: each
    bind to a port of the range fails, the system assigns port 40000. *)
Definition rank0_env_ports_taken : env := {|
  MPI_Comm_rank := MPI_Comm_rank rank0_env;
  MPI_Comm_size := MPI_Comm_size rank0_env;
  init_local_comm_ok := init_local_comm_ok rank0_env;
  init_rep_comm_ok := init_rep_comm_ok rank0_env;
  local_sendbufs := local_sendbufs rank0_env;
  world_sendbufs := world_sendbufs rank0_env;
  rep_sendbufs := rep_sendbufs rank0_env;
  getpid := getpid rank0_env;
  malloc_ok := malloc_ok rank0_env;
  heap_garbage := heap_garbage rank0_env;
  stack_garbage := stack_garbage rank0_env;
  pthread_create := pthread_create rank0_env;
  HG_Init := HG_Init rank0_env;
  HG_Context_create := HG_Context_create rank0_env;
  HG_Addr_self := HG_Addr_self rank0_env;
  HG_Addr_lookup := HG_Addr_lookup rank0_env;
  lookup_cb_info := lookup_cb_info rank0_env;
  getifaddrs := getifaddrs rank0_env;
  ip_garbage := ip_garbage rank0_env;
  socket_fd := socket_fd rank0_env;
  bind_ret := fun _ => -1;
  auto_socket_fd := auto_socket_fd rank0_env;
  auto_bind_ret := auto_bind_ret rank0_env;
  auto_getsockname := auto_getsockname rank0_env
|}.

(** The interfaces of node A. *)
Definition node_a_ifaddrs : list ifaddr :=
  [mk_ifaddr None;
   mk_ifaddr (Some (10, (0, "::1")));
   mk_ifaddr (Some (AF_INET, (0, "127.0.0.1")));
   mk_ifaddr (Some (AF_INET, (0, "10.0.0.1")))].

(** The environment of rank 0 with a Mercury that cannot create the class
    of an endpoint: [HG_Init] returns NULL. *)
Definition rank0_env_no_mercury : env := {|
  MPI_Comm_rank := MPI_Comm_rank rank0_env;
  MPI_Comm_size := MPI_Comm_size rank0_env;
  init_local_comm_ok := init_local_comm_ok rank0_env;
  init_rep_comm_ok := init_rep_comm_ok rank0_env;
  local_sendbufs := local_sendbufs rank0_env;
  world_sendbufs := world_sendbufs rank0_env;
  rep_sendbufs := rep_sendbufs rank0_env;
  getpid := getpid rank0_env;
  malloc_ok := malloc_ok rank0_env;
  heap_garbage := heap_garbage rank0_env;
  stack_garbage := stack_garbage rank0_env;
  pthread_create := pthread_create rank0_env;
  HG_Init := fun _ _ => 0;
  HG_Context_create := HG_Context_create rank0_env;
  HG_Addr_self := HG_Addr_self rank0_env;
  HG_Addr_lookup := HG_Addr_lookup rank0_env;
  lookup_cb_info := lookup_cb_info rank0_env;
  getifaddrs := getifaddrs rank0_env;
  ip_garbage := ip_garbage rank0_env;
  socket_fd := socket_fd rank0_env;
  bind_ret := bind_ret rank0_env;
  auto_socket_fd := auto_socket_fd rank0_env;
  auto_bind_ret := auto_bind_ret rank0_env;
  auto_getsockname := auto_getsockname rank0_env
|}.

(** A script for the progress thread with a Mercury that fails: the flag
    is never set, no trigger finds work, the second progress returns an
    error. *)
Definition bg_script_failing : bg_env := {|
  bgdone := fun _ => 0;
  HG_Trigger := fun _ => (HG_TIMEOUT, 0);
  HG_Progress := fun n => match n with O => HG_SUCCESS | _ => HG_OTHER_ERROR 7 end
|}.

(** An address of 64 characters, longer than the address field of
    [rdata_t]. *)
Definition long_uri : string :=
  "tcp://a-host-with-a-very-long-name.cluster.example.org:5000/abcd".

(** * Properties *)

(** ** The monad *)

Lemma run_bind {A B : Type} (m : M A) (k : A → M B) (s : state) :
  (m ≫= k) s =
  match m s with
  | (Ret a, s') => k a s'
  | (Abort msg, s') => (Abort msg, s')
  | (Stuck, s') => (Stuck, s')
  end.
Proof. reflexivity. Qed.

Lemma run_emit (e : event) (s : state) :
  emit e s = (Ret tt, mk_state (nctx s) (trace s ++ [e])).
Proof. reflexivity. Qed.

Lemma keeps_ctx_ret {A : Type} (a : A) : keeps_ctx (mret a).
Proof. intros s o s' [= <- <-]. done. Qed.

Lemma keeps_ctx_abort {A : Type} (msg : string) : keeps_ctx (@msg_abort A msg).
Proof. intros s o s' [= <- <-]. done. Qed.

Lemma keeps_ctx_stuck {A : Type} : keeps_ctx (@stuck A).
Proof. intros s o s' [= <- <-]. done. Qed.

Lemma keeps_ctx_emit (e : event) : keeps_ctx (emit e).
Proof. intros s o s' [= <- <-]. done. Qed.

Lemma keeps_ctx_bind {A B : Type} (m : M A) (k : A → M B) :
  keeps_ctx m → (∀ a, keeps_ctx (k a)) → keeps_ctx (m ≫= k).
Proof.
  intros Hm Hk s o s' Hrun. rewrite run_bind in Hrun.
  destruct (m s) as [[a|msg|] s1] eqn:Hms.
  - rewrite (Hk a s1 o s' Hrun). by apply (Hm s (Ret a)).
  - injection Hrun as <- <-. by apply (Hm s (Abort msg)).
  - injection Hrun as <- <-. by apply (Hm s Stuck).
Qed.

Lemma keeps_ctx_when (b : bool) (m : M unit) : keeps_ctx m → keeps_ctx (when_ b m).
Proof. destruct b; [done|]. intros _. apply keeps_ctx_ret. Qed.

(** ** Machine arithmetic of the loop index *)

Lemma wrap_int_id (z : Z) : INT_MIN ≤ z ≤ INT_MAX → wrap_int z = z.
Proof.
  unfold wrap_int, INT_MIN, INT_MAX. intros Hz.
  rewrite Z.mod_small; lia.
Qed.

Lemma eff_index (rank size i : Z) :
  0 ≤ rank < size → size ≤ 2 ^ 30 → 0 ≤ i < size →
  int_rem (int_add rank i) size = Some ((rank + i) `mod` size).
Proof.
  intros Hr Hs Hi. unfold int_rem, int_add.
  rewrite wrap_int_id by (unfold INT_MIN, INT_MAX; lia).
  destruct (decide (size = 0)) as [->|Hne]; [lia|].
  f_equal. apply Z.rem_mod_nonneg; lia.
Qed.

Lemma eff_index_range (rank size i : Z) :
  0 ≤ rank < size → 0 ≤ i < size → 0 ≤ (rank + i) `mod` size < size.
Proof. intros Hr Hi. apply Z.mod_pos_bound. lia. Qed.

Lemma cyclic_order_eff (rank size : Z) :
  0 ≤ rank < size →
  (fun i => (rank + i) `mod` size) <$> seqZ 0 size = cyclic_order rank size.
Proof.
  intros Hr. unfold cyclic_order.
  assert (seqZ 0 size = seqZ 0 (size - rank) ++ seqZ (0 + (size - rank)) rank) as ->.
  { rewrite <- seqZ_app by lia. f_equal. lia. }
  rewrite fmap_app. f_equal.
  - apply list_eq. intros k. rewrite list_lookup_fmap.
    destruct (seqZ 0 (size - rank) !! k) as [x|] eqn:Hx; simpl.
    + apply lookup_seqZ in Hx as [-> Hk].
      rewrite lookup_seqZ_lt by lia. f_equal.
      rewrite Z.mod_small; lia.
    + symmetry. apply lookup_seqZ_ge.
      destruct (decide (size - rank ≤ Z.of_nat k)) as [?|Hlt]; [done|].
      rewrite lookup_seqZ_lt in Hx by lia. done.
  - apply list_eq. intros k. rewrite list_lookup_fmap.
    destruct (seqZ (0 + (size - rank)) rank !! k) as [x|] eqn:Hx; simpl.
    + apply lookup_seqZ in Hx as [-> Hk].
      rewrite lookup_seqZ_lt by lia. f_equal.
      replace (rank + (0 + (size - rank) + Z.of_nat k)) with (Z.of_nat k + 1 * size) by lia.
      rewrite Z.mod_add by lia. rewrite Z.mod_small; lia.
    + symmetry. apply lookup_seqZ_ge.
      destruct (decide (rank ≤ Z.of_nat k)) as [?|Hlt]; [done|].
      rewrite lookup_seqZ_lt in Hx by lia. done.
Qed.

Lemma cyclic_order_perm (rank size : Z) :
  0 ≤ rank < size → cyclic_order rank size ≡ₚ seqZ 0 size.
Proof.
  intros Hr. unfold cyclic_order.
  rewrite Permutation_app_comm.
  assert (seqZ 0 size = seqZ 0 rank ++ seqZ (0 + rank) (size - rank)) as ->.
  { rewrite <- seqZ_app by lia. f_equal. lia. }
  by rewrite Z.add_0_l.
Qed.

Lemma cyclic_order_head (rank size : Z) :
  0 ≤ rank < size → head (cyclic_order rank size) = Some rank.
Proof.
  intros Hr. unfold cyclic_order.
  rewrite (seqZ_cons rank (size - rank)) by lia. reflexivity.
Qed.

Lemma elem_of_cyclic_order (rank size j : Z) :
  0 ≤ rank < size → j ∈ cyclic_order rank size ↔ 0 ≤ j < size.
Proof.
  intros Hr. rewrite (cyclic_order_perm rank size Hr), elem_of_seqZ. lia.
Qed.

Lemma visited_eff {A : Type} `{Inhabited A} (hginfo : list A) (rank size : Z) :
  0 ≤ rank < size →
  (fun i => hginfo !!! Z.to_nat ((rank + i) `mod` size)) <$> seqZ 0 size
  = visited hginfo rank size.
Proof.
  intros Hr. unfold visited. rewrite <- cyclic_order_eff by done.
  by rewrite <- list_fmap_compose.
Qed.

Lemma visited_elem {A : Type} `{Inhabited A} (hginfo : list A) (rank size j : Z) :
  0 ≤ rank < size → 0 ≤ j < size →
  hginfo !!! Z.to_nat j ∈ visited hginfo rank size.
Proof.
  intros Hr Hj. unfold visited. apply list_elem_of_fmap. exists j.
  split; [done|]. by apply elem_of_cyclic_order.
Qed.

Lemma visited_Forall {A : Type} `{Inhabited A} (hginfo : list A) (rank size : Z)
    (P : A → Prop) :
  0 ≤ rank < size →
  (∀ j, 0 ≤ j < size → P (hginfo !!! Z.to_nat j)) →
  Forall P (visited hginfo rank size).
Proof.
  intros Hr HP. unfold visited. apply Forall_fmap, Forall_forall.
  intros j Hj. apply HP. by apply elem_of_cyclic_order in Hj.
Qed.

Lemma foldl_ext_in {A B : Type} (f g : B → A → B) (l : list A) (b : B) :
  (∀ b x, x ∈ l → f b x = g b x) → foldl f b l = foldl g b l.
Proof.
  revert b. induction l as [|x l IH]; intros b Hfg; simpl; [done|].
  rewrite Hfg by left. apply IH. intros b' y Hy. apply Hfg. by right.
Qed.

Lemma Forall_prefix {A : Type} (P : A → Prop) (l1 l2 : list A) :
  l1 `prefix_of` l2 → Forall P l2 → Forall P l1.
Proof. intros [k ->] Hall. by apply Forall_app in Hall as [? _]. Qed.

(** ** One resolution *)

Lemma hg_lookup_run (E : env) (ep : endpoint) (uri : string) (s : state) :
  hg_lookup E ep uri (stack_garbage E) s =
  (Ret (hg_lookup_result E ep uri).2,
   mk_state (nctx s) (trace s ++ (hg_lookup_result E ep uri).1)).
Proof.
  unfold hg_lookup, hg_lookup_result, hg_lookup_cb.
  destruct (malloc_ok E (A_lookup_out ep uri)); simpl.
  - rewrite run_bind, run_emit.
    destruct (lookup_cb_info E ep uri) as [h a]; simpl.
    repeat case_decide; simpl in *; try done; try congruence.
  - destruct s. by rewrite app_nil_r.
Qed.

Lemma hg_lookup_result_success (E : env) (ep : endpoint) (uri : string) :
  (hg_lookup_result E ep uri).2.1 = HG_SUCCESS →
  hg_lookup_result E ep uri
  = ([EvAddrLookup ep uri], (HG_SUCCESS, (lookup_cb_info E ep uri).2)).
Proof.
  unfold hg_lookup_result.
  destruct (malloc_ok E (A_lookup_out ep uri)); simpl; [|done].
  repeat case_decide; simpl; intros; congruence.
Qed.

Lemma resolution_success (E : env) (ep : endpoint) (self : bool) (pk : peer)
    (evs : list event) (a : hg_addr_t) :
  resolution E ep self pk = Some (evs, (HG_SUCCESS, a)) →
  evs = [resolution_event ep self pk] ∧ a = resolution_addr E ep self pk
  ∧ resolution_code E ep self pk = Some HG_SUCCESS.
Proof.
  unfold resolution_addr, resolution_code, resolution_event. intros Hres.
  rewrite Hres. simpl. split; [|done].
  unfold resolution in Hres. destruct self; [by simplify_eq|].
  destruct (peer_uri pk) as [uri|]; simpl in *; [|done].
  injection Hres as Hres.
  rewrite hg_lookup_result_success in Hres by (by rewrite Hres).
  by simplify_eq.
Qed.

Lemma resolution_events (E : env) (ep : endpoint) (self : bool) (pk : peer)
    (evs : list event) (r : hg_return_t * hg_addr_t) :
  resolution E ep self pk = Some (evs, r) →
  evs = [resolution_event ep self pk] ∨ evs = [].
Proof.
  unfold resolution, resolution_event. destruct self; [intros; simplify_eq; by left|].
  destruct (peer_uri pk) as [uri|]; simpl; [|done].
  unfold hg_lookup_result. destruct (malloc_ok E (A_lookup_out ep uri));
    intros; simplify_eq; auto.
Qed.

Lemma ctx_eta_gaddrs (c : nexus_ctx) : set_gaddrs (gaddrs c) c = c.
Proof. by destruct c. Qed.

(** The step of the remote loop is one step of [visit_peers]. *)
Lemma discover_remote_peer_run (E : env) (rank size : Z) (hginfo : list rdata_t)
    (i : Z) (p : rdata_t) (s : state) :
  0 ≤ rank < size → size ≤ 2 ^ 30 → 0 ≤ i < size →
  hginfo !! Z.to_nat ((rank + i) `mod` size) = Some p →
  discover_remote_peer E rank size hginfo i s =
  match resolution E EP_REMOTE (bool_decide (r_grank p = grank (nctx s))) (remote_peer p) with
  | None => (Stuck, s)
  | Some (evs, (hret, a)) =>
      if decide (hret = HG_SUCCESS)
      then (Ret tt, mk_state (set_gaddrs (<[r_grank p := a]> (gaddrs (nctx s))) (nctx s))
                             (trace s ++ evs))
      else (Abort "hg_lookup failed", mk_state (nctx s) (trace s ++ evs))
  end.
Proof.
  intros Hr Hs Hi Hp. unfold discover_remote_peer.
  rewrite run_bind, (eff_index rank size i) by done. simpl.
  pose proof (eff_index_range rank size i Hr Hi) as Hrange.
  rewrite run_bind. unfold array_get. rewrite decide_True by lia. rewrite Hp. simpl.
  rewrite run_bind. simpl. rewrite run_bind.
  unfold resolution. case_decide as Hself.
  - rewrite bool_decide_eq_true_2 by done.
    unfold addr_self. rewrite run_bind, run_emit. simpl.
    destruct (HG_Addr_self E EP_REMOTE) as [h a]; simpl.
    rewrite run_bind. destruct (decide (h = HG_SUCCESS)) as [->|Hne].
    + reflexivity.
    + rewrite bool_decide_eq_true_2 by done. reflexivity.
  - rewrite bool_decide_eq_false_2 by done.
    rewrite run_bind. simpl. destruct (c_str (r_addr p)) as [uri|]; simpl; [|done].
    rewrite hg_lookup_run.
    destruct (hg_lookup_result E EP_REMOTE uri) as [evs [h a]]; simpl.
    rewrite run_bind. destruct (decide (h = HG_SUCCESS)) as [->|Hne].
    + reflexivity.
    + rewrite bool_decide_eq_true_2 by done. reflexivity.
Qed.

Lemma discover_local_peer_run (E : env) (hginfo : list ldata_t)
    (i : Z) (p : ldata_t) (s : state) :
  0 ≤ lrank (nctx s) < lsize (nctx s) → lsize (nctx s) ≤ 2 ^ 30 →
  0 ≤ i < lsize (nctx s) →
  hginfo !! Z.to_nat ((lrank (nctx s) + i) `mod` lsize (nctx s)) = Some p →
  0 ≤ l_lrank p < Z.of_nat (length (localranks (nctx s))) →
  discover_local_peer E hginfo i s =
  match resolution E EP_LOCAL (bool_decide (l_grank p = grank (nctx s))) (local_peer p) with
  | None => (Stuck, s)
  | Some (evs, (hret, a)) =>
      let c := note_local_peer p (nctx s) in
      if decide (hret = HG_SUCCESS)
      then (Ret tt, mk_state (set_laddrs (<[l_grank p := a]> (laddrs c)) c) (trace s ++ evs))
      else (Abort "hg_lookup failed", mk_state c (trace s ++ evs))
  end.
Proof.
  intros Hr Hs Hi Hp Hlr. unfold discover_local_peer.
  rewrite run_bind. simpl.
  rewrite run_bind, (eff_index _ _ i) by done. simpl.
  pose proof (eff_index_range _ _ i Hr Hi) as Hrange.
  rewrite run_bind. unfold array_get. rewrite decide_True by lia. rewrite Hp. simpl.
  unfold note_local_peer, resolution, array_set.
  destruct s as [c tr]; simpl in *.
  assert (∀ c', grank c' = grank c → localranks c' = localranks c →
          (c0 ← get_ctx;
           lr ← from_option
                  (if decide (0 ≤ l_lrank p < Z.of_nat (length (localranks c0)))
                   then Some (<[Z.to_nat (l_lrank p) := l_grank p]> (localranks c0))
                   else None);
           modify_ctx (set_localranks lr);;
           c1 ← get_ctx;
           r ← (if decide (l_grank p = grank c1)
                then addr_self E EP_LOCAL
                else hg_lookup E EP_LOCAL (local_hgaddr (l_pid p) (l_hgid p))
                       (stack_garbage E));
           when_ (bool_decide (r.1 ≠ HG_SUCCESS)) (msg_abort "hg_lookup failed");;
           modify_ctx (fun c2 => set_laddrs (<[l_grank p := r.2]> (laddrs c2)) c2))
            (mk_state c' tr) =
          match (if bool_decide (l_grank p = grank c)
                 then Some ([EvAddrSelf EP_LOCAL], HG_Addr_self E EP_LOCAL)
                 else Some (hg_lookup_result E EP_LOCAL
                              (local_hgaddr (l_pid p) (l_hgid p)))) with
          | Some (evs, (hret, a)) =>
              let c'' := set_localranks
                           (<[Z.to_nat (l_lrank p) := l_grank p]> (localranks c)) c' in
              if decide (hret = HG_SUCCESS)
              then (Ret tt, mk_state (set_laddrs (<[l_grank p := a]> (laddrs c'')) c'')
                                     (tr ++ evs))
              else (Abort "hg_lookup failed", mk_state c'' (tr ++ evs))
          | None => (Stuck, mk_state c tr)
          end) as Hcont.
  { intros c' Hg Hl.
    rewrite run_bind; simpl. rewrite Hl, decide_True by done.
    rewrite run_bind; simpl. rewrite run_bind; simpl. rewrite run_bind; simpl.
    rewrite run_bind.
    replace (grank (set_localranks
              (<[Z.to_nat (l_lrank p) := l_grank p]> (localranks c)) c'))
      with (grank c) by (by destruct c').
    case_decide as Hself.
    - rewrite bool_decide_eq_true_2 by done.
      unfold addr_self. rewrite run_bind, run_emit. simpl.
      destruct (HG_Addr_self E EP_LOCAL) as [h a]; simpl.
      rewrite run_bind.
      destruct (decide (h = HG_SUCCESS)) as [->|Hne];
        [ reflexivity | rewrite bool_decide_eq_true_2 by done; reflexivity ].
    - rewrite bool_decide_eq_false_2 by done.
      rewrite hg_lookup_run.
      destruct (hg_lookup_result E EP_LOCAL _) as [evs [h a]]; simpl.
      rewrite run_bind.
      destruct (decide (h = HG_SUCCESS)) as [->|Hne];
        [ reflexivity | rewrite bool_decide_eq_true_2 by done; reflexivity ]. }
  rewrite run_bind.
  destruct (bool_decide (l_lrank p = 0)); simpl.
  - rewrite Hcont by (by destruct c).
    destruct (bool_decide (l_grank p = grank c)); simpl;
      repeat case_match; simplify_eq; by destruct c.
  - rewrite Hcont by done.
    destruct (bool_decide (l_grank p = grank c)); simpl;
      repeat case_match; simplify_eq; by destruct c.
Qed.

(** ** The loops *)

(** The remote loop over loop indices [idxs] runs [visit_peers] on the
    records at the effective indices. *)
Lemma remote_loop_run (E : env) (rank size : Z) (hginfo : list rdata_t)
    (idxs : list Z) (s : state) :
  0 ≤ rank < size → size ≤ 2 ^ 30 →
  Z.of_nat (length hginfo) = size →
  (∀ i, i ∈ idxs → 0 ≤ i < size) →
  for_each idxs (discover_remote_peer E rank size hginfo) s =
  let r := visit_peers E EP_REMOTE (grank (nctx s))
             (remote_peer <$>
                ((fun i => hginfo !!! Z.to_nat ((rank + i) `mod` size)) <$> idxs))
             (gaddrs (nctx s)) (trace s) in
  (r.1, mk_state (set_gaddrs r.2.1 (nctx s)) r.2.2).
Proof.
  intros Hr Hs Hlen. revert s.
  induction idxs as [|i idxs IH]; intros s Hidx; simpl.
  - rewrite ctx_eta_gaddrs. by destruct s.
  - assert (0 ≤ i < size) as Hi by (apply Hidx; left).
    pose proof (eff_index_range rank size i Hr Hi) as Hrange.
    destruct (lookup_lt_is_Some_2 hginfo (Z.to_nat ((rank + i) `mod` size)))
      as [p Hp]; [lia|].
    rewrite run_bind, (discover_remote_peer_run E rank size hginfo i p) by done.
    rewrite (list_lookup_total_correct _ _ _ Hp).
    change (peer_grank (remote_peer p)) with (r_grank p).
    destruct (resolution E EP_REMOTE _ (remote_peer p)) as [[evs [h a]]|]; simpl.
    + case_decide; simpl; [|by rewrite ctx_eta_gaddrs].
      rewrite IH by (intros; apply Hidx; by right). simpl.
      by destruct s as [[] ?].
    + rewrite ctx_eta_gaddrs. by destruct s.
Qed.

Lemma note_local_peer_frame (p : ldata_t) (c : nexus_ctx) :
  local_loop_frame c (note_local_peer p c)
  ∧ laddrs (note_local_peer p c) = laddrs c
  ∧ lroot (note_local_peer p c) = (if bool_decide (l_lrank p = 0) then l_grank p else lroot c).
Proof.
  unfold local_loop_frame, note_local_peer.
  destruct (bool_decide (l_lrank p = 0)), c; simpl; by rewrite length_insert.
Qed.

(** The local loop runs [visit_peers] on the records at the effective
    indices, and keeps the local root up to date. *)
Lemma local_loop_run (E : env) (hginfo : list ldata_t) (idxs : list Z)
    (s : state) (o : outcome unit) (s' : state) :
  0 ≤ lrank (nctx s) < lsize (nctx s) → lsize (nctx s) ≤ 2 ^ 30 →
  Z.of_nat (length hginfo) = lsize (nctx s) →
  Z.of_nat (length (localranks (nctx s))) = lsize (nctx s) →
  (∀ (j : nat) p, hginfo !! j = Some p → l_lrank p = Z.of_nat j) →
  (∀ i, i ∈ idxs → 0 ≤ i < lsize (nctx s)) →
  for_each idxs (discover_local_peer E hginfo) s = (o, s') →
  let ps := (fun i => hginfo !!! Z.to_nat ((lrank (nctx s) + i) `mod` lsize (nctx s)))
              <$> idxs in
  visit_peers E EP_LOCAL (grank (nctx s)) (local_peer <$> ps)
              (laddrs (nctx s)) (trace s)
  = (o, (laddrs (nctx s'), trace s'))
  ∧ local_loop_frame (nctx s) (nctx s')
  ∧ (o = Ret tt → lroot (nctx s') = local_root_after (lroot (nctx s)) ps).
Proof.
  revert s. induction idxs as [|i idxs IH]; intros s Hr Hs Hlen Hlr Hwf Hidx Hrun; simpl.
  - simpl in Hrun. injection Hrun as <- <-. by unfold local_loop_frame.
  - simpl in Hrun. rewrite run_bind in Hrun.
    assert (0 ≤ i < lsize (nctx s)) as Hi by (apply Hidx; left).
    pose proof (eff_index_range _ _ i Hr Hi) as Hrange.
    destruct (lookup_lt_is_Some_2 hginfo
                (Z.to_nat ((lrank (nctx s) + i) `mod` lsize (nctx s))))
      as [p Hp]; [lia|].
    pose proof (Hwf _ _ Hp) as Hpl.
    rewrite (discover_local_peer_run E hginfo i p) in Hrun by (done || lia).
    rewrite (list_lookup_total_correct _ _ _ Hp).
    change (peer_grank (local_peer p)) with (l_grank p).
    destruct (note_local_peer_frame p (nctx s))
      as ((Hg & Hgs & Hlrk & Hlsz & Hlen') & Hla & Hlro).
    revert Hrun Hg Hgs Hlrk Hlsz Hlen' Hla Hlro.
    generalize (note_local_peer p (nctx s)). intros c1 Hrun Hg Hgs Hlrk Hlsz Hlen' Hla Hlro.
    destruct (resolution E EP_LOCAL _ (local_peer p)) as [[evs [h a]]|];
      [|injection Hrun as <- <-; repeat split; intros [=]].
    cbv zeta in Hrun. case_decide as Hh.
    + apply IH in Hrun.
      * destruct Hrun as (Hv & Hfr' & Hroot).
        unfold local_loop_frame in *.
        destruct c1; simpl in *. subst.
        split; [exact Hv|]. split; [intuition congruence|].
        intros Ho. rewrite (Hroot Ho). reflexivity.
      * destruct c1; simpl in *. lia.
      * destruct c1; simpl in *. lia.
      * destruct c1; simpl in *. lia.
      * destruct c1; simpl in *. lia.
      * done.
      * intros i' Hi'. destruct c1; simpl in *. subst. apply Hidx. by right.
    + injection Hrun as <- <-. simpl. rewrite Hla.
      split; [done|]. split; [by unfold local_loop_frame|]. intros [=].
Qed.

(** ** Properties of [visit_peers] *)

(** A visit that returns has resolved every peer, in order, and has put
    every address in the table. *)
Lemma visit_peers_Ret (E : env) (ep : endpoint) (g : Z) (pks : list peer)
    (tbl : gmap Z hg_addr_t) (tr : list event) tbl' tr' :
  visit_peers E ep g pks tbl tr = (Ret tt, (tbl', tr')) →
  tr' = tr ++ ((fun pk => resolution_event ep (bool_decide (peer_grank pk = g)) pk) <$> pks)
  ∧ tbl' = foldl (fun m pk =>
                    <[peer_grank pk :=
                        resolution_addr E ep (bool_decide (peer_grank pk = g)) pk]> m)
                 tbl pks
  ∧ Forall (fun pk => resolution_code E ep (bool_decide (peer_grank pk = g)) pk
                      = Some HG_SUCCESS) pks.
Proof.
  revert tbl tr. induction pks as [|pk pks IH]; intros tbl tr Hrun; simpl in *.
  - simplify_eq. by rewrite app_nil_r.
  - destruct (resolution E ep _ pk) as [[evs [h a]]|] eqn:Hres; [|done].
    case_decide as Hh; [|done]. subst h.
    apply resolution_success in Hres as (-> & -> & Hcode).
    apply IH in Hrun as (-> & -> & Hall).
    rewrite <- app_assoc. split; [done|]. split; [done|]. by constructor.
Qed.

(** Whatever the outcome, a visit adds resolutions only, a prefix of those
    of its peers. *)
Lemma visit_peers_trace (E : env) (ep : endpoint) (g : Z) (pks : list peer)
    (tbl : gmap Z hg_addr_t) (tr : list event) o tbl' tr' :
  visit_peers E ep g pks tbl tr = (o, (tbl', tr')) →
  ∃ evs, tr' = tr ++ evs
         ∧ evs `prefix_of`
             ((fun pk => resolution_event ep (bool_decide (peer_grank pk = g)) pk) <$> pks).
Proof.
  revert tbl tr. induction pks as [|pk pks IH]; intros tbl tr Hrun; simpl in *.
  - simplify_eq. exists []. by rewrite app_nil_r.
  - destruct (resolution E ep _ pk) as [[evs [h a]]|] eqn:Hres.
    + case_decide as Hh.
      * subst h. apply resolution_success in Hres as (-> & -> & Hcode).
        apply IH in Hrun as (evs & -> & Hpre).
        exists (resolution_event ep (bool_decide (peer_grank pk = g)) pk :: evs).
        rewrite <- app_assoc. split; [done|]. by apply prefix_cons.
      * simplify_eq. exists evs. split; [done|].
        apply resolution_events in Hres as [->| ->].
        -- by apply prefix_cons, prefix_nil.
        -- apply prefix_nil.
    + simplify_eq. exists []. rewrite app_nil_r. split; [done|]. apply prefix_nil.
Qed.

(** A visit with a resolution that does not succeed aborts, when every
    peer has an address string. *)
Lemma visit_peers_fail (E : env) (ep : endpoint) (g : Z) (pks : list peer)
    (tbl : gmap Z hg_addr_t) (tr : list event) :
  Forall (fun pk => is_Some (resolution E ep (bool_decide (peer_grank pk = g)) pk)) pks →
  Exists (fun pk => resolution_code E ep (bool_decide (peer_grank pk = g)) pk
                    ≠ Some HG_SUCCESS) pks →
  ∃ st, visit_peers E ep g pks tbl tr = (Abort "hg_lookup failed", st).
Proof.
  intros Hall. revert tbl tr.
  induction Hall as [|pk pks [[evs [h a]] Hpk] Hall IH]; intros tbl tr Hex; simpl.
  - by apply Exists_nil in Hex.
  - rewrite Hpk.
    destruct (decide (h = HG_SUCCESS)) as [Hh|Hh]; [|eauto].
    apply Exists_cons in Hex as [Hbad|Hex]; [|by apply IH].
    unfold resolution_code in Hbad. rewrite Hpk in Hbad. simpl in Hbad. congruence.
Qed.

Lemma visit_peers_not_stuck (E : env) (ep : endpoint) (g : Z) (pks : list peer)
    (tbl : gmap Z hg_addr_t) (tr : list event) :
  Forall (fun pk => is_Some (peer_uri pk)) pks →
  (visit_peers E ep g pks tbl tr).1 ≠ Stuck.
Proof.
  intros Hall. revert tbl tr.
  induction Hall as [|pk pks [uri Huri] Hall IH]; intros tbl tr; simpl; [done|].
  unfold resolution. rewrite Huri. simpl.
  destruct (bool_decide (peer_grank pk = g)).
  - destruct (HG_Addr_self E ep) as [h a]. case_decide; [apply IH|done].
  - destruct (hg_lookup_result E ep uri) as [evs [h a]]. case_decide; [apply IH|done].
Qed.

Lemma visit_peers_table_keys (E : env) (ep : endpoint) (g : Z) (pks : list peer)
    (tbl : gmap Z hg_addr_t) (tr : list event) tbl' tr' :
  visit_peers E ep g pks tbl tr = (Ret tt, (tbl', tr')) →
  (∀ k, is_Some (tbl !! k) → is_Some (tbl' !! k))
  ∧ (∀ pk, pk ∈ pks → is_Some (tbl' !! peer_grank pk)).
Proof.
  revert tbl tr. induction pks as [|pk pks IH]; intros tbl tr Hrun; simpl in *.
  - simplify_eq. split; [done|]. intros pk Hpk. by apply elem_of_nil in Hpk.
  - destruct (resolution E ep _ pk) as [[evs [h a]]|] eqn:Hres; [|done].
    destruct (decide (h = HG_SUCCESS)) as [->|]; [|done].
    apply IH in Hrun as [Hmono Hkeys]. split.
    + intros k Hk. apply Hmono.
      destruct (decide (peer_grank pk = k)) as [->|Hne].
      * rewrite lookup_insert_eq. by eexists.
      * by rewrite lookup_insert_ne.
    + intros pk' [->|Hin]%elem_of_cons; [|by apply Hkeys].
      apply Hmono. rewrite lookup_insert_eq. by eexists.
Qed.

(** ** The runs of the two discoveries *)

(** One step of a run [H : (m ≫= k) s = (o, s')] whose first call cannot
    get stuck; [on_abort] closes the case where the call aborts. *)
Ltac mstep H on_abort :=
  lazymatch type of H with
  | (emit _ ≫= _) _ = _ => rewrite run_bind, run_emit in H
  | (modify_ctx _ ≫= _) _ = _ => rewrite run_bind in H; simpl in H
  | (get_ctx ≫= _) _ = _ => rewrite run_bind in H; simpl in H
  | (when_ ?b _ ≫= _) _ = _ =>
      rewrite run_bind in H;
      let Hc := fresh "Hc" in
      destruct b eqn:Hc; simpl in H; [solve [on_abort]|]
  end.

Ltac setup_abort H :=
  left; injection H as <- <-; eexists _, _; split; [done|]; simpl;
  rewrite <- ?app_assoc; split; [done|]; simpl;
  repeat apply prefix_cons; apply prefix_nil.

Lemma discover_local_info_cases (E : env) (s : state) (o : outcome unit) (s' : state) :
  local_group_ok E (grank (nctx s)) →
  discover_local_info E s = (o, s') →
  let g := grank (nctx s) in
  let ps := visited (local_hginfo E g) (MPI_Comm_rank E localcomm) (MPI_Comm_size E localcomm) in
  (∃ msg evs, o = Abort msg ∧ trace s' = trace s ++ evs
              ∧ evs `prefix_of` local_setup_events E)
  ∨ (∃ o' tr, visit_peers E EP_LOCAL g (local_peer <$> ps) (laddrs (nctx s))
                          (trace s ++ local_setup_events E)
              = (o', (laddrs (nctx s'), tr))
              ∧ grank (nctx s') = g
              ∧ ((o' = Ret tt ∧ o = Ret tt
                  ∧ trace s' = tr ++ teardown_events EP_LOCAL
                  ∧ lroot (nctx s') = local_root_after (lroot (nctx s)) ps)
                 ∨ (o' ≠ Ret tt ∧ o = o' ∧ trace s' = tr))).
Proof.
  intros [Hrank Hsize Hlen Hlrank Hgrank] Hrun g ps.
  unfold discover_local_info, local_setup_events in *.
  repeat mstep Hrun ltac:(setup_abort Hrun).
  rewrite run_bind in Hrun. unfold MPI_Allgather in Hrun.
  rewrite run_bind, run_emit in Hrun. rewrite decide_True in Hrun by (split; [lia|done]).
  simpl in Hrun.
  repeat mstep Hrun ltac:(setup_abort Hrun).
  rewrite run_bind in Hrun.
  destruct (for_upto _ _ _) as [o1 s1] eqn:Hloop.
  unfold for_upto in Hloop.
  apply local_loop_run in Hloop; simpl;
    [ | lia | lia | by rewrite length_insert
      | rewrite length_replicate; lia | exact Hlrank
      | by intros i Hi%elem_of_seqZ ].
  simpl in Hloop. destruct Hloop as (Hv & Hfr & Hroot).
  rewrite <- !app_assoc in Hv. simpl in Hv.
  rewrite visited_eff in Hv, Hroot by done.
  right. exists o1, (trace s1).
  destruct Hfr as (Hg1 & _). simpl in Hg1.
  destruct o1 as [[]| |].
  - repeat mstep Hrun idtac. rewrite run_emit in Hrun. injection Hrun as <- <-.
    simpl. split; [exact Hv|]. split; [done|]. left.
    rewrite <- !app_assoc. repeat split; try done. by apply Hroot.
  - injection Hrun as <- <-. split; [exact Hv|]. split; [done|]. by right.
  - injection Hrun as <- <-. split; [exact Hv|]. split; [done|]. by right.
Qed.

Lemma discover_remote_info_cases (E : env) (hgaddr : string) (s : state)
    (o : outcome unit) (s' : state) :
  rep_group_ok E (grank (nctx s)) →
  discover_remote_info E hgaddr s = (o, s') →
  let g := grank (nctx s) in
  let rdat := mk_rdata (strncpy hgaddr RDATA_ADDR_SIZE) g in
  let ps := visited (remote_hginfo E rdat) (MPI_Comm_rank E repcomm) (MPI_Comm_size E repcomm) in
  (∃ msg evs, o = Abort msg ∧ trace s' = trace s ++ evs
              ∧ evs `prefix_of` remote_setup_events hgaddr)
  ∨ (∃ o' tr, visit_peers E EP_REMOTE g (remote_peer <$> ps) (gaddrs (nctx s))
                          (trace s ++ remote_setup_events hgaddr)
              = (o', (gaddrs (nctx s'), tr))
              ∧ grank (nctx s') = g
              ∧ rankreps (nctx s')
                = <[Z.to_nat (MPI_Comm_rank E MPI_COMM_WORLD) := lroot (nctx s)]>
                    (world_sendbufs E)
              ∧ ((o' = Ret tt ∧ o = Ret tt
                  ∧ trace s' = tr ++ teardown_events EP_REMOTE)
                 ∨ (o' ≠ Ret tt ∧ o = o' ∧ trace s' = tr))).
Proof.
  intros [Hrank Hsize Hlen Hwrank Hwlen Hgrank Huri] Hrun g rdat ps.
  unfold discover_remote_info, remote_setup_events in *.
  repeat mstep Hrun ltac:(setup_abort Hrun).
  rewrite run_bind in Hrun. unfold MPI_Allgather at 1 in Hrun.
  rewrite run_bind, run_emit in Hrun. rewrite decide_True in Hrun by (split; [lia|done]).
  simpl in Hrun.
  repeat mstep Hrun ltac:(setup_abort Hrun).
  rewrite run_bind in Hrun. simpl in Hrun.
  repeat mstep Hrun ltac:(setup_abort Hrun).
  rewrite run_bind in Hrun. unfold MPI_Allgather at 1 in Hrun.
  rewrite run_bind, run_emit in Hrun. rewrite decide_True in Hrun by (split; [lia|done]).
  simpl in Hrun.
  rewrite run_bind in Hrun.
  unfold for_upto in Hrun.
  rewrite remote_loop_run in Hrun;
    [ | done | done | by rewrite length_insert | by intros i Hi%elem_of_seqZ ].
  simpl in Hrun. rewrite visited_eff in Hrun by done.
  rewrite <- !app_assoc in Hrun. simpl in Hrun.
  fold g in Hrun. fold rdat in Hrun.
  change (<[Z.to_nat (MPI_Comm_rank E repcomm) := rdat]> (rep_sendbufs E))
    with (remote_hginfo E rdat) in Hrun.
  fold ps in Hrun.
  destruct (visit_peers E EP_REMOTE g (remote_peer <$> ps) _ _) as [o1 [tbl tr]] eqn:Hv.
  right. exists o1, tr. simpl in Hrun.
  destruct o1 as [[]| |].
  - repeat mstep Hrun idtac. rewrite run_emit in Hrun. injection Hrun as <- <-.
    simpl. split; [done|]. split; [done|]. split; [done|]. left.
    rewrite <- !app_assoc. done.
  - injection Hrun as <- <-. simpl. split; [done|]. split; [done|]. split; [done|]. by right.
  - injection Hrun as <- <-. simpl. split; [done|]. split; [done|]. split; [done|]. by right.
Qed.

(** Once the buffer of the representative map is allocated, the remote
    discovery leaves in [rankreps] the all-gather of the [lroot]s over the
    whole group, whatever happens afterwards. *)
Lemma discover_remote_info_rankreps (E : env) (hgaddr : string) (s : state)
    (o : outcome unit) (s' : state) :
  rep_group_ok E (grank (nctx s)) →
  malloc_ok E A_rankreps = true →
  discover_remote_info E hgaddr s = (o, s') →
  rankreps (nctx s')
  = <[Z.to_nat (MPI_Comm_rank E MPI_COMM_WORLD) := lroot (nctx s)]> (world_sendbufs E).
Proof.
  intros [Hrank Hsize Hlen Hwrank Hwlen Hgrank Huri] Hmalloc Hrun.
  unfold discover_remote_info in Hrun.
  repeat mstep Hrun ltac:(by rewrite Hmalloc in *).
  rewrite run_bind in Hrun. unfold MPI_Allgather at 1 in Hrun.
  rewrite run_bind, run_emit in Hrun. rewrite decide_True in Hrun by (split; [lia|done]).
  simpl in Hrun.
  repeat mstep Hrun ltac:(by injection Hrun as <- <-).
  rewrite run_bind in Hrun. simpl in Hrun.
  repeat mstep Hrun ltac:(by injection Hrun as <- <-).
  rewrite run_bind in Hrun. unfold MPI_Allgather at 1 in Hrun.
  rewrite run_bind, run_emit in Hrun. rewrite decide_True in Hrun by (split; [lia|done]).
  simpl in Hrun.
  rewrite run_bind in Hrun.
  unfold for_upto in Hrun.
  rewrite remote_loop_run in Hrun;
    [ | done | done | by rewrite length_insert | by intros i Hi%elem_of_seqZ ].
  simpl in Hrun.
  destruct (visit_peers E EP_REMOTE _ _ _ _) as [[[]| |] [tbl tr]]; simpl in Hrun.
  - repeat mstep Hrun idtac. rewrite run_emit in Hrun. by injection Hrun as <- <-.
  - by injection Hrun as <- <-.
  - by injection Hrun as <- <-.
Qed.

(** ** The runs of [prepare_addr] and of bootstrap *)

Lemma scan_ifaddrs_run (subnet : string) (l : list ifaddr) (ip : string) (s : state) :
  ∃ o n, scan_ifaddrs subnet l ip s
         = (o, mk_state (nctx s) (trace s ++ replicate n EvGetnameinfo))
         ∧ o ≠ Stuck.
Proof.
  revert ip s. induction l as [|cur l IH]; intros ip s; simpl.
  - exists (Ret (false, ip)), 0%nat. simpl. rewrite app_nil_r. by destruct s.
  - destruct (ifa_addr cur) as [[family [gni_ret host]]|]; [|apply IH].
    case_decide; [|apply IH].
    rewrite run_bind, run_emit, run_bind.
    destruct (bool_decide (gni_ret = -1)); simpl.
    + exists (Abort "getnameinfo failed"), 1%nat. done.
    + destruct (String.prefix subnet host).
      * exists (Ret (true, host)), 1%nat. done.
      * destruct (IH host (mk_state (nctx s) (trace s ++ [EvGetnameinfo])))
          as (o & n & -> & Ho).
        exists o, (S n). simpl. by rewrite <- app_assoc.
Qed.

Lemma keeps_ctx_scan_ifaddrs (subnet : string) (l : list ifaddr) (ip : string) :
  keeps_ctx (scan_ifaddrs subnet l ip).
Proof.
  intros s o s' Hrun.
  destruct (scan_ifaddrs_run subnet l ip s) as (o1 & n & Heq & _).
  rewrite Heq in Hrun. by injection Hrun as <- <-.
Qed.

Lemma keeps_ctx_probe_ports (E : env) (fuel : nat) (port maxport size : Z) :
  keeps_ctx (probe_ports E fuel port maxport size).
Proof.
  revert port. induction fuel as [|fuel IH]; intros port; simpl.
  - apply keeps_ctx_stuck.
  - case_decide; [|apply keeps_ctx_ret].
    apply keeps_ctx_bind; [apply keeps_ctx_emit|]. intros _.
    case_decide; [|apply keeps_ctx_abort].
    apply keeps_ctx_bind; [apply keeps_ctx_emit|]. intros _.
    case_decide; [apply keeps_ctx_ret|apply IH].
Qed.

Lemma keeps_ctx_prepare_addr (E : env) (minport maxport : Z) (subnet proto : string) :
  keeps_ctx (prepare_addr E minport maxport subnet proto).
Proof.
  unfold prepare_addr.
  repeat first
    [ apply keeps_ctx_bind; [|intros ?]
    | apply keeps_ctx_emit
    | apply keeps_ctx_when
    | apply keeps_ctx_abort
    | apply keeps_ctx_ret
    | apply keeps_ctx_stuck
    | apply keeps_ctx_scan_ifaddrs
    | apply keeps_ctx_probe_ports
    | progress unfold from_option
    | case_match ].
Qed.

(** [prepare_addr] refuses a bad port range after the scan of the
    interfaces and before it probes any port. *)
(** The fuel [prepare_addr] gives to the probe loop is enough: with a
    group of at least one process the loop ends by itself. *)
Lemma probe_ports_fuel (E : env) (port maxport size : Z) (s : state) :
  1 ≤ size ≤ 2 ^ 30 → INT_MIN ≤ port → maxport ≤ 65535 →
  (probe_ports E (S (Z.to_nat (maxport - port + 1))) port maxport size s).1 ≠ Stuck.
Proof.
  intros Hsize Hport Hmax.
  assert (∀ fuel port s, INT_MIN ≤ port →
                         (Z.to_nat (maxport - port + 1) < fuel)%nat →
                         (probe_ports E fuel port maxport size s).1 ≠ Stuck) as Hgen.
  { clear port s Hport. induction fuel as [|fuel IH]; intros port s Hport Hfuel; [lia|].
    simpl. case_decide as Hle; [|done].
    rewrite run_bind, run_emit. case_decide; [|done].
    rewrite run_bind, run_emit. case_decide; [done|].
    unfold int_add. unfold INT_MIN in Hport.
    rewrite wrap_int_id by (unfold INT_MIN, INT_MAX; lia).
    apply IH; unfold INT_MIN; lia. }
  apply Hgen; [done|lia].
Qed.

Lemma prepare_addr_rejects_bad_range (E : env) (minport maxport : Z)
    (subnet proto : string) (s : state) :
  INT_MIN ≤ maxport - minport →
  bad_port_range minport maxport →
  ∃ msg n, prepare_addr E minport maxport subnet proto s
           = (Abort msg,
              mk_state (nctx s) (trace s ++ EvGetifaddrs :: replicate n EvGetnameinfo)).
Proof.
  intros Hsub Hbad. unfold prepare_addr.
  rewrite run_bind, run_emit, run_bind.
  destruct (getifaddrs E) as [l|]; simpl; [|by exists "getifaddrs failed", 0%nat].
  rewrite run_bind.
  destruct (scan_ifaddrs_run subnet l (ip_garbage E)
              (mk_state (nctx s) (trace s ++ [EvGetifaddrs]))) as (o & n & -> & Ho).
  simpl. rewrite <- app_assoc. simpl.
  destruct o as [[found ip]|msg|]; [|by exists msg, n|done].
  rewrite run_bind. destruct found; simpl; [|by exists "no ip addr", n].
  rewrite run_bind.
  case_bool_decide as H1; simpl; [by exists "bad min-max port", n|].
  rewrite run_bind.
  case_bool_decide as H2; simpl; [by exists "bad min port", n|].
  rewrite run_bind.
  case_bool_decide as H3; simpl; [by exists "bad max port", n|].
  exfalso. unfold bad_port_range in Hbad. unfold int_sub in H1.
  destruct (decide (maxport - minport ≤ INT_MAX)) as [Hle|Hgt].
  - rewrite wrap_int_id in H1 by lia. lia.
  - unfold INT_MAX in Hgt. lia.
Qed.

(** A bootstrap that returns has run the local discovery to its end, and
    has entered the remote discovery with the context the local discovery
    left. *)
Lemma bootstrap_returns_inv (E : env) (minport maxport : Z) (subnet proto : string)
    (s : state) (r : nexus_ret_t) (s' : state) :
  nexus_bootstrap E minport maxport subnet proto s = (Ret r, s') →
  ∃ s1 hgaddr s3,
    discover_local_info E (local_discovery_entry E s) = (Ret tt, s1)
    ∧ nctx s3 = nctx s1
    ∧ discover_remote_info E hgaddr s3 = (Ret tt, s').
Proof.
  intros Hrun. unfold nexus_bootstrap in Hrun.
  do 2 (rewrite run_bind, run_emit, run_bind in Hrun; simpl in Hrun).
  rewrite run_bind in Hrun. unfold init_local_comm in Hrun.
  rewrite run_bind, run_emit in Hrun.
  destruct (init_local_comm_ok E); simpl in Hrun; [|done].
  rewrite <- !app_assoc in Hrun. simpl in Hrun.
  rewrite run_bind in Hrun. fold (local_discovery_entry E s) in Hrun.
  destruct (discover_local_info E (local_discovery_entry E s)) as [[[]| |] s1];
    [|done|done].
  rewrite run_bind in Hrun.
  destruct (prepare_addr E minport maxport subnet proto s1) as [[hgaddr| |] s2] eqn:Hprep;
    [|done|done].
  apply keeps_ctx_prepare_addr in Hprep.
  rewrite run_bind in Hrun. unfold init_rep_comm in Hrun.
  rewrite run_bind, run_emit in Hrun.
  destruct (init_rep_comm_ok E); simpl in Hrun; [|done].
  rewrite run_bind in Hrun.
  destruct (discover_remote_info E hgaddr _) as [[[]| |] s4] eqn:Hremote;
    [|done|done].
  injection Hrun as <- <-.
  eexists s1, hgaddr, _. split; [done|]. split; [|exact Hremote]. done.
Qed.

(** ** Who is the caller among the gathered records *)

Lemma local_self_iff (E : env) (g j : Z) :
  local_group_ok E g →
  0 ≤ j < MPI_Comm_size E localcomm →
  bool_decide (l_grank (local_hginfo E g !!! Z.to_nat j) = g)
  = bool_decide (j = MPI_Comm_rank E localcomm).
Proof.
  intros [Hrank Hsize Hlen Hlrank Hgrank] Hj.
  destruct (lookup_lt_is_Some_2 (local_hginfo E g) (Z.to_nat j)) as [p Hp].
  { unfold local_hginfo. rewrite length_insert. lia. }
  rewrite (list_lookup_total_correct _ _ _ Hp).
  apply bool_decide_ext. rewrite (Hgrank _ _ Hp). lia.
Qed.

Lemma remote_self_iff (E : env) (g j : Z) (addr : list ascii) :
  rep_group_ok E g →
  0 ≤ j < MPI_Comm_size E repcomm →
  bool_decide (r_grank (remote_hginfo E (mk_rdata addr g) !!! Z.to_nat j) = g)
  = bool_decide (j = MPI_Comm_rank E repcomm).
Proof.
  intros [Hrank Hsize Hlen Hwrank Hwlen Hgrank Huri] Hj.
  unfold remote_hginfo. apply bool_decide_ext.
  destruct (decide (j = MPI_Comm_rank E repcomm)) as [->|Hne].
  - rewrite list_lookup_total_insert_eq by lia. done.
  - rewrite list_lookup_total_insert_ne by lia.
    destruct (lookup_lt_is_Some_2 (rep_sendbufs E) (Z.to_nat j)) as [p Hp]; [lia|].
    rewrite (list_lookup_total_correct _ _ _ Hp).
    split; [|done]. intros Hg. exfalso. apply (Hgrank _ _ Hp); [lia|done].
Qed.

Lemma remote_resolution_is_Some (E : env) (g j : Z) (addr : list ascii) :
  rep_group_ok E g →
  0 ≤ j < MPI_Comm_size E repcomm →
  let pk := remote_peer (remote_hginfo E (mk_rdata addr g) !!! Z.to_nat j) in
  is_Some (resolution E EP_REMOTE (bool_decide (peer_grank pk = g)) pk).
Proof.
  intros Hok Hj pk. unfold pk. simpl.
  rewrite (remote_self_iff E g j addr Hok Hj).
  destruct Hok as [Hrank Hsize Hlen Hwrank Hwlen Hgrank Huri].
  unfold resolution. case_bool_decide as Hself; [by eexists|].
  unfold remote_hginfo. rewrite list_lookup_total_insert_ne by lia.
  destruct (lookup_lt_is_Some_2 (rep_sendbufs E) (Z.to_nat j)) as [p Hp]; [lia|].
  rewrite (list_lookup_total_correct _ _ _ Hp). simpl.
  unfold c_str. rewrite decide_True by (apply (Huri _ _ Hp); lia).
  by eexists.
Qed.

(** ** The test topology is well formed *)

Lemma test_local_group_ok (g : Z) : 0 ≤ g < 4 → local_group_ok (test_env g) g.
Proof.
  intros Hg. assert (g = 0 ∨ g = 1 ∨ g = 2 ∨ g = 3) as [->|[->|[->| ->]]] by lia;
    (split; [by vm_compute|by vm_compute|by vm_compute| |]);
    intros [|[|j]] p Hp; vm_compute in Hp; simplify_eq; by vm_compute.
Qed.

Lemma test_rep_group_ok (g : Z) : 0 ≤ g < 4 → rep_group_ok (test_env g) g.
Proof.
  intros Hg. assert (g = 0 ∨ g = 1 ∨ g = 2 ∨ g = 3) as [->|[->|[->| ->]]] by lia;
    (split; [by vm_compute|by vm_compute|by vm_compute|by vm_compute|by vm_compute| |]);
    intros [|[|j]] p Hp Hj; vm_compute in Hp, Hj; simplify_eq;
    try (apply (bool_decide_unpack _)); by vm_compute.
Qed.

Lemma rank0_local_group_ok : local_group_ok rank0_env 0.
Proof. by apply test_local_group_ok. Qed.

Lemma rank1_local_group_ok : local_group_ok rank1_env 1.
Proof. by apply test_local_group_ok. Qed.

Lemma rank0_rep_group_ok : rep_group_ok rank0_env 0.
Proof. by apply test_rep_group_ok. Qed.

Lemma rank0_env_unreachable_group_ok : rep_group_ok rank0_env_unreachable 0.
Proof. destruct rank0_rep_group_ok. by split. Qed.

Lemma test_world_ok : world_ok test_world.
Proof.
  split; simpl.
  - intros g Hg.
    assert (g = 0 ∨ g = 1 ∨ g = 2 ∨ g = 3) as [->|[->|[->| ->]]] by lia; by vm_compute.
  - apply test_local_group_ok.
  - intros g g' Hg Hg'.
    assert (g = 0 ∨ g = 1 ∨ g = 2 ∨ g = 3) as [->|[->|[->| ->]]] by lia;
      vm_compute in Hg'; apply list_elem_of_In in Hg'; simpl in Hg';
      destruct Hg' as [<-|[<-|[]]]; by vm_compute.
  - intros g Hg.
    assert (g = 0 ∨ g = 1 ∨ g = 2 ∨ g = 3) as [->|[->|[->| ->]]] by lia; by vm_compute.
  - intros g r Hg Hr.
    assert (g = 0 ∨ g = 1 ∨ g = 2 ∨ g = 3) as [->|[->|[->| ->]]] by lia;
      (assert (r = 0 ∨ r = 1 ∨ r = 2 ∨ r = 3) as [->|[->|[->| ->]]] by lia);
      by vm_compute.
Qed.

(** ** C1: the order of the visit, the resolutions, the insertions *)

Lemma visit_events_by_index {A : Type} `{Inhabited A} (ep : endpoint) (g rank size : Z)
    (hginfo : list A) (pk : A → peer) :
  0 ≤ rank < size →
  (∀ j, 0 ≤ j < size →
        bool_decide (peer_grank (pk (hginfo !!! Z.to_nat j)) = g) = bool_decide (j = rank)) →
  (fun p => resolution_event ep (bool_decide (peer_grank p = g)) p)
    <$> (pk <$> visited hginfo rank size)
  = (fun j => resolution_event ep (bool_decide (j = rank)) (pk (hginfo !!! Z.to_nat j)))
    <$> cyclic_order rank size.
Proof.
  intros Hr Hself. unfold visited. rewrite <- !list_fmap_compose.
  apply list_fmap_ext. intros i j Hj%list_elem_of_lookup_2. simpl.
  rewrite Hself; [done|]. by apply elem_of_cyclic_order in Hj.
Qed.

Lemma visit_table_by_index {A : Type} `{Inhabited A} (E : env) (ep : endpoint)
    (g rank size : Z) (hginfo : list A) (pk : A → peer) (tbl : gmap Z hg_addr_t) :
  0 ≤ rank < size →
  (∀ j, 0 ≤ j < size →
        bool_decide (peer_grank (pk (hginfo !!! Z.to_nat j)) = g) = bool_decide (j = rank)) →
  foldl (fun m p => <[peer_grank p :=
                        resolution_addr E ep (bool_decide (peer_grank p = g)) p]> m)
        tbl (pk <$> visited hginfo rank size)
  = foldl (fun m j => <[peer_grank (pk (hginfo !!! Z.to_nat j)) :=
                          resolution_addr E ep (bool_decide (j = rank))
                            (pk (hginfo !!! Z.to_nat j))]> m)
          tbl (cyclic_order rank size).
Proof.
  intros Hr Hself. unfold visited. rewrite !foldl_fmap.
  apply foldl_ext_in. intros m j Hj. simpl.
  rewrite Hself; [done|]. by apply elem_of_cyclic_order in Hj.
Qed.

(** C1. A discovery that completes has visited the peers of its group by
    index in cyclic order from the caller's own rank, each index once; its
    trace is the setup, then one resolution per peer in that order (a
    self-address query at the caller's own index, the Lookup Adapter on the
    peer's address string at every other), then the teardown; and its
    routing table is the one at entry with the resulting address of every
    peer inserted under the peer's global rank. *)
Theorem discovery_visits_peers_in_cyclic_order :
  (∀ (E : env) (s s' : state),
     local_group_ok E (grank (nctx s)) →
     discover_local_info E s = (Ret tt, s') →
     let rank := MPI_Comm_rank E localcomm in
     let size := MPI_Comm_size E localcomm in
     let pk j := local_peer (local_hginfo E (grank (nctx s)) !!! Z.to_nat j) in
     head (cyclic_order rank size) = Some rank
     ∧ cyclic_order rank size ≡ₚ seqZ 0 size
     ∧ trace s' = trace s ++ local_setup_events E
                  ++ ((fun j => if bool_decide (j = rank) then EvAddrSelf EP_LOCAL
                                else EvAddrLookup EP_LOCAL (default "" (peer_uri (pk j))))
                        <$> cyclic_order rank size)
                  ++ teardown_events EP_LOCAL
     ∧ laddrs (nctx s')
       = foldl (fun m j => <[peer_grank (pk j) :=
                               resolution_addr E EP_LOCAL (bool_decide (j = rank)) (pk j)]> m)
               (laddrs (nctx s)) (cyclic_order rank size))
  ∧ (∀ (E : env) (hgaddr : string) (s s' : state),
       rep_group_ok E (grank (nctx s)) →
       discover_remote_info E hgaddr s = (Ret tt, s') →
       let rank := MPI_Comm_rank E repcomm in
       let size := MPI_Comm_size E repcomm in
       let rdat := mk_rdata (strncpy hgaddr RDATA_ADDR_SIZE) (grank (nctx s)) in
       let pk j := remote_peer (remote_hginfo E rdat !!! Z.to_nat j) in
       head (cyclic_order rank size) = Some rank
       ∧ cyclic_order rank size ≡ₚ seqZ 0 size
       ∧ trace s' = trace s ++ remote_setup_events hgaddr
                    ++ ((fun j => if bool_decide (j = rank) then EvAddrSelf EP_REMOTE
                                  else EvAddrLookup EP_REMOTE (default "" (peer_uri (pk j))))
                          <$> cyclic_order rank size)
                    ++ teardown_events EP_REMOTE
       ∧ gaddrs (nctx s')
         = foldl (fun m j => <[peer_grank (pk j) :=
                                 resolution_addr E EP_REMOTE (bool_decide (j = rank)) (pk j)]> m)
                 (gaddrs (nctx s)) (cyclic_order rank size)).
Proof.
  split.
  - intros E s s' Hok Hrun rank size pk.
    pose proof (lg_rank _ _ Hok) as Hrank.
    split; [by apply cyclic_order_head|]. split; [by apply cyclic_order_perm|].
    destruct (discover_local_info_cases E s _ s' Hok Hrun)
      as [(msg & evs & [=] & _)|(o' & tr & Hv & _ & [(-> & _ & Htr & _)|(Hne & <- & _)])];
      [|done].
    apply visit_peers_Ret in Hv as (-> & Htbl & _).
    rewrite (visit_events_by_index EP_LOCAL _ rank size) in Htr
      by (done || intros; by apply local_self_iff).
    rewrite (visit_table_by_index E EP_LOCAL _ rank size) in Htbl
      by (done || intros; by apply local_self_iff).
    split; [|exact Htbl].
    rewrite Htr, <- !app_assoc. done.
  - intros E hgaddr s s' Hok Hrun rank size rdat pk.
    pose proof (rg_rank _ _ Hok) as Hrank.
    split; [by apply cyclic_order_head|]. split; [by apply cyclic_order_perm|].
    destruct (discover_remote_info_cases E hgaddr s _ s' Hok Hrun)
      as [(msg & evs & [=] & _)|(o' & tr & Hv & _ & _ & [(-> & _ & Htr)|(Hne & <- & _)])];
      [|done].
    apply visit_peers_Ret in Hv as (-> & Htbl & _).
    rewrite (visit_events_by_index EP_REMOTE _ rank size) in Htr
      by (done || intros; by apply remote_self_iff).
    rewrite (visit_table_by_index E EP_REMOTE _ rank size) in Htbl
      by (done || intros; by apply remote_self_iff).
    split; [|exact Htbl].
    rewrite Htr, <- !app_assoc. done.
Qed.

Lemma discovery_visits_peers_in_cyclic_order_witness :
  (trace rank0_after_local
   = local_setup_events rank0_env
     ++ [EvAddrSelf EP_LOCAL; EvAddrLookup EP_LOCAL "na+sm://101/0"]
     ++ teardown_events EP_LOCAL
   ∧ laddrs (nctx rank0_after_local) = <[1 := 1001]> (<[0 := 1000]> ∅))
  ∧ (trace rank0_after_remote
     = remote_setup_events "tcp://10.0.0.1:5000"
       ++ [EvAddrSelf EP_REMOTE; EvAddrLookup EP_REMOTE node_b_uri]
       ++ teardown_events EP_REMOTE
     ∧ gaddrs (nctx rank0_after_remote) = <[2 := 2002]> (<[0 := 2000]> ∅)).
Proof.
  destruct discovery_visits_peers_in_cyclic_order as [Hlocal Hremote].
  split.
  - assert (discover_local_info rank0_env fresh_state = (Ret tt, rank0_after_local))
      as Hrun by (vm_compute; reflexivity).
    destruct (Hlocal rank0_env fresh_state rank0_after_local
                rank0_local_group_ok Hrun) as (_ & _ & Htr & Htbl).
    split; [exact Htr|exact Htbl].
  - assert (discover_remote_info rank0_env "tcp://10.0.0.1:5000" rank0_before_remote
            = (Ret tt, rank0_after_remote)) as Hrun by (vm_compute; reflexivity).
    destruct (Hremote rank0_env "tcp://10.0.0.1:5000" rank0_before_remote
                rank0_after_remote rank0_rep_group_ok Hrun) as (_ & _ & Htr & Htbl).
    split; [exact Htr|exact Htbl].
Defined.

(** ** C2: the representative map *)

Lemma local_root_after_spec (v r0 : Z) (ps : list ldata_t) :
  (∀ p, p ∈ ps → l_lrank p = 0 → l_grank p = v) →
  (∃ p, p ∈ ps ∧ l_lrank p = 0) ∨ r0 = v →
  local_root_after r0 ps = v.
Proof.
  unfold local_root_after. revert r0.
  induction ps as [|p ps IH]; intros r0 Hsame Hex; simpl.
  - destruct Hex as [(p & Hp & _)|Hr]; [by apply elem_of_nil in Hp|done].
  - apply IH.
    + intros q Hq. apply Hsame. by right.
    + case_bool_decide as Hp0.
      * right. apply Hsame; [by left|done].
      * destruct Hex as [(q & [->|Hq]%elem_of_cons & Hq0)|Hr]; [done| |by right].
        left. by exists q.
Qed.

(** The local root a well-formed local group derives is the global rank
    of the member of local rank 0. *)
Lemma local_root_is_rank0 (E : env) (g r0 : Z) :
  local_group_ok E g →
  node_of E g !! 0%nat
  = Some (local_root_after r0 (visited (local_hginfo E g) (MPI_Comm_rank E localcomm)
                                        (MPI_Comm_size E localcomm))).
Proof.
  intros Hok. pose proof Hok as [Hrank Hsize Hlen Hlrank Hgrank].
  destruct (lookup_lt_is_Some_2 (local_hginfo E g) 0) as [p0 Hp0].
  { unfold local_hginfo. rewrite length_insert. lia. }
  unfold node_of. rewrite list_lookup_fmap, Hp0. simpl. f_equal. symmetry.
  apply local_root_after_spec.
  - intros p Hp Hl. unfold visited in Hp.
    apply list_elem_of_fmap in Hp as (j & -> & Hj%elem_of_cyclic_order); [|done].
    destruct (lookup_lt_is_Some_2 (local_hginfo E g) (Z.to_nat j)) as [p Hp].
    { unfold local_hginfo. rewrite length_insert. lia. }
    rewrite (list_lookup_total_correct _ _ _ Hp) in Hl |- *.
    rewrite (Hlrank _ _ Hp) in Hl. assert (Z.to_nat j = 0%nat) as Hj0 by lia.
    rewrite Hj0 in Hp. congruence.
  - left. exists p0. split.
    + rewrite <- (list_lookup_total_correct _ _ _ Hp0).
      apply (visited_elem _ _ _ 0); lia.
    + by rewrite (Hlrank _ _ Hp0).
Qed.

(** C2. In a well-formed run of the group, every member of a local group
    leaves its local discovery with the same [lroot], the global rank of
    the member of local rank 0.  The remote discovery, entered with the
    context the local discovery left, leaves in [rankreps] one entry per
    global rank, as many as the group has members, the entry of rank [r]
    being the [lroot] that [r] derived: from the all-gather on, whatever
    the outcome of the discovery, and so at the return of bootstrap. *)
Theorem representative_map_is_complete (W : world) (g : Z) :
  world_ok W →
  0 ≤ g < w_size W →
  let complete (reps : list Z) :=
    Z.of_nat (length reps) = w_size W
    ∧ ∀ r, 0 ≤ r < w_size W → reps !! Z.to_nat r = Some (lroot (nctx (w_exit W r))) in
  node_of (w_env W g) g !! 0%nat = Some (lroot (nctx (w_exit W g)))
  ∧ (∀ g', g' ∈ node_of (w_env W g) g →
           lroot (nctx (w_exit W g')) = lroot (nctx (w_exit W g)))
  ∧ (∀ (hgaddr : string) (s : state) (o : outcome unit) (s' : state),
       nctx s = nctx (w_exit W g) →
       rep_group_ok (w_env W g) g →
       malloc_ok (w_env W g) A_rankreps = true →
       discover_remote_info (w_env W g) hgaddr s = (o, s') →
       complete (rankreps (nctx s')))
  ∧ (∀ (minport maxport : Z) (subnet proto : string) (s : state)
       (r : nexus_ret_t) (s' : state),
       local_discovery_entry (w_env W g) s = w_enter W g →
       rep_group_ok (w_env W g) g →
       nexus_bootstrap (w_env W g) minport maxport subnet proto s = (Ret r, s') →
       complete (rankreps (nctx s'))).
Proof.
  intros [Hwrank Hlocal Hnode Hrun Hgather] Hg complete.
  assert (∀ r, 0 ≤ r < w_size W →
               node_of (w_env W r) r !! 0%nat = Some (lroot (nctx (w_exit W r)))
               ∧ grank (nctx (w_exit W r)) = r) as Hroot.
  { intros r Hr. destruct (Hwrank r Hr) as (_ & _ & Henter).
    assert (local_group_ok (w_env W r) (grank (nctx (w_enter W r)))) as Hok
      by (rewrite Henter; by apply Hlocal).
    destruct (discover_local_info_cases _ _ _ _ Hok (Hrun r Hr))
      as [(msg & evs & [=] & _)|(o' & tr & _ & Hgr & [(_ & _ & _ & Hlr)|(Hne & <- & _)])];
      [|done].
    rewrite Henter in *. rewrite Hlr. split; [|done].
    by apply local_root_is_rank0. }
  assert (∀ s, nctx s = nctx (w_exit W g) →
               complete (<[Z.to_nat (MPI_Comm_rank (w_env W g) MPI_COMM_WORLD) :=
                             lroot (nctx s)]> (world_sendbufs (w_env W g)))) as Hreps.
  { intros s Hs. destruct (Hwrank g Hg) as (-> & _ & _). split.
    - rewrite length_insert. by destruct (Hgather g g Hg Hg).
    - intros r Hr. destruct (Hgather g r Hg Hr) as [Hlen Hsend].
      destruct (decide (r = g)) as [->|Hne].
      + rewrite list_lookup_insert_eq by lia. by rewrite Hs.
      + rewrite list_lookup_insert_ne by lia. done. }
  assert (∀ hgaddr s o s',
            nctx s = nctx (w_exit W g) → rep_group_ok (w_env W g) g →
            malloc_ok (w_env W g) A_rankreps = true →
            discover_remote_info (w_env W g) hgaddr s = (o, s') →
            complete (rankreps (nctx s'))) as Hremote.
  { intros hgaddr s o s' Hs Hok Hmalloc Hremote.
    destruct (Hroot g Hg) as [_ Hgr]. rewrite <- Hs in Hgr.
    assert (rep_group_ok (w_env W g) (grank (nctx s))) as Hok' by (by rewrite Hgr).
    rewrite (discover_remote_info_rankreps _ _ _ _ _ Hok' Hmalloc Hremote).
    by apply Hreps. }
  split; [by apply Hroot|]. split; [|split; [exact Hremote|]].
  - intros g' Hg'. destruct (Hnode g g' Hg Hg') as [Hr' Heq].
    destruct (Hroot g Hg) as [H0 _]. destruct (Hroot g' Hr') as [H0' _].
    rewrite Heq in H0'. congruence.
  - intros minport maxport subnet proto s r s' Henter Hok Hboot.
    apply bootstrap_returns_inv in Hboot as (s1 & hgaddr & s3 & Hl & Hctx & Hr).
    rewrite Henter, (Hrun g Hg) in Hl. injection Hl as <-.
    destruct (Hroot g Hg) as [_ Hgr]. rewrite <- Hctx in Hgr.
    assert (rep_group_ok (w_env W g) (grank (nctx s3))) as Hok' by (by rewrite Hgr).
    destruct (discover_remote_info_cases _ _ _ _ _ Hok' Hr)
      as [(msg & evs & [=] & _)|(o' & tr & _ & _ & -> & _)].
    by apply Hreps.
Qed.

Lemma representative_map_is_complete_witness :
  rankreps (nctx rank0_after_bootstrap) !! 3%nat = Some 2
  ∧ rankreps (nctx (discover_remote_info rank0_env "tcp://10.0.0.1:5000"
                      (w_exit test_world 0)).2) !! 1%nat = Some 0
  ∧ lroot (nctx (w_exit test_world 1)) = lroot (nctx (w_exit test_world 0)).
Proof.
  destruct (representative_map_is_complete test_world 0 test_world_ok)
    as (_ & Hsame & Hremote & Hboot); [simpl; lia|].
  split; [|split].
  - destruct (Hboot 5000 5010 "10.0" "tcp" fresh_state NX_SUCCESS rank0_after_bootstrap)
      as [_ Hentry]; [done|exact rank0_rep_group_ok|by vm_compute|].
    change 3%nat with (Z.to_nat 3).
    rewrite (Hentry 3) by (simpl; lia). by vm_compute.
  - destruct (Hremote "tcp://10.0.0.1:5000" (w_exit test_world 0) (Ret tt)
                (discover_remote_info rank0_env "tcp://10.0.0.1:5000"
                   (w_exit test_world 0)).2)
      as [_ Hentry]; [done|exact rank0_rep_group_ok|done|by vm_compute|].
    change 1%nat with (Z.to_nat 1).
    rewrite (Hentry 1) by (simpl; lia). by vm_compute.
  - apply Hsame. apply (bool_decide_unpack _). by vm_compute.
Defined.

(** ** C3: a resolution that fails is fatal *)

(** C3. In a well-formed group, when the resolution of some peer (the
    self-address query for the caller, the Lookup Adapter for another
    member) answers anything but success, the discovery aborts the process;
    and a discovery that returns has resolved every peer with success and
    left an entry for every peer's global rank in its routing table. *)
Theorem resolution_failure_is_fatal :
  (∀ (E : env) (s : state),
     local_group_ok E (grank (nctx s)) →
     let rank := MPI_Comm_rank E localcomm in
     let size := MPI_Comm_size E localcomm in
     let pk j := local_peer (local_hginfo E (grank (nctx s)) !!! Z.to_nat j) in
     ((∃ j, 0 ≤ j < size
            ∧ resolution_code E EP_LOCAL (bool_decide (j = rank)) (pk j) ≠ Some HG_SUCCESS) →
      ∃ msg s', discover_local_info E s = (Abort msg, s'))
     ∧ (∀ s', discover_local_info E s = (Ret tt, s') →
              ∀ j, 0 ≤ j < size →
                   resolution_code E EP_LOCAL (bool_decide (j = rank)) (pk j)
                   = Some HG_SUCCESS
                   ∧ is_Some (laddrs (nctx s') !! peer_grank (pk j))))
  ∧ (∀ (E : env) (hgaddr : string) (s : state),
       rep_group_ok E (grank (nctx s)) →
       let rank := MPI_Comm_rank E repcomm in
       let size := MPI_Comm_size E repcomm in
       let rdat := mk_rdata (strncpy hgaddr RDATA_ADDR_SIZE) (grank (nctx s)) in
       let pk j := remote_peer (remote_hginfo E rdat !!! Z.to_nat j) in
       ((∃ j, 0 ≤ j < size
              ∧ resolution_code E EP_REMOTE (bool_decide (j = rank)) (pk j) ≠ Some HG_SUCCESS) →
        ∃ msg s', discover_remote_info E hgaddr s = (Abort msg, s'))
       ∧ (∀ s', discover_remote_info E hgaddr s = (Ret tt, s') →
                ∀ j, 0 ≤ j < size →
                     resolution_code E EP_REMOTE (bool_decide (j = rank)) (pk j)
                     = Some HG_SUCCESS
                     ∧ is_Some (gaddrs (nctx s') !! peer_grank (pk j)))).
Proof.
  split.
  - intros E s Hok rank size pk. subst rank size.
    pose proof (lg_rank _ _ Hok) as Hrank. split.
    + intros (j & Hj & Hbad).
      destruct (discover_local_info E s) as [o s'] eqn:Hrun.
      destruct (discover_local_info_cases E s _ s' Hok Hrun)
        as [(msg & evs & -> & _)|(o' & tr & Hv & _ & Hcase)]; [by eauto|].
      destruct (visit_peers_fail E EP_LOCAL (grank (nctx s))
                  (local_peer <$> visited (local_hginfo E (grank (nctx s))) (MPI_Comm_rank E localcomm)
                                 (MPI_Comm_size E localcomm))
                  (laddrs (nctx s)) (trace s ++ local_setup_events E))
        as [st Hfail].
      { apply Forall_fmap, Forall_forall. intros p _. simpl.
        unfold resolution. simpl.
        destruct (bool_decide (l_grank p = grank (nctx s))); by eexists. }
      { apply Exists_exists. exists (pk j). split.
        - apply list_elem_of_fmap. eexists. split; [done|]. by apply visited_elem.
        - unfold pk at 1. simpl. by rewrite local_self_iff. }
      rewrite Hfail in Hv. injection Hv as <- _.
      destruct Hcase as [([=] & _)|(_ & -> & _)]. eauto.
    + intros s' Hrun j Hj.
      destruct (discover_local_info_cases E s _ s' Hok Hrun)
        as [(msg & evs & [=] & _)|(o' & tr & Hv & _ & [(-> & _)|(Hne & <- & _)])];
        [|done].
      pose proof (visit_peers_Ret _ _ _ _ _ _ _ _ Hv) as (_ & _ & Hall).
      pose proof (visit_peers_table_keys _ _ _ _ _ _ _ _ Hv) as (_ & Hkeys).
      assert (pk j ∈ local_peer <$> visited (local_hginfo E (grank (nctx s))) (MPI_Comm_rank E localcomm)
                                 (MPI_Comm_size E localcomm))
        as Hin.
      { apply list_elem_of_fmap. eexists. split; [done|]. by apply visited_elem. }
      split; [|by apply Hkeys].
      rewrite Forall_forall in Hall. specialize (Hall _ Hin).
      unfold pk at 1 in Hall. simpl in Hall. by rewrite local_self_iff in Hall.
  - intros E hgaddr s Hok rank size rdat pk. subst rank size rdat.
    pose proof (rg_rank _ _ Hok) as Hrank. split.
    + intros (j & Hj & Hbad).
      destruct (discover_remote_info E hgaddr s) as [o s'] eqn:Hrun.
      destruct (discover_remote_info_cases E hgaddr s _ s' Hok Hrun)
        as [(msg & evs & -> & _)|(o' & tr & Hv & _ & _ & Hcase)]; [by eauto|].
      destruct (visit_peers_fail E EP_REMOTE (grank (nctx s))
                  (remote_peer <$> visited (remote_hginfo E (mk_rdata (strncpy hgaddr RDATA_ADDR_SIZE)
                                                   (grank (nctx s))))
                                  (MPI_Comm_rank E repcomm)
                                  (MPI_Comm_size E repcomm))
                  (gaddrs (nctx s)) (trace s ++ remote_setup_events hgaddr))
        as [st Hfail].
      { apply Forall_fmap, visited_Forall; [done|]. intros j' Hj'.
        by apply remote_resolution_is_Some. }
      { apply Exists_exists. exists (pk j). split.
        - apply list_elem_of_fmap. eexists. split; [done|]. by apply visited_elem.
        - unfold pk at 1. simpl. by rewrite remote_self_iff. }
      rewrite Hfail in Hv. injection Hv as <- _.
      destruct Hcase as [([=] & _)|(_ & -> & _)]. eauto.
    + intros s' Hrun j Hj.
      destruct (discover_remote_info_cases E hgaddr s _ s' Hok Hrun)
        as [(msg & evs & [=] & _)|(o' & tr & Hv & _ & _ & [(-> & _)|(Hne & <- & _)])];
        [|done].
      pose proof (visit_peers_Ret _ _ _ _ _ _ _ _ Hv) as (_ & _ & Hall).
      pose proof (visit_peers_table_keys _ _ _ _ _ _ _ _ Hv) as (_ & Hkeys).
      assert (pk j ∈ remote_peer <$> visited (remote_hginfo E (mk_rdata (strncpy hgaddr RDATA_ADDR_SIZE)
                                                   (grank (nctx s))))
                                  (MPI_Comm_rank E repcomm)
                                  (MPI_Comm_size E repcomm)) as Hin.
      { apply list_elem_of_fmap. eexists. split; [done|]. by apply visited_elem. }
      split; [|by apply Hkeys].
      rewrite Forall_forall in Hall. specialize (Hall _ Hin).
      unfold pk at 1 in Hall. simpl in Hall. by rewrite remote_self_iff in Hall.
Qed.

Lemma resolution_failure_is_fatal_witness :
  (∃ msg s', discover_remote_info rank0_env_unreachable "tcp://10.0.0.1:5000"
               rank0_before_remote = (Abort msg, s'))
  ∧ is_Some (laddrs (nctx rank0_after_local) !! 1).
Proof.
  destruct resolution_failure_is_fatal as [Hlocal Hremote]. split.
  - apply (Hremote rank0_env_unreachable "tcp://10.0.0.1:5000" rank0_before_remote
             rank0_env_unreachable_group_ok).
    exists 1. split; [simpl; lia|]. by vm_compute.
  - assert (discover_local_info rank0_env fresh_state = (Ret tt, rank0_after_local))
      as Hrun by (vm_compute; reflexivity).
    destruct (Hlocal rank0_env fresh_state rank0_local_group_ok) as [_ Hkeys].
    apply (Hkeys rank0_after_local Hrun 1). simpl. lia.
Defined.

(** ** C4: where the port range is checked *)

(** C4 fails as stated.  On rank 0 of the test topology, bootstrap with the
    inverted range 5010..5000 aborts with "bad min-max port" only after the
    local discovery: by then it has gathered the local group, resolved its
    node-mate and filled the local routing table. *)
Lemma bootstrap_checks_ports_after_local_discovery :
  bad_port_range 5010 5000
  ∧ (nexus_bootstrap rank0_env 5010 5000 "10.0" "tcp" fresh_state).1
    = Abort "bad min-max port"
  ∧ EvAllgather localcomm
    ∈ trace (nexus_bootstrap rank0_env 5010 5000 "10.0" "tcp" fresh_state).2
  ∧ EvAddrLookup EP_LOCAL "na+sm://101/0"
    ∈ trace (nexus_bootstrap rank0_env 5010 5000 "10.0" "tcp" fresh_state).2
  ∧ laddrs (nctx (nexus_bootstrap rank0_env 5010 5000 "10.0" "tcp" fresh_state).2)
    = <[1 := 1001]> (<[0 := 1000]> ∅)
  ∧ ¬ fails_before_any_operation rank0_env 5010 5000 "10.0" "tcp" fresh_state.
Proof.
  split; [left; lia|]. split; [by vm_compute|].
  split; [apply (bool_decide_unpack _); by vm_compute|].
  split; [apply (bool_decide_unpack _); by vm_compute|].
  split; [by vm_compute|].
  intros (msg & s' & Hrun & Hctx & _).
  assert (gsize (nctx s') = 4) as Hsize.
  { replace s' with (nexus_bootstrap rank0_env 5010 5000 "10.0" "tcp" fresh_state).2
      by (by rewrite Hrun).
    by vm_compute. }
  rewrite Hctx in Hsize. vm_compute in Hsize. discriminate.
Qed.

Lemma not_port_or_remote_local_setup (E : env) :
  Forall (fun e => is_port_or_remote_op e = false) (local_setup_events E).
Proof. unfold local_setup_events. repeat constructor. Qed.

Lemma not_port_or_remote_resolution (self : bool) (pk : peer) :
  is_port_or_remote_op (resolution_event EP_LOCAL self pk) = false.
Proof. by destruct self. Qed.

(** C4, amended. Bootstrap with a bad port range (the subtraction
    [maxport - minport] not overflowing) never returns: in a well-formed
    local group it aborts, and up to the abort it has probed no port and
    made no operation on the representative group or on the remote
    endpoint.  The range is checked in [prepare_addr]: when the local
    group setup and the local discovery succeed, bootstrap aborts from
    there, right after the scan of the interfaces, and leaves the context
    as the local discovery built it. *)
Theorem bootstrap_aborts_on_bad_port_range (E : env) (minport maxport : Z)
    (subnet proto : string) (s : state) :
  local_group_ok E (MPI_Comm_rank E MPI_COMM_WORLD) →
  INT_MIN ≤ maxport - minport →
  bad_port_range minport maxport →
  (∃ msg s' evs,
     nexus_bootstrap E minport maxport subnet proto s = (Abort msg, s')
     ∧ trace s' = trace s ++ evs
     ∧ Forall (fun e => is_port_or_remote_op e = false) evs)
  ∧ (∀ s1, init_local_comm_ok E = true →
           discover_local_info E (local_discovery_entry E s) = (Ret tt, s1) →
           ∃ msg n,
             nexus_bootstrap E minport maxport subnet proto s
             = (Abort msg,
                mk_state (nctx s1)
                         (trace s1 ++ EvGetifaddrs :: replicate n EvGetnameinfo))).
Proof.
  intros Hok Hsub Hbad.
  assert (∀ s1, discover_local_info E (local_discovery_entry E s) = (Ret tt, s1) →
                init_local_comm_ok E = true →
                ∃ msg n,
                  nexus_bootstrap E minport maxport subnet proto s
                  = (Abort msg,
                     mk_state (nctx s1)
                              (trace s1 ++ EvGetifaddrs :: replicate n EvGetnameinfo)))
    as Hlate.
  { intros s1 Hlocal Hinit. unfold nexus_bootstrap.
    do 2 (rewrite run_bind, run_emit, run_bind; simpl).
    rewrite run_bind. unfold init_local_comm.
    rewrite run_bind, run_emit, Hinit. simpl. rewrite <- !app_assoc. simpl.
    rewrite run_bind. unfold local_discovery_entry in Hlocal. rewrite Hlocal.
    rewrite run_bind.
    destruct (prepare_addr_rejects_bad_range E minport maxport subnet proto s1 Hsub Hbad)
      as (msg & n & ->).
    by exists msg, n. }
  split; [|intros; by apply Hlate].
  destruct (init_local_comm_ok E) eqn:Hinit; cycle 1.
  { exists "init_local_comm failed". eexists. eexists.
    unfold nexus_bootstrap.
    do 2 (rewrite run_bind, run_emit, run_bind; simpl).
    rewrite run_bind. unfold init_local_comm.
    rewrite run_bind, run_emit, Hinit. simpl. rewrite <- !app_assoc. simpl.
    split; [done|]. split; [done|]. repeat constructor. }
  destruct (discover_local_info E (local_discovery_entry E s)) as [o1 s1] eqn:Hlocal.
  destruct (discover_local_info_cases E (local_discovery_entry E s) o1 s1 Hok Hlocal)
    as [(msg & evs & -> & Htr & Hpre)|(o' & tr & Hv & _ & Hcase)].
  - exists msg, s1.
    exists ([EvCommRank MPI_COMM_WORLD; EvCommSize MPI_COMM_WORLD; EvInitLocalComm]
            ++ evs).
    unfold nexus_bootstrap.
    do 2 (rewrite run_bind, run_emit, run_bind; simpl).
    rewrite run_bind. unfold init_local_comm.
    rewrite run_bind, run_emit, Hinit. simpl. rewrite <- !app_assoc. simpl.
    rewrite run_bind. unfold local_discovery_entry in Hlocal. rewrite Hlocal.
    split; [done|]. split.
    + rewrite Htr. unfold local_discovery_entry. simpl. by rewrite <- !app_assoc.
    + do 3 (apply Forall_cons; split; [done|]).
      apply (Forall_prefix _ _ _ Hpre), not_port_or_remote_local_setup.
  - pose proof (visit_peers_trace _ _ _ _ _ _ _ _ _ Hv) as (evs & Htr & Hpre).
    assert (Forall (fun e => is_port_or_remote_op e = false) evs) as Hevs.
    { apply (Forall_prefix _ _ _ Hpre), Forall_fmap, Forall_forall.
      intros pk _. apply not_port_or_remote_resolution. }
    destruct Hcase as [(-> & -> & Htr1 & _)|(Hne & -> & Htr1)].
    + destruct (Hlate s1 eq_refl eq_refl) as (msg & n & Hrun).
      exists msg. eexists.
      exists ([EvCommRank MPI_COMM_WORLD; EvCommSize MPI_COMM_WORLD; EvInitLocalComm]
              ++ local_setup_events E ++ evs ++ teardown_events EP_LOCAL
              ++ EvGetifaddrs :: replicate n EvGetnameinfo).
      split; [exact Hrun|]. split.
      * simpl. rewrite Htr1, Htr. unfold local_discovery_entry. simpl.
        by rewrite <- !app_assoc.
      * do 3 (apply Forall_cons; split; [done|]).
        rewrite !Forall_app.
        split; [apply not_port_or_remote_local_setup|]. split; [done|].
        split; [repeat constructor|].
        apply Forall_cons. split; [done|]. by apply Forall_replicate.
    + assert (∃ msg, o' = Abort msg) as [msg ->].
      { destruct o' as [[]|msg|]; [done|by eexists|].
        exfalso. eapply (visit_peers_not_stuck E EP_LOCAL);
          [|by rewrite Hv].
        apply Forall_fmap, Forall_forall. intros p _. by eexists. }
      exists msg, s1.
      exists ([EvCommRank MPI_COMM_WORLD; EvCommSize MPI_COMM_WORLD; EvInitLocalComm]
              ++ local_setup_events E ++ evs).
      unfold nexus_bootstrap.
      do 2 (rewrite run_bind, run_emit, run_bind; simpl).
      rewrite run_bind. unfold init_local_comm.
      rewrite run_bind, run_emit, Hinit. simpl. rewrite <- !app_assoc. simpl.
      rewrite run_bind. unfold local_discovery_entry in Hlocal. rewrite Hlocal.
      split; [done|]. split.
      * rewrite Htr1, Htr. unfold local_discovery_entry. simpl.
        by rewrite <- !app_assoc.
      * by repeat (apply Forall_cons; split; [done|]).
Qed.

Lemma bootstrap_aborts_on_bad_port_range_witness :
  ∃ msg s' evs,
    nexus_bootstrap rank0_env 5010 5000 "10.0" "tcp" fresh_state = (Abort msg, s')
    ∧ trace s' = trace fresh_state ++ evs
    ∧ Forall (fun e => is_port_or_remote_op e = false) evs.
Proof.
  apply (bootstrap_aborts_on_bad_port_range rank0_env 5010 5000 "10.0" "tcp" fresh_state).
  - exact rank0_local_group_ok.
  - unfold INT_MIN. lia.
  - left. lia.
Defined.

(** ** C5, C6: the routing resolver at the caller's own rank and outside
    the range *)

(** C5. For a process of the group (its global rank lies in the range of
    the group), [nexus_next_hop] to its own global rank answers [NX_DONE]
    and names no next hop. *)
Theorem next_hop_to_self_is_done (c : nexus_ctx) :
  0 ≤ grank c < gsize c →
  (nexus_next_hop c (grank c)).2 = (NX_DONE, None).
Proof.
  intros Hg. unfold nexus_next_hop.
  rewrite decide_False by lia. by rewrite decide_True.
Qed.

Lemma next_hop_to_self_is_done_witness :
  (nexus_next_hop (nctx rank0_after_bootstrap) 0).2 = (NX_DONE, None).
Proof.
  apply (next_hop_to_self_is_done (nctx rank0_after_bootstrap)).
  assert (grank (nctx rank0_after_bootstrap) = 0
          ∧ gsize (nctx rank0_after_bootstrap) = 4) as [-> ->] by (by vm_compute).
  lia.
Defined.

(** C6. For a destination below 0 or at least the size of the group,
    [nexus_next_hop] answers [NX_INVAL], names no next hop, and hands the
    context back as it was: routing tables and representative map are
    unmodified. *)
Theorem next_hop_rejects_invalid_rank (c : nexus_ctx) (dest : Z) :
  dest < 0 ∨ gsize c ≤ dest →
  nexus_next_hop c dest = (c, (NX_INVAL, None))
  ∧ laddrs (nexus_next_hop c dest).1 = laddrs c
  ∧ gaddrs (nexus_next_hop c dest).1 = gaddrs c
  ∧ rankreps (nexus_next_hop c dest).1 = rankreps c.
Proof.
  intros Hd. unfold nexus_next_hop. by rewrite decide_True.
Qed.

Lemma next_hop_rejects_invalid_rank_witness :
  nexus_next_hop (nctx rank0_after_bootstrap) 4
  = (nctx rank0_after_bootstrap, (NX_INVAL, None))
  ∧ nexus_next_hop (nctx rank0_after_bootstrap) (-1)
    = (nctx rank0_after_bootstrap, (NX_INVAL, None)).
Proof.
  split.
  - apply (next_hop_rejects_invalid_rank (nctx rank0_after_bootstrap) 4).
    right. assert (gsize (nctx rank0_after_bootstrap) = 4) as -> by (by vm_compute). lia.
  - apply (next_hop_rejects_invalid_rank (nctx rank0_after_bootstrap) (-1)).
    left. lia.
Defined.

(** ** C7: the barrier comes before the stop flag and the join *)

Lemma resolution_not_teardown (ep : endpoint) (self : bool) (pk : peer) :
  is_teardown ep (resolution_event ep self pk) = false.
Proof.
  unfold is_teardown, teardown_events, resolution_event.
  apply bool_decide_eq_false. rewrite list_elem_of_In. simpl.
  destruct self; intros [?|[?|[?|[]]]]; discriminate.
Qed.

Lemma teardown_not_resolution (ep : endpoint) (e : event) :
  e ∈ teardown_events ep → is_resolution ep e = false.
Proof.
  unfold teardown_events. rewrite list_elem_of_In. simpl.
  by intros [<-|[<-|[<-|[]]]].
Qed.

(** The events of a discovery: events that are not of the teardown, then,
    only if it returns, the teardown. *)
Lemma discovery_trace_shape (ep : endpoint) (E : env) (hgaddr : string)
    (s : state) (o : outcome unit) (s' : state) :
  group_ok ep E (grank (nctx s)) →
  discovery ep E hgaddr s = (o, s') →
  ∃ pre, Forall (fun e => is_teardown ep e = false) pre
         ∧ ((o = Ret tt ∧ trace s' = trace s ++ pre ++ teardown_events ep)
            ∨ (o ≠ Ret tt ∧ trace s' = trace s ++ pre)).
Proof.
  intros Hok Hrun. destruct ep; simpl in *.
  - destruct (discover_local_info_cases E s _ s' Hok Hrun)
      as [(msg & evs & -> & Htr & Hpre)|(o' & tr & Hv & _ & Hcase)].
    + exists evs. split; [|by right].
      apply (Forall_prefix _ _ _ Hpre). unfold local_setup_events.
      repeat constructor.
    + apply visit_peers_trace in Hv as (evs & -> & Hpre).
      exists (local_setup_events E ++ evs). split.
      * apply Forall_app. split; [unfold local_setup_events; repeat constructor|].
        apply (Forall_prefix _ _ _ Hpre), Forall_fmap, Forall_forall.
        intros pk _. apply resolution_not_teardown.
      * destruct Hcase as [(_ & -> & -> & _)|(Hne & -> & ->)].
        -- left. by rewrite <- !app_assoc.
        -- right. by rewrite <- !app_assoc.
  - destruct (discover_remote_info_cases E hgaddr s _ s' Hok Hrun)
      as [(msg & evs & -> & Htr & Hpre)|(o' & tr & Hv & _ & _ & Hcase)].
    + exists evs. split; [|by right].
      apply (Forall_prefix _ _ _ Hpre). unfold remote_setup_events.
      repeat constructor.
    + apply visit_peers_trace in Hv as (evs & -> & Hpre).
      exists (remote_setup_events hgaddr ++ evs). split.
      * apply Forall_app. split; [unfold remote_setup_events; repeat constructor|].
        apply (Forall_prefix _ _ _ Hpre), Forall_fmap, Forall_forall.
        intros pk _. apply resolution_not_teardown.
      * destruct Hcase as [(_ & -> & ->)|(Hne & -> & ->)].
        -- left. by rewrite <- !app_assoc.
        -- right. by rewrite <- !app_assoc.
Qed.

Lemma events_of_app (p : Z) (l1 l2 : schedule) :
  events_of p (l1 ++ l2) = events_of p l1 ++ events_of p l2.
Proof. unfold events_of. by rewrite filter_app, fmap_app. Qed.

Lemma events_of_cons (p q : Z) (e : event) (l : schedule) :
  events_of p ((q, e) :: l) = (if decide (q = p) then [e] else []) ++ events_of p l.
Proof.
  unfold events_of. rewrite filter_cons. simpl.
  destruct (decide (q = p)); done.
Qed.

Lemma elem_of_events_of (p : Z) (e : event) (l : schedule) :
  e ∈ events_of p l ↔ (p, e) ∈ l.
Proof.
  unfold events_of. rewrite list_elem_of_fmap. split.
  - intros ([q e'] & -> & [Hq Hin]%list_elem_of_filter). simpl in *. by subst.
  - intros Hin. exists (p, e). split; [done|]. by apply list_elem_of_filter.
Qed.

(** In the events of a discovery, and in every prefix of them, the stop
    flag and the join come after the barrier, and no resolution comes after
    the barrier. *)
Lemma stop_after_barrier (ep : endpoint) (pre evs tr a b : list event) (stop : event) :
  Forall (fun e => is_teardown ep e = false) pre →
  evs = pre ++ teardown_events ep ∨ evs = pre →
  tr `prefix_of` evs →
  tr = a ++ stop :: b →
  stop = EvSetDone ep ∨ stop = EvThreadJoin ep →
  EvBarrier (comm_of ep) ∈ a.
Proof.
  intros Hpre Hevs [k Hk] -> Hstop.
  assert (stop ∉ pre) as Hnotin.
  { intros Hin. rewrite Forall_forall in Hpre. specialize (Hpre _ Hin).
    unfold is_teardown, teardown_events in Hpre.
    apply bool_decide_eq_false in Hpre. apply Hpre.
    destruct Hstop as [-> | ->]; [right; by left|right; right; by left]. }
  destruct Hevs as [-> | ->].
  - rewrite <- app_assoc in Hk. simpl in Hk. unfold teardown_events in Hk.
    apply List.app_eq_app in Hk as [l [[-> Hl]|[-> Hl]]].
    + exfalso. destruct l as [|x l]; simpl in Hl; simplify_eq.
      * by destruct Hstop.
      * apply Hnotin. apply elem_of_app. right. by left.
    + destruct l as [|x [|y [|z l]]]; simpl in Hl; simplify_eq.
      * by destruct Hstop.
      * apply elem_of_app. right. by left.
      * apply elem_of_app. right. by left.
      * by destruct l.
  - exfalso. apply Hnotin. rewrite Hk, <- app_assoc.
    apply elem_of_app. right. by left.
Qed.

Lemma no_resolution_after_barrier (ep : endpoint) (pre evs tr a b : list event) :
  Forall (fun e => is_teardown ep e = false) pre →
  evs = pre ++ teardown_events ep ∨ evs = pre →
  tr `prefix_of` evs →
  tr = a ++ EvBarrier (comm_of ep) :: b →
  ∀ e, e ∈ b → is_resolution ep e = false.
Proof.
  intros Hpre Hevs [k Hk] -> e He.
  assert (EvBarrier (comm_of ep) ∉ pre) as Hnotin.
  { intros Hin. rewrite Forall_forall in Hpre. specialize (Hpre _ Hin).
    unfold is_teardown, teardown_events in Hpre.
    apply bool_decide_eq_false in Hpre. apply Hpre. by left. }
  assert (b ++ k = [EvSetDone ep; EvThreadJoin ep]) as Hb.
  { destruct Hevs as [-> | ->].
    - rewrite <- app_assoc in Hk. simpl in Hk. unfold teardown_events in Hk.
      apply List.app_eq_app in Hk as [l [[-> Hl]|[-> Hl]]].
      + destruct l as [|x l]; simpl in Hl; simplify_eq; [done|].
        exfalso. apply Hnotin. apply elem_of_app. right. by left.
      + destruct l as [|x [|y [|z l]]]; simpl in Hl; simplify_eq; [done|].
        by destruct l.
    - exfalso. apply Hnotin. rewrite Hk, <- app_assoc.
      apply elem_of_app. right. by left. }
  apply teardown_not_resolution. unfold teardown_events.
  right. rewrite <- Hb. apply elem_of_app. by left.
Qed.

Lemma barrier_check_sound (c : comm) (members entered : list Z) (sch : schedule) :
  barrier_check c members entered sch = true →
  ∀ l1 l2 q e, sch = l1 ++ (q, e) :: l2 → q ∈ members →
               q ∈ entered ∨ (q, EvBarrier c) ∈ l1 →
               ∀ p, p ∈ members → p ∈ entered ∨ (p, EvBarrier c) ∈ l1.
Proof.
  revert entered. induction sch as [|[q0 e0] rest IH]; intros entered Hchk l1 l2 q e Hsch Hq Hent p Hp.
  - by destruct l1.
  - simpl in Hchk. apply andb_prop in Hchk as [Hhere Hrest].
    destruct l1 as [|x l1]; simpl in Hsch; simplify_eq.
    + destruct Hent as [Hent|Hent]; [|by apply elem_of_nil in Hent].
      rewrite bool_decide_eq_true_2 in Hhere by done.
      apply bool_decide_eq_true in Hhere. left. by apply Hhere.
    + specialize (IH _ Hrest l1 l2 q e eq_refl Hq).
      destruct IH with (p := p) as [Hin|Hin]; [|done| |by right; right].
      * destruct Hent as [Hent|[Hent|Hent]%elem_of_cons].
        -- left. case_bool_decide; [by right|done].
        -- simplify_eq. left. rewrite bool_decide_eq_true_2 by done. by left.
        -- by right.
      * case_bool_decide as He0; [|by left].
        apply elem_of_cons in Hin as [->|Hin]; [|by left].
        right. subst e0. by left.
Qed.

Lemma barrier_check_holds (c : comm) (members : list Z) (sch : schedule) :
  barrier_check c members [] sch = true → barrier_holds c members sch.
Proof.
  intros Hchk l1 l2 q e Hsch Hq Hent p Hp.
  destruct (barrier_check_sound c members [] sch Hchk l1 l2 q e Hsch Hq) with (p := p)
    as [Hin|Hin]; auto.
  by apply elem_of_nil in Hin.
Qed.

(** C7. Along a discovery the stop flag of the progress thread is set, and
    the thread joined, only when the discovery returns, as its last two
    calls, right after the barrier on the group of the endpoint, and every
    resolution comes before that barrier.  Hence in a schedule of the
    members of a group in which the barrier holds, when a member sets the
    stop flag or joins, every member has entered the barrier and no member
    makes a resolution against the endpoint afterwards. *)
Theorem progress_thread_stopped_after_barrier :
  (∀ (ep : endpoint) (E : env) (hgaddr : string) (s : state) (o : outcome unit)
     (s' : state),
     group_ok ep E (grank (nctx s)) →
     discovery ep E hgaddr s = (o, s') →
     ∃ pre, Forall (fun e => is_teardown ep e = false) pre
            ∧ ((o = Ret tt
                ∧ trace s' = trace s ++ pre
                             ++ [EvBarrier (comm_of ep); EvSetDone ep; EvThreadJoin ep])
               ∨ (o ≠ Ret tt ∧ trace s' = trace s ++ pre)))
  ∧ (∀ (ep : endpoint) (members : list Z) (sch : schedule),
       (∀ p, p ∈ members →
             ∃ E hgaddr s o s' evs,
               group_ok ep E (grank (nctx s))
               ∧ discovery ep E hgaddr s = (o, s')
               ∧ trace s' = trace s ++ evs
               ∧ events_of p sch `prefix_of` evs) →
       barrier_holds (comm_of ep) members sch →
       ∀ l1 l2 q stop,
         sch = l1 ++ (q, stop) :: l2 → q ∈ members →
         stop = EvSetDone ep ∨ stop = EvThreadJoin ep →
         (∀ p, p ∈ members → (p, EvBarrier (comm_of ep)) ∈ l1)
         ∧ (∀ p e, p ∈ members → (p, e) ∈ l2 → is_resolution ep e = false)).
Proof.
  split; [exact discovery_trace_shape|].
  intros ep members sch Hruns Hbar l1 l2 q stop Hsch Hq Hstop.
  assert (∀ p, p ∈ members →
               ∃ pre evs, Forall (fun e => is_teardown ep e = false) pre
                          ∧ (evs = pre ++ teardown_events ep ∨ evs = pre)
                          ∧ events_of p sch `prefix_of` evs) as Hshape.
  { intros p Hp.
    destruct (Hruns p Hp) as (E & hgaddr & s & o & s' & evs & Hok & Hrun & Htr & Hpre).
    destruct (discovery_trace_shape ep E hgaddr s o s' Hok Hrun)
      as (pre & Hall & [(_ & Htr')|(_ & Htr')]);
      rewrite Htr in Htr'; apply app_inv_head in Htr';
      exists pre, evs; auto. }
  assert (∀ p, p ∈ members → (p, EvBarrier (comm_of ep)) ∈ l1) as Hentered.
  { apply (Hbar l1 l2 q stop Hsch Hq).
    destruct (Hshape q Hq) as (pre & evs & Hall & Hevs & Hpre).
    apply elem_of_events_of.
    apply (stop_after_barrier ep pre evs (events_of q sch) _ (events_of q l2) stop
             Hall Hevs Hpre); [|done].
    rewrite Hsch, events_of_app, events_of_cons. by rewrite decide_True. }
  split; [exact Hentered|].
  intros p e Hp Hin.
  destruct (list_elem_of_split _ _ (Hentered p Hp)) as (a & b & ->).
  destruct (Hshape p Hp) as (pre & evs & Hall & Hevs & Hpre).
  apply (no_resolution_after_barrier ep pre evs (events_of p sch) (events_of p a)
           (events_of p (b ++ (q, stop) :: l2)) Hall Hevs Hpre).
  - rewrite Hsch, <- app_assoc. simpl.
    rewrite events_of_app, events_of_cons. by rewrite decide_True.
  - apply elem_of_events_of. apply elem_of_app. right. by right.
Qed.

Lemma progress_thread_stopped_after_barrier_witness :
  (∀ p, p ∈ [0; 1] → (p, EvBarrier localcomm) ∈ take 18 node_a_schedule)
  ∧ (∀ p e, p ∈ [0; 1] → (p, e) ∈ drop 19 node_a_schedule →
            is_resolution EP_LOCAL e = false).
Proof.
  destruct progress_thread_stopped_after_barrier as [_ Hglobal].
  apply (Hglobal EP_LOCAL [0; 1] node_a_schedule) with (q := 1) (stop := EvSetDone EP_LOCAL).
  - intros p Hp. apply list_elem_of_In in Hp. simpl in Hp.
    destruct Hp as [<-|[<-|[]]].
    + exists rank0_env, "", fresh_state, (Ret tt), rank0_after_local,
        (trace rank0_after_local).
      split; [exact rank0_local_group_ok|]. split; [by vm_compute|].
      split; [reflexivity|]. exists []. by vm_compute.
    + exists rank1_env, "", rank1_start, (Ret tt), rank1_after_local,
        (trace rank1_after_local).
      split; [exact rank1_local_group_ok|]. split; [by vm_compute|].
      split; [reflexivity|]. exists []. by vm_compute.
  - apply barrier_check_holds. by vm_compute.
  - by vm_compute.
  - right. by left.
  - by left.
Defined.

(** ** C8: the loop of the progress thread *)

Lemma trigger_loop_run (B : bg_env) (k : nat) :
  ∀ (fuel : nat) (s : bg_state),
    (k < fuel)%nat →
    (∀ j, (j < k)%nat → trigger_worked B (n_trigger s + j)) →
    ¬ trigger_worked B (n_trigger s + k) →
    trigger_loop B fuel s
    = (Ret (HG_Trigger B (n_trigger s + k)).1,
       mk_bg_state (n_reads s) (n_trigger s + S k) (n_progress s)
                   (bg_trace s ++ replicate (S k) (BgTrigger 0 1))).
Proof.
  unfold trigger_worked.
  induction k as [|k IH]; intros fuel s Hfuel Hwork Hlast;
    (destruct fuel as [|fuel]; [lia|]); simpl.
  - rewrite Nat.add_0_r in Hlast. rewrite decide_False by done.
    by rewrite Nat.add_0_r, Nat.add_1_r.
  - pose proof (Hwork 0%nat ltac:(lia)) as H0. rewrite Nat.add_0_r in H0.
    rewrite decide_True by done.
    rewrite IH; simpl.
    + rewrite <- app_assoc. simpl.
      repeat f_equal; lia || (f_equal; lia).
    + lia.
    + intros j Hj. rewrite <- Nat.add_succ_r. apply Hwork. lia.
    + by rewrite <- Nat.add_succ_r.
Qed.

(** C8. One turn of the loop of the progress thread.  When the flag is seen
    set the thread returns without a further call.  Otherwise it repeats
    the non-blocking [HG_Trigger(ctx, 0, 1, &count)] as long as the call
    succeeds and reports completed work ([k] such calls, then one that does
    not); a code other than success or timeout from that last call aborts;
    else it calls [HG_Progress(ctx, 100)] once, a code other than success
    or timeout aborts, and else the loop goes round again. *)
Theorem bgthread_drains_then_polls (B : bg_env) (fuel : nat) (s : bg_state) :
  (bgdone B (n_reads s) ≠ 0 →
   nexus_bgthread B (S fuel) s
   = (Ret tt, mk_bg_state (S (n_reads s)) (n_trigger s) (n_progress s) (bg_trace s)))
  ∧ (∀ k : nat,
       bgdone B (n_reads s) = 0 →
       (k < fuel)%nat →
       (∀ j, (j < k)%nat → trigger_worked B (n_trigger s + j)) →
       ¬ trigger_worked B (n_trigger s + k) →
       let hret := (HG_Trigger B (n_trigger s + k)).1 in
       let drained := bg_trace s ++ replicate (S k) (BgTrigger 0 1) in
       let s1 := mk_bg_state (S (n_reads s)) (n_trigger s + S k) (n_progress s) drained in
       let s2 := mk_bg_state (S (n_reads s)) (n_trigger s + S k) (S (n_progress s))
                             (drained ++ [BgProgress 100]) in
       nexus_bgthread B (S fuel) s
       = if decide (hret ≠ HG_SUCCESS ∧ hret ≠ HG_TIMEOUT)
         then (Abort "nexus_bgthread: HG_Trigger failed", s1)
         else if decide (HG_Progress B (n_progress s) ≠ HG_SUCCESS
                         ∧ HG_Progress B (n_progress s) ≠ HG_TIMEOUT)
              then (Abort "nexus_bgthread: HG_Progress failed", s2)
              else nexus_bgthread B fuel s2).
Proof.
  split.
  - intros Hdone. simpl. by rewrite decide_True.
  - intros k Hrun Hfuel Hwork Hlast hret drained s1 s2.
    simpl. rewrite decide_False by (by intros []).
    rewrite (trigger_loop_run B k) by done. simpl.
    fold hret. fold drained. fold s1.
    destruct (decide (hret ≠ HG_SUCCESS ∧ hret ≠ HG_TIMEOUT)); [done|].
    destruct (decide (HG_Progress B (n_progress s) ≠ HG_SUCCESS
                      ∧ HG_Progress B (n_progress s) ≠ HG_TIMEOUT)); done.
Qed.

Lemma bgthread_drains_then_polls_witness :
  nexus_bgthread bg_script 6 (mk_bg_state 0 0 0 [])
  = nexus_bgthread bg_script 5
      (mk_bg_state 1 3 1 [BgTrigger 0 1; BgTrigger 0 1; BgTrigger 0 1; BgProgress 100]).
Proof.
  destruct (bgthread_drains_then_polls bg_script 5 (mk_bg_state 0 0 0 [])) as [_ Hturn].
  apply (Hturn 2%nat).
  - reflexivity.
  - lia.
  - intros [|[|j]] Hj; [by vm_compute|by vm_compute|lia].
  - by intros [[=] _].
Defined.

(** ** C9: the stores into [rdat.addr] *)

(** C9. The store [rdat.addr[60] = '\0'] is made at an index outside
    [char addr[60]]: whatever the URI, the byte lands in the first byte of
    [grank], the field that follows.  On rank 0 of the test topology the
    int at that place, 0x1234ABCD before the store, is 0x1234AB00 after. *)
Theorem rdat_nul_store_is_out_of_bounds :
  ¬ addr_index_in_bounds RDAT_NUL_INDEX
  ∧ (∀ (E : env) (hgaddr : string),
       fill_rdat_addr E hgaddr
       = Some (mk_rdata (strncpy hgaddr RDATA_ADDR_SIZE)
                        (set_int_byte 0 NUL (stack_garbage E))))
  ∧ fill_rdat_addr rank0_env "tcp://10.0.0.1:5000"
    = Some (mk_rdata (strncpy "tcp://10.0.0.1:5000" RDATA_ADDR_SIZE) 305441536).
Proof.
  split; [|split].
  - unfold addr_index_in_bounds, RDAT_NUL_INDEX, RDATA_ADDR_SIZE. lia.
  - reflexivity.
  - reflexivity.
Qed.

(** ** C10: the return values of bootstrap and destroy *)

Lemma free_addrs_returns (ep : endpoint) (m : gmap Z hg_addr_t) (s : state) :
  ∃ s', free_addrs ep m s = (Ret tt, s') ∧ nctx s' = nctx s.
Proof.
  unfold free_addrs. generalize (map_entries m). intros l. revert s.
  induction l as [|it l IH]; intros s; simpl; [by eauto|].
  rewrite run_bind.
  destruct (bool_decide (it.2 ≠ HG_ADDR_NULL)); simpl.
  - destruct (IH (mk_state (nctx s) (trace s ++ [EvAddrFree ep it.2]))) as (s' & -> & ?).
    eauto.
  - apply IH.
Qed.

(** C10. A call of [nexus_bootstrap] that returns returns [NX_SUCCESS]; a
    call of [nexus_destroy] always returns, and returns [NX_SUCCESS]. *)
Theorem bootstrap_and_destroy_return_success :
  (∀ (E : env) (minport maxport : Z) (subnet proto : string) (s : state)
     (r : nexus_ret_t) (s' : state),
     nexus_bootstrap E minport maxport subnet proto s = (Ret r, s') →
     r = NX_SUCCESS)
  ∧ (∀ (s : state), ∃ s', nexus_destroy s = (Ret NX_SUCCESS, s')).
Proof.
  split.
  - intros E minport maxport subnet proto s r s' Hrun.
    unfold nexus_bootstrap in Hrun.
    repeat (rewrite run_bind in Hrun;
            match type of Hrun with
            | (let (_, _) := ?m in _) = _ => destruct m as [[?| |] ?]; try done
            end).
    by injection Hrun as <- _.
  - intros s. unfold nexus_destroy.
    rewrite run_bind. simpl. rewrite run_bind.
    destruct (free_addrs_returns EP_LOCAL (laddrs (nctx s)) s) as (s1 & -> & Hc1).
    do 4 rewrite run_bind, run_emit. rewrite run_bind.
    destruct (free_addrs_returns EP_REMOTE (gaddrs (nctx s))
                (mk_state (nctx s1)
                   ((((trace s1 ++ [EvBarrier localcomm]) ++ [EvCommFree localcomm])
                       ++ [EvContextDestroy EP_LOCAL]) ++ [EvFinalize EP_LOCAL])))
      as (s2 & Hs2 & _).
    simpl in *. rewrite Hs2.
    do 4 rewrite run_bind, run_emit. by eexists.
Qed.

Lemma bootstrap_and_destroy_return_success_witness :
  (nexus_bootstrap rank0_env 5000 5010 "10.0" "tcp" fresh_state).1 = Ret NX_SUCCESS.
Proof.
  destruct bootstrap_and_destroy_return_success as [Hboot _].
  assert (∃ r, nexus_bootstrap rank0_env 5000 5010 "10.0" "tcp" fresh_state
               = (Ret r, rank0_after_bootstrap)) as [r Hrun]
    by (eexists; vm_compute; reflexivity).
  rewrite Hrun. simpl. f_equal.
  exact (Hboot rank0_env 5000 5010 "10.0" "tcp" fresh_state r rank0_after_bootstrap Hrun).
Defined.

(** * Further properties *)

(** ** [prepare_addr] *)

(** *** The scan of the interfaces *)

Lemma scan_ifaddrs_skip (subnet : string) (l1 l2 : list ifaddr) (ip : string) (s : state) :
  Forall (iface_skipped subnet) l1 →
  ∃ ip' n, scan_ifaddrs subnet (l1 ++ l2) ip s
           = scan_ifaddrs subnet l2 ip'
               (mk_state (nctx s) (trace s ++ replicate n EvGetnameinfo)).
Proof.
  intros Hskip. revert ip s.
  induction Hskip as [|cur l1 Hcur _ IH]; intros ip s.
  - exists ip, 0%nat. simpl. rewrite app_nil_r. by destruct s.
  - cbn [app scan_ifaddrs]. unfold iface_skipped, iface_host in Hcur.
    destruct (ifa_addr cur) as [[family [gni_ret host]]|]; [|apply IH].
    destruct (decide (family = AF_INET)) as [Hf|Hf]; [|apply IH].
    destruct Hcur as [Hgni Hpre].
    rewrite run_bind, run_emit, run_bind.
    rewrite bool_decide_eq_false_2 by done. simpl. rewrite Hpre.
    destruct (IH host (mk_state (nctx s) (trace s ++ [EvGetnameinfo])))
      as (ip' & n & ->).
    exists ip', (S n). simpl. by rewrite <- app_assoc.
Qed.

Lemma scan_ifaddrs_select (subnet : string) (cur : ifaddr) (l2 : list ifaddr)
    (ip host : string) (s : state) :
  iface_selected subnet cur host →
  scan_ifaddrs subnet (cur :: l2) ip s
  = (Ret (true, host), mk_state (nctx s) (trace s ++ [EvGetnameinfo])).
Proof.
  intros (gni_ret & Hhost & Hgni & Hpre). cbn [scan_ifaddrs].
  unfold iface_host in Hhost.
  destruct (ifa_addr cur) as [[family [gni_ret' host']]|]; [|done].
  destruct (decide (family = AF_INET)) as [Hf|Hf]; [|done].
  simplify_eq.
  rewrite run_bind, run_emit, run_bind.
  rewrite bool_decide_eq_false_2 by done. simpl. by rewrite Hpre.
Qed.

Lemma scan_ifaddrs_first_match (subnet : string) (l : list ifaddr) (ip host : string)
    (s : state) :
  first_match subnet l host →
  ∃ n, scan_ifaddrs subnet l ip s
       = (Ret (true, host), mk_state (nctx s) (trace s ++ replicate n EvGetnameinfo)).
Proof.
  intros (l1 & cur & l2 & -> & Hskip & Hsel).
  destruct (scan_ifaddrs_skip subnet l1 (cur :: l2) ip s Hskip) as (ip' & n & ->).
  rewrite (scan_ifaddrs_select subnet cur l2 ip' host) by done. simpl.
  exists (n + 1)%nat. by rewrite <- app_assoc, replicate_add.
Qed.

Lemma scan_ifaddrs_no_match (subnet : string) (l : list ifaddr) (ip : string) (s : state) :
  Forall (iface_skipped subnet) l →
  ∃ ip' n, scan_ifaddrs subnet l ip s
           = (Ret (false, ip'), mk_state (nctx s) (trace s ++ replicate n EvGetnameinfo)).
Proof.
  intros Hskip.
  destruct (scan_ifaddrs_skip subnet l [] ip s Hskip) as (ip' & n & Heq).
  rewrite app_nil_r in Heq. rewrite Heq. by exists ip', n.
Qed.

(** What the scan has found when it returns. *)
Lemma scan_ifaddrs_inv (subnet : string) (l : list ifaddr) (ip : string) (s : state)
    (found : bool) (host : string) (s' : state) :
  scan_ifaddrs subnet l ip s = (Ret (found, host), s') →
  if found then first_match subnet l host else Forall (iface_skipped subnet) l.
Proof.
  revert ip s. induction l as [|cur l IH]; intros ip s Hrun; cbn [scan_ifaddrs] in Hrun.
  - injection Hrun as <- <- <-. constructor.
  - assert (∀ ip s, iface_skipped subnet cur →
                    scan_ifaddrs subnet l ip s = (Ret (found, host), s') →
                    if found then first_match subnet (cur :: l) host
                    else Forall (iface_skipped subnet) (cur :: l)) as Hnext.
    { intros ip1 s1 Hcur Hrun1. apply IH in Hrun1. destruct found.
      - destruct Hrun1 as (l1 & c & l2 & -> & Hskip & Hsel).
        exists (cur :: l1), c, l2. split; [done|]. split; [by constructor|done].
      - by constructor. }
    destruct (ifa_addr cur) as [[family [gni_ret h]]|] eqn:Hifa;
      [|eapply Hnext; [|exact Hrun]; unfold iface_skipped, iface_host; by rewrite Hifa].
    destruct (decide (family = AF_INET)) as [Hf|Hf];
      [|eapply Hnext; [|exact Hrun]; unfold iface_skipped, iface_host;
        rewrite Hifa; by rewrite decide_False].
    rewrite run_bind, run_emit, run_bind in Hrun.
    destruct (bool_decide (gni_ret = -1)) eqn:Hgni; simpl in Hrun; [done|].
    apply bool_decide_eq_false in Hgni.
    destruct (String.prefix subnet h) eqn:Hpre.
    + injection Hrun as <- <- <-.
      exists [], cur, l. split; [done|]. split; [constructor|].
      exists gni_ret. unfold iface_host. rewrite Hifa. by rewrite decide_True.
    + eapply Hnext; [|exact Hrun]. unfold iface_skipped, iface_host.
      rewrite Hifa. by rewrite decide_True.
Qed.

(** *** The probe of the ports *)

Lemma stride_port_0 (start size : Z) : stride_port start size 0 = start.
Proof. unfold stride_port. lia. Qed.

Lemma stride_port_S (start size : Z) (j : nat) :
  stride_port start size (S j) = stride_port (start + size) size j.
Proof. unfold stride_port. lia. Qed.

Lemma elem_of_probe_events (port size : Z) (k : nat) (e : event) :
  e ∈ probe_events port size k →
  e = EvSocket ∨ ∃ j, (j < k)%nat ∧ e = EvBind (stride_port port size j).
Proof.
  revert port. induction k as [|k IH]; intros port; simpl.
  - by intros ?%elem_of_nil.
  - intros [->|[->|Hin]%elem_of_cons]%elem_of_cons; [by left| |].
    + right. exists 0%nat. rewrite stride_port_0. split; [lia|done].
    + apply IH in Hin as [->|(j & Hj & ->)]; [by left|].
      right. exists (S j). rewrite stride_port_S. split; [lia|done].
Qed.

(** The outcomes of the probe loop: [k] busy ports, then a free port, the
    end of the range, a socket that cannot be opened, or no fuel left. *)
Lemma probe_ports_run (E : env) (size maxport : Z) :
  1 ≤ size ≤ 2 ^ 30 → maxport ≤ 65535 →
  ∀ (fuel : nat) (port : Z) (s : state) (o : outcome Z) (s' : state),
    INT_MIN ≤ port →
    probe_ports E fuel port maxport size s = (o, s') →
    ∃ k : nat,
      (∀ j, (j < k)%nat → port_busy E port size maxport j)
      ∧ nctx s' = nctx s
      ∧ let p := stride_port port size k in
        (port_free E port size maxport k ∧ o = Ret p
         ∧ trace s' = trace s ++ probe_events port size (S k))
        ∨ (p > maxport ∧ o = Ret p
           ∧ trace s' = trace s ++ probe_events port size k)
        ∨ (p ≤ maxport ∧ socket_fd E p = -1 ∧ o = Abort "socket"
           ∧ trace s' = trace s ++ probe_events port size k ++ [EvSocket])
        ∨ (o = Stuck ∧ k = fuel).
Proof.
  intros Hsize Hmax.
  induction fuel as [|fuel IH]; intros port s o s' Hport Hrun; cbn [probe_ports] in Hrun.
  - injection Hrun as <- <-. exists 0%nat. split; [lia|]. split; [done|].
    right. right. right. done.
  - destruct (decide (port ≤ maxport)) as [Hle|Hgt].
    2:{ injection Hrun as <- <-. exists 0%nat. split; [lia|]. split; [done|].
        rewrite stride_port_0. right. left. simpl. rewrite app_nil_r.
        split; [lia|done]. }
    rewrite run_bind, run_emit in Hrun.
    destruct (decide (socket_fd E port ≠ -1)) as [Hso|Hso].
    2:{ injection Hrun as <- <-. exists 0%nat. split; [lia|]. split; [done|].
        rewrite stride_port_0. right. right. left. simpl.
        split; [done|]. split; [|done].
        destruct (decide (socket_fd E port = -1)); [done|]. by destruct Hso. }
    rewrite run_bind, run_emit in Hrun.
    destruct (decide (bind_ret E port = 0)) as [Hb|Hb].
    + injection Hrun as <- <-. exists 0%nat. split; [lia|]. split; [done|].
      rewrite stride_port_0. left. simpl. rewrite <- app_assoc.
      split; [|done]. unfold port_free. by rewrite stride_port_0.
    + unfold int_add in Hrun. unfold INT_MIN in Hport.
      rewrite wrap_int_id in Hrun by (unfold INT_MIN, INT_MAX; lia).
      apply IH in Hrun; [|unfold INT_MIN; lia].
      destruct Hrun as (k & Hbusy & Hctx & Hcases).
      exists (S k). split; [|split; [done|]].
      * intros [|j] Hj.
        -- unfold port_busy. by rewrite stride_port_0.
        -- unfold port_busy. rewrite stride_port_S. apply Hbusy. lia.
      * simpl in Hcases. rewrite <- !app_assoc in Hcases. simpl in Hcases.
        cbv zeta. rewrite stride_port_S.
        destruct Hcases as [(Hfree & -> & Htr)|[(Hp & -> & Htr)|[(Hp & Hso' & -> & Htr)|[-> ->]]]].
        -- left. split; [|split; [done|]].
           ++ unfold port_free. by rewrite stride_port_S.
           ++ by rewrite Htr.
        -- right. left. repeat split; try done; by rewrite Htr.
        -- right. right. left. repeat split; try done; by rewrite Htr.
        -- right. right. right. done.
Qed.

Lemma first_port_range (E : env) (minport maxport : Z) :
  port_range_ok minport maxport → 0 ≤ MPI_Comm_rank E localcomm →
  minport ≤ first_port E minport maxport ≤ maxport.
Proof.
  intros (Hmin & Hle & Hmax) Hrank. unfold first_port.
  pose proof (Z.mod_pos_bound (MPI_Comm_rank E localcomm) (maxport - minport + 1)
                ltac:(lia)). lia.
Qed.

(** The runs of [prepare_addr] once the interface is found and the range
    is accepted: [k] busy ports of the stride, then a free one, or a socket
    that cannot be opened, or the end of the range and the port of the last
    resort. *)
Lemma choose_port_uri_cases (E : env) (minport maxport : Z) (ip proto : string)
    (s : state) (o : outcome string) (s' : state) :
  port_range_ok minport maxport →
  0 ≤ MPI_Comm_rank E localcomm →
  1 ≤ MPI_Comm_size E localcomm ≤ 2 ^ 30 →
  choose_port_uri E minport maxport ip proto s = (o, s') →
  let start := first_port E minport maxport in
  let size := MPI_Comm_size E localcomm in
  ∃ k : nat,
    (∀ j, (j < k)%nat → port_busy E start size maxport j)
    ∧ nctx s' = nctx s
    ∧ let tr := trace s ++ [EvCommRank localcomm; EvCommSize localcomm] in
      let p := stride_port start size k in
      (port_free E start size maxport k ∧ o = uri_result proto ip p
       ∧ trace s' = tr ++ probe_events start size (S k))
      ∨ (p ≤ maxport ∧ socket_fd E p = -1 ∧ o = Abort "socket"
         ∧ trace s' = tr ++ probe_events start size k ++ [EvSocket])
      ∨ (p > maxport
         ∧ o = match (auto_port E).2 with
               | None => Abort "socket"
               | Some port => uri_result proto ip port
               end
         ∧ trace s' = tr ++ probe_events start size k ++ (auto_port E).1).
Proof.
  intros Hok Hrank Hsize Hrun start size.
  pose proof (first_port_range E minport maxport Hok Hrank) as Hstart.
  destruct Hok as (Hmin & Hle & Hmax).
  unfold choose_port_uri in Hrun.
  do 2 (rewrite run_bind, run_emit in Hrun; cbv beta zeta in Hrun).
  cbn [nctx trace] in Hrun. rewrite <- app_assoc in Hrun. cbn [app] in Hrun.
  rewrite run_bind in Hrun.
  unfold int_add at 1, int_sub in Hrun.
  rewrite (wrap_int_id (1 + maxport)) in Hrun by (unfold INT_MIN, INT_MAX; lia).
  rewrite (wrap_int_id (1 + maxport - minport)) in Hrun by (unfold INT_MIN, INT_MAX; lia).
  unfold int_rem in Hrun. rewrite decide_False in Hrun by lia.
  cbn [from_option] in Hrun. change (ret ?a ?s) with (Ret a, s) in Hrun.
  cbv beta iota zeta in Hrun.
  rewrite Z.rem_mod_nonneg in Hrun by lia.
  replace (1 + maxport - minport) with (maxport - minport + 1) in Hrun by lia.
  unfold int_add in Hrun.
  rewrite wrap_int_id in Hrun by (unfold first_port in Hstart; unfold INT_MIN, INT_MAX; lia).
  fold (first_port E minport maxport) in Hrun. fold start in Hrun. fold size in Hrun.
  rewrite run_bind in Hrun.
  destruct (probe_ports E _ start maxport size _) as [o1 s1] eqn:Hprobe.
  pose proof (probe_ports_fuel E start maxport size
                (mk_state (nctx s) (trace s ++ [EvCommRank localcomm; EvCommSize localcomm]))
                Hsize ltac:(unfold INT_MIN; lia) Hmax) as Hfuel.
  rewrite Hprobe in Hfuel. simpl in Hfuel.
  apply (probe_ports_run E size maxport Hsize Hmax) in Hprobe; [|unfold INT_MIN; lia].
  destruct Hprobe as (k & Hbusy & Hctx & Hcases). simpl in Hctx, Hcases.
  exists k. split; [done|].
  destruct Hcases as [(Hfree & -> & Htr)|[(Hp & -> & Htr)|[(Hp & Hso & -> & Htr)|[-> _]]]];
    [| | |done].
  - (* a free port *)
    destruct Hfree as (Hp & Hso & Hb).
    assert (start ≤ stride_port start size k) as Hge by (unfold stride_port; nia).
    rewrite decide_False in Hrun by lia.
    rewrite run_bind in Hrun. simpl in Hrun. rewrite run_bind in Hrun.
    rewrite bool_decide_eq_false_2 in Hrun by lia. simpl in Hrun.
    assert (nctx s' = nctx s ∧ o = uri_result proto ip (stride_port start size k)
            ∧ trace s' = trace s1) as (Hc & Ho & Ht).
    { unfold uri_result, port_uri. rewrite decide_False by lia.
      case_decide; injection Hrun as <- <-; done. }
    split; [done|]. left. split; [done|]. split; [done|]. by rewrite Ht.
  - (* the end of the range *)
    rewrite decide_True in Hrun by done.
    assert (nctx s' = nctx s
            ∧ o = match (auto_port E).2 with
                  | None => Abort "socket"
                  | Some port => uri_result proto ip port
                  end
            ∧ trace s' = trace s1 ++ (auto_port E).1) as (Hc & Ho & Ht).
    { unfold auto_port. rewrite run_bind in Hrun. rewrite run_bind, run_emit in Hrun.
      destruct (decide (auto_socket_fd E = -1)) as [Hso|Hso].
      - rewrite decide_False in Hrun by (by intros []). by injection Hrun as <- <-.
      - rewrite decide_True in Hrun by done.
        rewrite run_bind, run_emit in Hrun.
        assert (∀ (port : Z) (s2 : state),
                  (when_ (bool_decide (port = 0)) (msg_abort "no free ports");;
                   (let uri := proto +:+ "://" +:+ ip +:+ ":" +:+ pretty port in
                    if decide (Z.of_nat (String.length uri) < HGADDR_SIZE)
                    then mret uri else stuck)) s2
                  = (uri_result proto ip port, s2)) as Hend.
        { intros port s2. rewrite run_bind. unfold uri_result, port_uri.
          destruct (decide (port = 0)) as [->|Hp0]; [done|].
          rewrite bool_decide_eq_false_2 by done. simpl.
          by destruct (decide (_ < HGADDR_SIZE)). }
        destruct (decide (auto_bind_ret E ≠ 0)) as [Hb|Hb].
        + rewrite decide_False in Hrun by done.
          simpl in Hrun. rewrite Hend in Hrun. injection Hrun as <- <-. simpl.
          by rewrite <- !app_assoc.
        + rewrite decide_True in Hrun by (by destruct (decide (auto_bind_ret E = 0)); [|destruct Hb]).
          rewrite run_bind, run_emit in Hrun.
          destruct (decide ((auto_getsockname E).1 = 0)) as [Hg|Hg].
          * simpl in Hrun. rewrite Hend in Hrun. injection Hrun as <- <-. simpl.
            by rewrite <- !app_assoc.
          * simpl in Hrun. rewrite Hend in Hrun. injection Hrun as <- <-. simpl.
            by rewrite <- !app_assoc. }
    split; [done|]. right. right. split; [done|]. split; [done|].
    rewrite Ht, Htr. by rewrite <- !app_assoc.
  - (* a socket that cannot be opened *)
    injection Hrun as <- <-. split; [done|]. right. left.
    repeat split; try done; rewrite Htr; by rewrite <- !app_assoc.
Qed.

Lemma new_events_app (s s' : state) (evs : list event) :
  trace s' = trace s ++ evs → new_events s s' = evs.
Proof. intros Htr. unfold new_events. by rewrite Htr, drop_app_length. Qed.

(** *** The runs of [prepare_addr] *)

(** With a matching interface and a port range that passes the checks,
    [prepare_addr] goes on to choose a port. *)
Lemma prepare_addr_to_choose (E : env) (minport maxport : Z) (subnet proto : string)
    (l : list ifaddr) (host : string) (s : state) :
  getifaddrs E = Some l → first_match subnet l host →
  port_range_ok minport maxport →
  ∃ n, prepare_addr E minport maxport subnet proto s
       = choose_port_uri E minport maxport host proto
           (mk_state (nctx s) (trace s ++ EvGetifaddrs :: replicate n EvGetnameinfo)).
Proof.
  intros Hl Hmatch (Hmin & Hle & Hmax).
  change (prepare_addr E minport maxport subnet proto)
    with (emit EvGetifaddrs;;
          ifaddr ← match getifaddrs E with
                   | None => msg_abort "getifaddrs failed"
                   | Some l => mret l
                   end;
          found ← scan_ifaddrs subnet ifaddr (ip_garbage E);
          when_ (negb found.1) (msg_abort "no ip addr");;
          when_ (bool_decide (int_sub maxport minport < 0)) (msg_abort "bad min-max port");;
          when_ (bool_decide (minport < 1)) (msg_abort "bad min port");;
          when_ (bool_decide (maxport > 65535)) (msg_abort "bad max port");;
          choose_port_uri E minport maxport found.2 proto).
  rewrite run_bind, run_emit, run_bind. rewrite Hl. simpl.
  rewrite run_bind.
  destruct (scan_ifaddrs_first_match subnet l (ip_garbage E) host
              (mk_state (nctx s) (trace s ++ [EvGetifaddrs])) Hmatch) as (n & ->).
  exists n. simpl. rewrite <- app_assoc. simpl.
  rewrite run_bind. simpl.
  unfold int_sub. rewrite wrap_int_id by (unfold INT_MIN, INT_MAX; lia).
  rewrite run_bind, bool_decide_eq_false_2 by lia. simpl.
  rewrite run_bind, bool_decide_eq_false_2 by lia. simpl.
  rewrite run_bind, bool_decide_eq_false_2 by lia. simpl.
  reflexivity.
Qed.

(** A run of [prepare_addr] either aborts before it queries its local
    rank, or has found an interface, accepted the range, and chooses a
    port. *)
Lemma prepare_addr_inv (E : env) (minport maxport : Z) (subnet proto : string)
    (s : state) (o : outcome string) (s' : state) :
  INT_MIN ≤ maxport - minport →
  prepare_addr E minport maxport subnet proto s = (o, s') →
  ∃ n, let s1 := mk_state (nctx s) (trace s ++ EvGetifaddrs :: replicate n EvGetnameinfo) in
       (∃ msg, o = Abort msg ∧ s' = s1)
       ∨ (∃ l host, getifaddrs E = Some l ∧ first_match subnet l host
                    ∧ port_range_ok minport maxport
                    ∧ choose_port_uri E minport maxport host proto s1 = (o, s')).
Proof.
  intros Hsub Hrun.
  change (prepare_addr E minport maxport subnet proto)
    with (emit EvGetifaddrs;;
          ifaddr ← match getifaddrs E with
                   | None => msg_abort "getifaddrs failed"
                   | Some l => mret l
                   end;
          found ← scan_ifaddrs subnet ifaddr (ip_garbage E);
          when_ (negb found.1) (msg_abort "no ip addr");;
          when_ (bool_decide (int_sub maxport minport < 0)) (msg_abort "bad min-max port");;
          when_ (bool_decide (minport < 1)) (msg_abort "bad min port");;
          when_ (bool_decide (maxport > 65535)) (msg_abort "bad max port");;
          choose_port_uri E minport maxport found.2 proto) in Hrun.
  rewrite run_bind, run_emit, run_bind in Hrun.
  destruct (getifaddrs E) as [l|] eqn:Hl; simpl in Hrun;
    [|injection Hrun as <- <-; exists 0%nat; left; by eexists].
  rewrite run_bind in Hrun.
  destruct (scan_ifaddrs_run subnet l (ip_garbage E)
              (mk_state (nctx s) (trace s ++ [EvGetifaddrs]))) as (o1 & n & Heq & Ho1).
  rewrite Heq in Hrun. simpl in Heq, Hrun.
  rewrite <- app_assoc in Heq, Hrun. simpl in Heq, Hrun.
  exists n.
  destruct o1 as [[found ip]|msg|]; [|injection Hrun as <- <-; left; by eexists|done].
  apply scan_ifaddrs_inv in Heq.
  rewrite run_bind in Hrun.
  destruct found; simpl in Hrun; [|injection Hrun as <- <-; left; by eexists].
  rewrite run_bind in Hrun.
  case_bool_decide as H1; simpl in Hrun; [injection Hrun as <- <-; left; by eexists|].
  rewrite run_bind in Hrun.
  case_bool_decide as H2; simpl in Hrun; [injection Hrun as <- <-; left; by eexists|].
  rewrite run_bind in Hrun.
  case_bool_decide as H3; simpl in Hrun; [injection Hrun as <- <-; left; by eexists|].
  right. exists l, ip. split; [done|]. split; [done|]. split; [|done].
  unfold int_sub in H1. unfold port_range_ok.
  destruct (decide (maxport - minport ≤ INT_MAX)) as [Hle|Hgt].
  - rewrite wrap_int_id in H1 by lia. lia.
  - unfold INT_MAX in Hgt. lia.
Qed.



(** The outcome of the probe is decided by the first port of the stride
    that is not busy. *)
Lemma choose_port_uri_free (E : env) (minport maxport : Z) (ip proto : string)
    (s : state) (k : nat) :
  port_range_ok minport maxport →
  0 ≤ MPI_Comm_rank E localcomm →
  1 ≤ MPI_Comm_size E localcomm ≤ 2 ^ 30 →
  let start := first_port E minport maxport in
  let size := MPI_Comm_size E localcomm in
  (∀ j, (j < k)%nat → port_busy E start size maxport j) →
  port_free E start size maxport k →
  choose_port_uri E minport maxport ip proto s
  = (uri_result proto ip (stride_port start size k),
     mk_state (nctx s)
       (trace s ++ [EvCommRank localcomm; EvCommSize localcomm]
                ++ probe_events start size (S k))).
Proof.
  intros Hok Hrank Hsize start size Hbusy (Hp & Hso & Hb).
  destruct (choose_port_uri E minport maxport ip proto s) as [o s'] eqn:Hrun.
  apply choose_port_uri_cases in Hrun; [|done..].
  destruct Hrun as (k' & Hbusy' & Hctx & Hcases). fold start size in Hbusy', Hcases.
  assert (k' = k) as ->.
  { destruct (Nat.lt_trichotomy k' k) as [Hlt|[->|Hgt]]; [|done|].
    - destruct (Hbusy k' Hlt) as (Hp' & Hso' & Hb').
      destruct Hcases as [((_ & _ & ?) & _)|[(_ & ? & _)|(? & _)]]; [done|done|lia].
    - by destruct (Hbusy' k Hgt) as (_ & _ & ?). }
  destruct Hcases as [(_ & -> & Htr)|[(_ & ? & _)|(? & _)]]; [|done|lia].
  destruct s' as [c' tr']. simpl in *. subst. by rewrite <- app_assoc.
Qed.

Lemma choose_port_uri_exhausted (E : env) (minport maxport : Z) (ip proto : string)
    (s : state) :
  port_range_ok minport maxport →
  0 ≤ MPI_Comm_rank E localcomm →
  1 ≤ MPI_Comm_size E localcomm ≤ 2 ^ 30 →
  let start := first_port E minport maxport in
  let size := MPI_Comm_size E localcomm in
  (∀ j, stride_port start size j ≤ maxport → port_busy E start size maxport j) →
  (choose_port_uri E minport maxport ip proto s).1
  = match (auto_port E).2 with
    | None => Abort "socket"
    | Some port => uri_result proto ip port
    end.
Proof.
  intros Hok Hrank Hsize start size Hbusy.
  destruct (choose_port_uri E minport maxport ip proto s) as [o s'] eqn:Hrun.
  apply choose_port_uri_cases in Hrun; [|done..].
  destruct Hrun as (k & _ & _ & Hcases). fold start size in Hcases. simpl.
  destruct Hcases as [((Hp & _ & Hb) & _)|[(Hp & Hso & _)|(_ & -> & _)]]; [| |done].
  - by destruct (Hbusy k Hp) as (_ & _ & ?).
  - by destruct (Hbusy k Hp) as (_ & ? & _).
Qed.

(** The ports [prepare_addr] binds, whatever its outcome: port 0 for the
    port of the last resort, ports of the caller's stride otherwise. *)
Lemma prepare_addr_binds (E : env) (minport maxport : Z) (subnet proto : string)
    (s : state) (p : Z) :
  INT_MIN ≤ maxport - minport →
  0 ≤ MPI_Comm_rank E localcomm →
  1 ≤ MPI_Comm_size E localcomm ≤ 2 ^ 30 →
  EvBind p ∈ new_events s (prepare_addr E minport maxport subnet proto s).2 →
  p = 0
  ∨ (port_range_ok minport maxport
     ∧ ∃ j, p = stride_port (first_port E minport maxport) (MPI_Comm_size E localcomm) j).
Proof.
  intros Hsub Hrank Hsize Hin.
  destruct (prepare_addr E minport maxport subnet proto s) as [o s'] eqn:Hrun.
  apply prepare_addr_inv in Hrun as (n & Hcases); [|done]. simpl in Hin, Hcases.
  assert (EvBind p ∉ EvGetifaddrs :: replicate n EvGetnameinfo) as Hpre.
  { intros [?|[? _]%elem_of_replicate]%elem_of_cons; done. }
  destruct Hcases as [(msg & -> & ->)|(l & host & _ & _ & Hok & Hrun)].
  - rewrite (new_events_app s _ (EvGetifaddrs :: replicate n EvGetnameinfo)) in Hin by done.
    done.
  - apply choose_port_uri_cases in Hrun; [|done..].
    destruct Hrun as (k & _ & _ & Hcases). simpl in Hcases.
    set (start := first_port E minport maxport) in *.
    set (size := MPI_Comm_size E localcomm) in *.
    assert (∃ k' tl, trace s' = trace s ++ (EvGetifaddrs :: replicate n EvGetnameinfo)
                                ++ [EvCommRank localcomm; EvCommSize localcomm]
                                ++ probe_events start size k' ++ tl
                     ∧ (EvBind p ∈ tl → p = 0)) as (k' & tl & Htr & Htl).
    { destruct Hcases as [(_ & _ & Htr)|[(_ & _ & _ & Htr)|(_ & _ & Htr)]].
      - exists (S k), []. rewrite Htr, app_nil_r, <- !app_assoc. split; [done|].
        by intros ?%elem_of_nil.
      - exists k, [EvSocket]. rewrite Htr, <- !app_assoc. split; [done|].
        by intros [=]%list_elem_of_singleton.
      - exists k, (auto_port E).1. rewrite Htr, <- !app_assoc. split; [done|].
        unfold auto_port. repeat case_decide; simpl;
          rewrite list_elem_of_In; simpl; intros Hor; decompose [or] Hor;
          by simplify_eq. }
    rewrite (new_events_app s s' _ Htr) in Hin.
    apply elem_of_app in Hin as [Hin|Hin]; [done|].
    apply elem_of_app in Hin as [Hin|Hin];
      [apply list_elem_of_In in Hin; simpl in Hin; decompose [or] Hin; done|].
    apply elem_of_app in Hin as [Hin|Hin].
    + apply elem_of_probe_events in Hin as [?|(j & _ & [= ->])]; [done|].
      right. split; [done|]. by exists j.
    + left. by apply Htl.
Qed.

(** *** The interface [prepare_addr] selects *)

Lemma node_a_first_match : first_match "10.0" node_a_ifaddrs "10.0.0.1".
Proof.
  exists (take 3 node_a_ifaddrs), (mk_ifaddr (Some (AF_INET, (0, "10.0.0.1")))), [].
  split; [done|]. split.
  - repeat constructor; by vm_compute.
  - exists 0. by vm_compute.
Qed.

(** X1. The scan of the interface list stops with [cur != NULL] exactly
    at the first interface that has an AF_INET address whose numeric host
    starts with [subnet]: the interfaces before it have no address, another
    family, or a host that does not match. *)
Theorem scan_ifaddrs_selects_first_match (subnet : string) (l : list ifaddr)
    (ip : string) (s : state) (host : string) :
  (∃ s', scan_ifaddrs subnet l ip s = (Ret (true, host), s'))
  ↔ first_match subnet l host.
Proof.
  split.
  - intros [s' Hrun]. by apply scan_ifaddrs_inv in Hrun.
  - intros Hm. destruct (scan_ifaddrs_first_match subnet l ip host s Hm) as [n Hn].
    eauto.
Qed.

(** X2. Without an interface that matches [subnet] (an empty list
    included) [prepare_addr] aborts with "no ip addr" whatever the port
    range, before it looks at the ports and without opening a socket. *)
Theorem prepare_addr_needs_matching_interface (E : env) (minport maxport : Z)
    (subnet proto : string) (s : state) (l : list ifaddr) :
  getifaddrs E = Some l →
  Forall (iface_skipped subnet) l →
  ∃ n, prepare_addr E minport maxport subnet proto s
       = (Abort "no ip addr",
          mk_state (nctx s) (trace s ++ EvGetifaddrs :: replicate n EvGetnameinfo)).
Proof.
  intros Hl Hskip. unfold prepare_addr.
  rewrite run_bind, run_emit, run_bind. rewrite Hl. simpl. rewrite run_bind.
  destruct (scan_ifaddrs_no_match subnet l (ip_garbage E)
              (mk_state (nctx s) (trace s ++ [EvGetifaddrs])) Hskip) as (ip' & n & ->).
  exists n. simpl. by rewrite <- app_assoc.
Qed.

Lemma prepare_addr_needs_matching_interface_witness :
  ∃ n, prepare_addr rank0_env 5000 5010 "192.168" "tcp" fresh_state
       = (Abort "no ip addr",
          mk_state fresh_ctx (EvGetifaddrs :: replicate n EvGetnameinfo)).
Proof.
  apply (prepare_addr_needs_matching_interface rank0_env 5000 5010 "192.168" "tcp"
           fresh_state node_a_ifaddrs).
  - reflexivity.
  - repeat constructor; by vm_compute.
Defined.

(** *** The port [prepare_addr] chooses *)



(** X4. With a matching interface and a valid range, when the [k]-th port
    of the caller's stride is the first that can be bound (the [k] before
    it are busy) and the URI fits the caller's buffer, [prepare_addr]
    returns [proto://host:port] for that port, having probed exactly the
    ports of the stride up to it, each with one socket and one bind. *)
Theorem prepare_addr_takes_first_free_port (E : env) (minport maxport : Z)
    (subnet proto : string) (s : state) (l : list ifaddr) (host : string) (k : nat) :
  getifaddrs E = Some l → first_match subnet l host →
  port_range_ok minport maxport →
  0 ≤ MPI_Comm_rank E localcomm →
  1 ≤ MPI_Comm_size E localcomm ≤ 2 ^ 30 →
  let start := first_port E minport maxport in
  let size := MPI_Comm_size E localcomm in
  (∀ j, (j < k)%nat → port_busy E start size maxport j) →
  port_free E start size maxport k →
  Z.of_nat (String.length (port_uri proto host (stride_port start size k))) < HGADDR_SIZE →
  ∃ n, prepare_addr E minport maxport subnet proto s
       = (Ret (port_uri proto host (stride_port start size k)),
          mk_state (nctx s)
            (trace s ++ EvGetifaddrs :: replicate n EvGetnameinfo
                     ++ [EvCommRank localcomm; EvCommSize localcomm]
                     ++ probe_events start size (S k))).
Proof.
  intros Hl Hm Hok Hrank Hsize start size Hbusy Hfree Hlen.
  destruct (prepare_addr_to_choose E minport maxport subnet proto l host s Hl Hm Hok)
    as (n & ->).
  exists n. rewrite (choose_port_uri_free E minport maxport host proto _ k) by done.
  fold start size. simpl. f_equal.
  - unfold uri_result. rewrite decide_False, decide_True; [done|done|].
    destruct Hfree as (_ & _ & _). destruct Hok as (? & ? & ?).
    pose proof (first_port_range E minport maxport ltac:(by repeat split) Hrank).
    fold start in H2. unfold stride_port. nia.
  - f_equal. by rewrite <- app_assoc.
Qed.

Lemma prepare_addr_takes_first_free_port_witness :
  ∃ n, prepare_addr rank1_env 5000 5010 "10.0" "tcp" fresh_state
       = (Ret (port_uri "tcp" "10.0.0.1" (stride_port (first_port rank1_env 5000 5010) 2 0)),
          mk_state fresh_ctx
            (EvGetifaddrs :: replicate n EvGetnameinfo
               ++ [EvCommRank localcomm; EvCommSize localcomm]
               ++ probe_events (first_port rank1_env 5000 5010) 2 1)).
Proof.
  apply (prepare_addr_takes_first_free_port rank1_env 5000 5010 "10.0" "tcp" fresh_state
           node_a_ifaddrs "10.0.0.1" 0).
  - reflexivity.
  - exact node_a_first_match.
  - by vm_compute.
  - by vm_compute.
  - by vm_compute.
  - intros j Hj. lia.
  - by vm_compute.
  - by vm_compute.
Defined.

(** X5. With a matching interface and a valid range, when every port of
    the caller's stride within the range is busy, [prepare_addr] binds a
    socket to port 0 and reads the port back: it returns the URI with the
    port the system assigned, and aborts with "no free ports" when the
    bind or [getsockname] fails or the port read back is 0. *)
Theorem prepare_addr_falls_back_to_system_port (E : env) (minport maxport : Z)
    (subnet proto : string) (s : state) (l : list ifaddr) (host : string) :
  getifaddrs E = Some l → first_match subnet l host →
  port_range_ok minport maxport →
  0 ≤ MPI_Comm_rank E localcomm →
  1 ≤ MPI_Comm_size E localcomm ≤ 2 ^ 30 →
  let start := first_port E minport maxport in
  let size := MPI_Comm_size E localcomm in
  (∀ j, stride_port start size j ≤ maxport → port_busy E start size maxport j) →
  auto_socket_fd E ≠ -1 →
  let port := (auto_getsockname E).2 in
  (auto_bind_ret E = 0 → (auto_getsockname E).1 = 0 → port ≠ 0 →
   Z.of_nat (String.length (port_uri proto host port)) < HGADDR_SIZE →
   (prepare_addr E minport maxport subnet proto s).1 = Ret (port_uri proto host port))
  ∧ (auto_bind_ret E ≠ 0 ∨ (auto_getsockname E).1 ≠ 0 ∨ port = 0 →
     (prepare_addr E minport maxport subnet proto s).1 = Abort "no free ports").
Proof.
  intros Hl Hm Hok Hrank Hsize start size Hbusy Hso port.
  destruct (prepare_addr_to_choose E minport maxport subnet proto l host s Hl Hm Hok)
    as (n & ->).
  rewrite choose_port_uri_exhausted by done.
  unfold auto_port. rewrite decide_False by done. split.
  - intros Hb Hg Hp Hlen.
    rewrite decide_False by (by intros []). simpl.
    rewrite decide_True by done. fold port.
    unfold uri_result. by rewrite decide_False, decide_True.
  - intros Hfail. unfold uri_result.
    destruct (decide (auto_bind_ret E ≠ 0)) as [Hb|Hb]; simpl; [done|].
    destruct (decide ((auto_getsockname E).1 = 0)) as [Hg|Hg]; [|done].
    rewrite decide_True; [done|].
    destruct Hfail as [?|[?|?]]; [|done..]. by destruct Hb.
Qed.

Lemma prepare_addr_falls_back_to_system_port_witness :
  (prepare_addr rank0_env_ports_taken 5000 5010 "10.0" "tcp" fresh_state).1
  = Ret "tcp://10.0.0.1:40000".
Proof.
  refine (proj1 (prepare_addr_falls_back_to_system_port rank0_env_ports_taken
                   5000 5010 "10.0" "tcp" fresh_state node_a_ifaddrs "10.0.0.1"
                   _ _ _ _ _ _ _) _ _ _ _).
  - reflexivity.
  - exists (take 3 node_a_ifaddrs), (mk_ifaddr (Some (AF_INET, (0, "10.0.0.1")))), [].
    split; [done|]. split; [repeat constructor; by vm_compute|].
    exists 0. by vm_compute.
  - by vm_compute.
  - by vm_compute.
  - by vm_compute.
  - intros j Hj. unfold port_busy. split; [done|]. by vm_compute.
  - by vm_compute.
  - reflexivity.
  - reflexivity.
  - by vm_compute.
  - by vm_compute.
Defined.

(** X6. Two processes of a node whose local group is no larger than the
    port range never probe the same port of the range: each tries only
    the ports [minport + rank + j * size], and these differ between two
    local ranks.  (Port 0, bound for the port of the last resort, is the
    only bind they can have in common.) *)
Theorem colocated_ranks_probe_distinct_ports (E1 E2 : env) (minport maxport : Z)
    (subnet proto : string) (s1 s2 : state) (p : Z) :
  let size := MPI_Comm_size E1 localcomm in
  MPI_Comm_size E2 localcomm = size →
  size ≤ 2 ^ 30 → size ≤ maxport - minport + 1 →
  0 ≤ MPI_Comm_rank E1 localcomm < size →
  0 ≤ MPI_Comm_rank E2 localcomm < size →
  MPI_Comm_rank E1 localcomm ≠ MPI_Comm_rank E2 localcomm →
  p ≠ 0 →
  ¬ (EvBind p ∈ new_events s1 (prepare_addr E1 minport maxport subnet proto s1).2
     ∧ EvBind p ∈ new_events s2 (prepare_addr E2 minport maxport subnet proto s2).2).
Proof.
  intros size Hsz Hsize Hfit Hr1 Hr2 Hne Hp [Hin1 Hin2].
  apply prepare_addr_binds in Hin1 as [?|(_ & j1 & Hp1)];
    [done| |unfold INT_MIN; lia|lia|fold size; lia].
  apply prepare_addr_binds in Hin2 as [?|(_ & j2 & Hp2)];
    [done| |unfold INT_MIN; lia|lia|rewrite Hsz; lia].
  rewrite Hsz in Hp2. fold size in Hp1.
  unfold stride_port, first_port in Hp1, Hp2.
  rewrite Z.mod_small in Hp1, Hp2 by lia.
  assert (MPI_Comm_rank E1 localcomm - MPI_Comm_rank E2 localcomm
          = (Z.of_nat j2 - Z.of_nat j1) * size) as Hdiff by lia.
  assert (Z.of_nat j2 - Z.of_nat j1 = 0) by nia.
  nia.
Qed.

Lemma colocated_ranks_probe_distinct_ports_witness :
  ¬ (EvBind 5000 ∈ new_events fresh_state
                     (prepare_addr rank0_env 5000 5010 "10.0" "tcp" fresh_state).2
     ∧ EvBind 5000 ∈ new_events fresh_state
                       (prepare_addr rank1_env 5000 5010 "10.0" "tcp" fresh_state).2).
Proof.
  apply (colocated_ranks_probe_distinct_ports rank0_env rank1_env 5000 5010 "10.0" "tcp"
           fresh_state fresh_state 5000).
  - reflexivity.
  - by vm_compute.
  - by vm_compute.
  - by vm_compute.
  - by vm_compute.
  - by vm_compute.
  - done.
Defined.

(** ** [hg_lookup] *)



(** ** The two discoveries *)

(** *** What a computation leaves alone *)

Section keeps.
Context {B : Type} (f : nexus_ctx → B).

Lemma keeps_of_keeps_ctx {A : Type} (m : M A) : keeps_ctx m → keeps f m.
Proof. intros Hm s o s' Hrun. by rewrite (Hm s o s' Hrun). Qed.

Lemma keeps_ret {A : Type} (a : A) : keeps f (mret a).
Proof. apply keeps_of_keeps_ctx, keeps_ctx_ret. Qed.

Lemma keeps_abort {A : Type} (msg : string) : keeps f (@msg_abort A msg).
Proof. apply keeps_of_keeps_ctx, keeps_ctx_abort. Qed.

Lemma keeps_stuck {A : Type} : keeps f (@stuck A).
Proof. apply keeps_of_keeps_ctx, keeps_ctx_stuck. Qed.

Lemma keeps_emit (e : event) : keeps f (emit e).
Proof. apply keeps_of_keeps_ctx, keeps_ctx_emit. Qed.

Lemma keeps_get_ctx : keeps f get_ctx.
Proof. by intros s o s' [= <- <-]. Qed.

Lemma keeps_from_option {A : Type} (o : option A) : keeps f (from_option o).
Proof. destruct o; [apply keeps_ret|apply keeps_stuck]. Qed.

Lemma keeps_modify_ctx (g : nexus_ctx → nexus_ctx) :
  (∀ c, f (g c) = f c) → keeps f (modify_ctx g).
Proof. intros Hg s o s' [= <- <-]. apply Hg. Qed.

Lemma keeps_bind {A C : Type} (m : M A) (k : A → M C) :
  keeps f m → (∀ a, keeps f (k a)) → keeps f (m ≫= k).
Proof.
  intros Hm Hk s o s' Hrun. rewrite run_bind in Hrun.
  destruct (m s) as [[a|msg|] s1] eqn:Hms.
  - rewrite (Hk a s1 o s' Hrun). by apply (Hm s (Ret a)).
  - injection Hrun as <- <-. by apply (Hm s (Abort msg)).
  - injection Hrun as <- <-. by apply (Hm s Stuck).
Qed.

Lemma keeps_when (b : bool) (m : M unit) : keeps f m → keeps f (when_ b m).
Proof. destruct b; [done|intros _; apply keeps_ret]. Qed.

Lemma keeps_for_each {A : Type} (l : list A) (body : A → M unit) :
  (∀ a, keeps f (body a)) → keeps f (for_each l body).
Proof.
  intros Hbody. induction l as [|a l IH]; simpl; [apply keeps_ret|].
  apply keeps_bind; [apply Hbody|done].
Qed.

Lemma keeps_hg_lookup (E : env) (ep : endpoint) (hgaddr : string) (addr : hg_addr_t) :
  keeps f (hg_lookup E ep hgaddr addr).
Proof.
  unfold hg_lookup. case_match; [apply keeps_ret|].
  apply keeps_bind; [apply keeps_emit|]. intros _.
  repeat case_decide; apply keeps_ret.
Qed.

Lemma keeps_MPI_Allgather {A : Type} (E : env) (c : comm) (mine : A) (bufs : list A) :
  keeps f (MPI_Allgather E c mine bufs).
Proof.
  unfold MPI_Allgather. apply keeps_bind; [apply keeps_emit|]. intros _.
  case_decide; [apply keeps_ret|apply keeps_stuck].
Qed.
End keeps.

(** The steps of a computation that leave [f] alone, one after the other;
    writes to the context are left for the caller to check. *)
Ltac keeps_steps :=
  repeat first
    [ apply keeps_bind; [|intros ?]
    | apply keeps_emit
    | apply keeps_get_ctx
    | apply keeps_when
    | apply keeps_abort
    | apply keeps_ret
    | apply keeps_stuck
    | apply keeps_from_option
    | apply keeps_hg_lookup
    | apply keeps_MPI_Allgather
    | apply keeps_for_each; intros ?
    | apply keeps_modify_ctx; intros ?
    | progress unfold addr_self, for_upto
    | case_decide ].

Lemma keeps_discover_local_peer {B : Type} (f : nexus_ctx → B) (E : env)
    (hginfo : list ldata_t) (i : Z) :
  (∀ v c, f (set_lroot v c) = f c) →
  (∀ v c, f (set_localranks v c) = f c) →
  (∀ v c, f (set_laddrs v c) = f c) →
  keeps f (discover_local_peer E hginfo i).
Proof. intros H1 H2 H3. unfold discover_local_peer. keeps_steps; done. Qed.

Lemma keeps_discover_remote_peer {B : Type} (f : nexus_ctx → B) (E : env)
    (rank size : Z) (hginfo : list rdata_t) (i : Z) :
  (∀ v c, f (set_gaddrs v c) = f c) →
  keeps f (discover_remote_peer E rank size hginfo i).
Proof. intros H1. unfold discover_remote_peer. keeps_steps; done. Qed.

Lemma discover_local_info_keeps (E : env) :
  keeps rank_part (discover_local_info E) ∧ keeps remote_part (discover_local_info E).
Proof.
  split; unfold discover_local_info; keeps_steps;
    try done; by apply keeps_discover_local_peer.
Qed.

Lemma discover_remote_info_keeps (E : env) (hgaddr : string) :
  keeps rank_part (discover_remote_info E hgaddr)
  ∧ keeps local_part (discover_remote_info E hgaddr).
Proof.
  split; unfold discover_remote_info; keeps_steps;
    try done; by apply keeps_discover_remote_peer.
Qed.

(** *** The calls a computation makes *)

Section emits.
Context (P : event → bool).

Lemma emits_ret {A : Type} (a : A) : emits P (mret a).
Proof. intros s o s' [= <- <-]. exists []. by rewrite app_nil_r. Qed.

Lemma emits_abort {A : Type} (msg : string) : emits P (@msg_abort A msg).
Proof. intros s o s' [= <- <-]. exists []. by rewrite app_nil_r. Qed.

Lemma emits_stuck {A : Type} : emits P (@stuck A).
Proof. intros s o s' [= <- <-]. exists []. by rewrite app_nil_r. Qed.

Lemma emits_get_ctx : emits P get_ctx.
Proof. intros s o s' [= <- <-]. exists []. by rewrite app_nil_r. Qed.

Lemma emits_modify_ctx (g : nexus_ctx → nexus_ctx) : emits P (modify_ctx g).
Proof. intros s o s' [= <- <-]. exists []. simpl. by rewrite app_nil_r. Qed.

Lemma emits_from_option {A : Type} (o : option A) : emits P (from_option o).
Proof. destruct o; [apply emits_ret|apply emits_stuck]. Qed.

Lemma emits_emit (e : event) : P e = true → emits P (emit e).
Proof. intros He s o s' [= <- <-]. exists [e]. split; [done|]. by constructor. Qed.

Lemma emits_bind {A C : Type} (m : M A) (k : A → M C) :
  emits P m → (∀ a, emits P (k a)) → emits P (m ≫= k).
Proof.
  intros Hm Hk s o s' Hrun. rewrite run_bind in Hrun.
  destruct (m s) as [o1 s1] eqn:Hms.
  destruct (Hm s o1 s1 Hms) as (evs1 & Htr1 & Hall1).
  destruct o1 as [a|msg|]; [|injection Hrun as <- <-; eauto..].
  destruct (Hk a s1 o s' Hrun) as (evs2 & Htr2 & Hall2).
  exists (evs1 ++ evs2). rewrite Htr2, Htr1, <- app_assoc. split; [done|].
  by apply Forall_app.
Qed.

Lemma emits_when (b : bool) (m : M unit) : emits P m → emits P (when_ b m).
Proof. destruct b; [done|intros _; apply emits_ret]. Qed.

Lemma emits_for_each {A : Type} (l : list A) (body : A → M unit) :
  (∀ a, emits P (body a)) → emits P (for_each l body).
Proof.
  intros Hbody. induction l as [|a l IH]; simpl; [apply emits_ret|].
  apply emits_bind; [apply Hbody|done].
Qed.

Lemma emits_hg_lookup (E : env) (ep : endpoint) (hgaddr : string) (addr : hg_addr_t) :
  P (EvAddrLookup ep hgaddr) = true → emits P (hg_lookup E ep hgaddr addr).
Proof.
  intros HP. unfold hg_lookup. case_match; [apply emits_ret|].
  apply emits_bind; [by apply emits_emit|]. intros _.
  repeat case_decide; apply emits_ret.
Qed.

Lemma emits_MPI_Allgather {A : Type} (E : env) (c : comm) (mine : A) (bufs : list A) :
  P (EvAllgather c) = true → emits P (MPI_Allgather E c mine bufs).
Proof.
  intros HP. unfold MPI_Allgather. apply emits_bind; [by apply emits_emit|]. intros _.
  case_decide; [apply emits_ret|apply emits_stuck].
Qed.

Lemma emits_scan_ifaddrs (subnet : string) (l : list ifaddr) (ip : string) :
  P EvGetnameinfo = true → emits P (scan_ifaddrs subnet l ip).
Proof.
  intros HP s o s' Hrun.
  destruct (scan_ifaddrs_run subnet l ip s) as (o1 & n & Heq & _).
  rewrite Heq in Hrun. injection Hrun as <- <-.
  exists (replicate n EvGetnameinfo). split; [done|].
  apply Forall_forall. by intros e [-> _]%elem_of_replicate.
Qed.

Lemma emits_probe_ports (E : env) (fuel : nat) (port maxport size : Z) :
  P EvSocket = true → (∀ p, P (EvBind p) = true) →
  emits P (probe_ports E fuel port maxport size).
Proof.
  intros H1 H2. revert port. induction fuel as [|fuel IH]; intros port; simpl.
  - apply emits_stuck.
  - case_decide; [|apply emits_ret].
    apply emits_bind; [by apply emits_emit|]. intros _.
    case_decide; [|apply emits_abort].
    apply emits_bind; [by apply emits_emit|]. intros _.
    case_decide; [apply emits_ret|apply IH].
Qed.
End emits.

(** The steps of a computation whose calls satisfy a predicate that
    computes. *)
Ltac emits_steps :=
  repeat first
    [ apply emits_bind; [|intros ?]
    | apply emits_emit; reflexivity
    | apply emits_get_ctx
    | apply emits_modify_ctx
    | apply emits_when
    | apply emits_abort
    | apply emits_ret
    | apply emits_stuck
    | apply emits_from_option
    | apply emits_hg_lookup; reflexivity
    | apply emits_MPI_Allgather; reflexivity
    | apply emits_scan_ifaddrs; reflexivity
    | apply emits_probe_ports; [reflexivity|intros ?; reflexivity]
    | apply emits_for_each; intros ?
    | progress unfold addr_self, for_upto
    | case_decide
    | case_match ].

Lemma emits_discover_local_info (E : env) :
  emits is_local_phase_op (discover_local_info E).
Proof. unfold discover_local_info, discover_local_peer. emits_steps. Qed.

Lemma emits_prepare_addr (E : env) (minport maxport : Z) (subnet proto : string) :
  emits is_address_phase_op (prepare_addr E minport maxport subnet proto).
Proof. unfold prepare_addr. emits_steps. Qed.

Lemma emits_discover_remote_info (E : env) (hgaddr : string) :
  emits is_remote_phase_op (discover_remote_info E hgaddr).
Proof. unfold discover_remote_info, discover_remote_peer. emits_steps. Qed.

(** A bootstrap that returns has run its three phases to their end, one
    after the other. *)
Lemma bootstrap_returns_phases (E : env) (minport maxport : Z) (subnet proto : string)
    (s : state) (r : nexus_ret_t) (s' : state) :
  nexus_bootstrap E minport maxport subnet proto s = (Ret r, s') →
  ∃ s1 hgaddr s2,
    discover_local_info E (local_discovery_entry E s) = (Ret tt, s1)
    ∧ prepare_addr E minport maxport subnet proto s1 = (Ret hgaddr, s2)
    ∧ discover_remote_info E hgaddr (mk_state (nctx s2) (trace s2 ++ [EvInitRepComm]))
      = (Ret tt, s').
Proof.
  intros Hrun. unfold nexus_bootstrap in Hrun.
  do 2 (rewrite run_bind, run_emit, run_bind in Hrun; simpl in Hrun).
  rewrite run_bind in Hrun. unfold init_local_comm in Hrun.
  rewrite run_bind, run_emit in Hrun.
  destruct (init_local_comm_ok E); simpl in Hrun; [|done].
  rewrite <- !app_assoc in Hrun. simpl in Hrun.
  rewrite run_bind in Hrun. fold (local_discovery_entry E s) in Hrun.
  destruct (discover_local_info E (local_discovery_entry E s)) as [[[]| |] s1];
    [|done|done].
  rewrite run_bind in Hrun.
  destruct (prepare_addr E minport maxport subnet proto s1) as [[hgaddr| |] s2] eqn:Hprep;
    [|done|done].
  rewrite run_bind in Hrun. unfold init_rep_comm in Hrun.
  rewrite run_bind, run_emit in Hrun.
  destruct (init_rep_comm_ok E); simpl in Hrun; [|done].
  rewrite run_bind in Hrun.
  destruct (discover_remote_info E hgaddr _) as [[[]| |] s4] eqn:Hremote;
    [|done|done].
  injection Hrun as <- <-.
  by exists s1, hgaddr, s2.
Qed.

(** *** The local-to-global rank map *)

Lemma localranks_after_length (lr : list Z) (ps : list ldata_t) :
  length (localranks_after lr ps) = length lr.
Proof.
  unfold localranks_after. revert lr.
  induction ps as [|p ps IH]; intros lr; simpl; [done|].
  by rewrite IH, length_insert.
Qed.

Lemma localranks_after_other (lr : list Z) (ps : list ldata_t) (i : nat) :
  Forall (fun p => Z.to_nat (l_lrank p) ≠ i) ps →
  localranks_after lr ps !! i = lr !! i.
Proof.
  unfold localranks_after. revert lr.
  induction ps as [|p ps IH]; intros lr Hall; simpl; [done|].
  apply Forall_cons in Hall as [Hp Hall].
  rewrite IH by done. by rewrite list_lookup_insert_ne.
Qed.

Lemma localranks_after_lookup (lr : list Z) (ps : list ldata_t) (i : nat) (v : Z) :
  (i < length lr)%nat →
  Forall (fun p => Z.to_nat (l_lrank p) = i → l_grank p = v) ps →
  Exists (fun p => Z.to_nat (l_lrank p) = i) ps →
  localranks_after lr ps !! i = Some v.
Proof.
  unfold localranks_after. revert lr.
  induction ps as [|p ps IH]; intros lr Hi Hall Hex; simpl.
  - by apply Exists_nil in Hex.
  - apply Forall_cons in Hall as [Hp Hall].
    destruct (decide (Exists (fun p => Z.to_nat (l_lrank p) = i) ps)) as [Hex'|Hnone].
    + apply IH; [by rewrite length_insert|done|done].
    + apply Exists_cons in Hex as [Hpi|?]; [|done].
      apply not_Exists_Forall in Hnone; [|intros ?; apply _].
      fold (localranks_after (<[Z.to_nat (l_lrank p) := l_grank p]> lr) ps).
      rewrite localranks_after_other by done.
      rewrite Hpi, (Hp Hpi). by apply list_lookup_insert_eq.
Qed.

(** The local loop, when it completes, has stored the global rank of
    every record it visited at the index of the record's local rank. *)
Lemma local_loop_localranks (E : env) (hginfo : list ldata_t) (idxs : list Z)
    (s s' : state) :
  0 ≤ lrank (nctx s) < lsize (nctx s) → lsize (nctx s) ≤ 2 ^ 30 →
  Z.of_nat (length hginfo) = lsize (nctx s) →
  Z.of_nat (length (localranks (nctx s))) = lsize (nctx s) →
  (∀ (j : nat) p, hginfo !! j = Some p → l_lrank p = Z.of_nat j) →
  (∀ i, i ∈ idxs → 0 ≤ i < lsize (nctx s)) →
  for_each idxs (discover_local_peer E hginfo) s = (Ret tt, s') →
  localranks (nctx s')
  = localranks_after (localranks (nctx s))
      ((fun i => hginfo !!! Z.to_nat ((lrank (nctx s) + i) `mod` lsize (nctx s))) <$> idxs).
Proof.
  revert s. induction idxs as [|i idxs IH]; intros s Hr Hs Hlen Hlr Hwf Hidx Hrun.
  - simpl in Hrun. by injection Hrun as <-.
  - simpl in Hrun. rewrite run_bind in Hrun.
    assert (0 ≤ i < lsize (nctx s)) as Hi by (apply Hidx; left).
    pose proof (eff_index_range _ _ i Hr Hi) as Hrange.
    destruct (lookup_lt_is_Some_2 hginfo
                (Z.to_nat ((lrank (nctx s) + i) `mod` lsize (nctx s))))
      as [p Hp]; [lia|].
    pose proof (Hwf _ _ Hp) as Hpl.
    rewrite (discover_local_peer_run E hginfo i p) in Hrun by (done || lia).
    rewrite fmap_cons, (list_lookup_total_correct _ _ _ Hp).
    destruct (note_local_peer_frame p (nctx s))
      as ((Hg & Hgs & Hlrk & Hlsz & Hlen') & Hla & Hlro).
    assert (localranks (note_local_peer p (nctx s))
            = <[Z.to_nat (l_lrank p) := l_grank p]> (localranks (nctx s))) as Hnote
      by (unfold note_local_peer; by destruct (bool_decide _)).
    revert Hrun Hg Hgs Hlrk Hlsz Hlen' Hla Hlro Hnote.
    generalize (note_local_peer p (nctx s)).
    intros c1 Hrun Hg Hgs Hlrk Hlsz Hlen' Hla Hlro Hnote.
    destruct (resolution E EP_LOCAL _ (local_peer p)) as [[evs [h a]]|]; [|done].
    cbv zeta in Hrun. destruct (decide (h = HG_SUCCESS)) as [->|]; [|done].
    apply IH in Hrun.
    + rewrite Hrun. destruct c1; simpl in *. subst. reflexivity.
    + destruct c1; simpl in *. lia.
    + destruct c1; simpl in *. lia.
    + destruct c1; simpl in *. lia.
    + destruct c1; simpl in *. lia.
    + done.
    + intros i' Hi'. destruct c1; simpl in *. subst. apply Hidx. by right.
Qed.

(** The run of a local discovery that returns: the context at the entry
    of the loop, the loop, the teardown. *)
Lemma discover_local_info_loop (E : env) (s s' : state) :
  local_group_ok E (grank (nctx s)) →
  discover_local_info E s = (Ret tt, s') →
  let rank := MPI_Comm_rank E localcomm in
  let size := MPI_Comm_size E localcomm in
  let hgaddr := "na+sm://" +:+ pretty (getpid E) +:+ "/0" in
  ∃ s0 s1,
    nctx s0 = set_localranks (replicate (Z.to_nat size) (heap_garbage E))
                (set_hgctx EP_LOCAL (HG_Context_create E EP_LOCAL)
                   (set_hgcl EP_LOCAL (HG_Init E EP_LOCAL hgaddr)
                      (set_lsize size (set_lrank rank (nctx s)))))
    ∧ HG_Init E EP_LOCAL hgaddr ≠ 0 ∧ HG_Context_create E EP_LOCAL ≠ 0
    ∧ for_each (seqZ 0 size)
               (discover_local_peer E (local_hginfo E (grank (nctx s)))) s0
      = (Ret tt, s1)
    ∧ nctx s' = nctx s1.
Proof.
  intros [Hrank Hsize Hlen Hlrank Hgrank] Hrun rank size hgaddr.
  unfold discover_local_info in Hrun.
  repeat mstep Hrun ltac:(done).
  rewrite run_bind in Hrun. unfold MPI_Allgather in Hrun.
  rewrite run_bind, run_emit in Hrun. rewrite decide_True in Hrun by (split; [lia|done]).
  simpl in Hrun.
  repeat mstep Hrun ltac:(done).
  rewrite run_bind in Hrun. unfold for_upto in Hrun.
  match type of Hrun with
  | (let (_, _) := for_each ?l ?b ?s0 in _) = _ =>
      destruct (for_each l b s0) as [o1 s1] eqn:Hloop; exists s0, s1
  end.
  destruct o1 as [[]| |]; simpl in Hrun; [|done|done].
  repeat mstep Hrun idtac. rewrite run_emit in Hrun. injection Hrun as <-.
  apply bool_decide_eq_false in Hc, Hc0.
  simpl. repeat split; done.
Qed.

Lemma localranks_after_visited (E : env) (g : Z) (lr : list Z) :
  local_group_ok E g →
  Z.of_nat (length lr) = MPI_Comm_size E localcomm →
  localranks_after lr (visited (local_hginfo E g) (MPI_Comm_rank E localcomm)
                               (MPI_Comm_size E localcomm))
  = node_of E g.
Proof.
  intros [Hrank Hsize Hlen Hlrank Hgrank] Hlr.
  assert (length (local_hginfo E g) = length lr) as Hlen'
    by (unfold local_hginfo; rewrite length_insert; lia).
  apply list_eq. intros i. unfold node_of. rewrite list_lookup_fmap.
  destruct (local_hginfo E g !! i) as [p|] eqn:Hp; simpl.
  - pose proof (lookup_lt_Some _ _ _ Hp) as Hi.
    assert (p = local_hginfo E g !!! Z.to_nat (Z.of_nat i)) as Hpi
      by (rewrite Nat2Z.id; symmetry; by apply list_lookup_total_correct).
    apply localranks_after_lookup; [lia| |].
    + apply visited_Forall; [done|]. intros j Hj Hji.
      destruct (lookup_lt_is_Some_2 (local_hginfo E g) (Z.to_nat j)) as [q Hq]; [lia|].
      rewrite (list_lookup_total_correct _ _ _ Hq) in Hji |- *.
      rewrite (Hlrank _ _ Hq) in Hji. rewrite Nat2Z.id in Hji. subst i. congruence.
    + apply Exists_exists. exists p. split.
      * rewrite Hpi. apply list_elem_of_In, list_elem_of_In, visited_elem; [done|lia].
      * rewrite (Hlrank _ _ Hp). lia.
  - apply lookup_ge_None in Hp. apply lookup_ge_None.
    rewrite localranks_after_length. lia.
Qed.

(** X8. A local discovery that returns, in a well-formed local group, has
    written the caller's rank and the size of the local group, non-NULL
    handles of the local Mercury class and context, and the complete
    local-to-global rank map: [localranks[j]] is the global rank of the
    member of local rank [j], for every member (nothing of the fresh
    allocation is left), the caller's own entry being its global rank. *)
Theorem local_discovery_fills_rank_map (E : env) (s s' : state) :
  local_group_ok E (grank (nctx s)) →
  discover_local_info E s = (Ret tt, s') →
  let c' := nctx s' in
  lrank c' = MPI_Comm_rank E localcomm
  ∧ lsize c' = MPI_Comm_size E localcomm
  ∧ local_hgcl c' ≠ 0 ∧ local_hgctx c' ≠ 0
  ∧ localranks c' = node_of E (grank (nctx s))
  ∧ Z.of_nat (length (localranks c')) = lsize c'
  ∧ localranks c' !! Z.to_nat (lrank c') = Some (grank (nctx s)).
Proof.
  intros Hok Hrun c'. pose proof Hok as [Hrank Hsize Hlen Hlrank Hgrank].
  apply discover_local_info_loop in Hrun as (s0 & s1 & Hs0 & Hcl & Hctx & Hloop & Hs');
    [|done].
  assert (keeps (fun c => (lrank c, lsize c, local_hgcl c, local_hgctx c))
            (for_each (seqZ 0 (MPI_Comm_size E localcomm))
               (discover_local_peer E (local_hginfo E (grank (nctx s)))))) as Hkeep
    by (apply keeps_for_each; intros i; by apply keeps_discover_local_peer).
  apply Hkeep in Hloop as Hframe. rewrite Hs0 in Hframe. simpl in Hframe.
  injection Hframe as Hlr Hls Hk1 Hk2.
  assert (localranks c' = node_of E (grank (nctx s))) as Hmap.
  { unfold c'. rewrite Hs'.
    pose proof (local_loop_localranks E (local_hginfo E (grank (nctx s)))
                  (seqZ 0 (MPI_Comm_size E localcomm)) s0 s1) as Hll.
    rewrite Hs0 in Hll. simpl in Hll.
    rewrite Hll;
      [ | lia | lia | unfold local_hginfo; rewrite length_insert; lia
        | rewrite length_replicate; lia | done
        | by intros i Hi%elem_of_seqZ | done ].
    rewrite visited_eff by done.
    apply localranks_after_visited; [done|]. rewrite length_replicate. lia. }
  subst c'. rewrite Hs' in *.
  rewrite Hlr, Hls, Hk1, Hk2. repeat split; try done.
  - rewrite Hmap. unfold node_of, local_hginfo.
    rewrite length_fmap, length_insert. lia.
  - rewrite Hmap. unfold node_of, local_hginfo.
    rewrite list_lookup_fmap, list_lookup_insert_eq by lia. done.
Qed.

Lemma local_discovery_fills_rank_map_witness :
  localranks (nctx rank1_after_local) = [0; 1]
  ∧ localranks (nctx rank1_after_local) !! 1%nat = Some 1.
Proof.
  pose proof (local_discovery_fills_rank_map rank1_env rank1_start rank1_after_local
                rank1_local_group_ok ltac:(by vm_compute))
    as (Hlr & _ & _ & _ & Hmap & _ & Hown).
  split.
  - rewrite Hmap. by vm_compute.
  - rewrite Hlr in Hown. exact Hown.
Defined.

(** *** The keys of the routing tables *)

Lemma visited_perm {A : Type} `{Inhabited A} (hginfo : list A) (rank size : Z) :
  0 ≤ rank < size → Z.of_nat (length hginfo) = size →
  visited hginfo rank size ≡ₚ hginfo.
Proof.
  intros Hr Hlen. unfold visited. rewrite (cyclic_order_perm rank size Hr).
  assert ((fun j => hginfo !!! Z.to_nat j) <$> seqZ 0 size = hginfo) as ->; [|done].
  apply list_eq. intros i. rewrite list_lookup_fmap.
  destruct (hginfo !! i) as [x|] eqn:Hx.
  - pose proof (lookup_lt_Some _ _ _ Hx).
    rewrite lookup_seqZ_lt by lia. simpl. f_equal.
    rewrite Z.add_0_l, Nat2Z.id. by apply list_lookup_total_correct.
  - apply lookup_ge_None in Hx. rewrite lookup_seqZ_ge by lia. done.
Qed.

Lemma foldl_insert_dom {A : Type} (key : A → Z) (val : A → hg_addr_t) (l : list A)
    (tbl : gmap Z hg_addr_t) :
  let tbl' := foldl (fun m x => <[key x := val x]> m) tbl l in
  dom tbl' = dom tbl ∪ list_to_set (key <$> l)
  ∧ ∀ k, k ∉ key <$> l → tbl' !! k = tbl !! k.
Proof.
  revert tbl. induction l as [|x l IH]; intros tbl.
  - split; [|done]. simpl. by rewrite (right_id_L ∅ (∪)).
  - destruct (IH (<[key x := val x]> tbl)) as [Hdom Hother].
    cbn [foldl]. rewrite fmap_cons. split.
    + rewrite Hdom, dom_insert_L, list_to_set_cons.
      by rewrite (assoc_L (∪)), (comm_L (∪) (dom tbl)).
    + intros k Hk. rewrite Hother by (intros ?; apply Hk; by right).
      apply lookup_insert_ne. intros Heq. apply Hk. rewrite Heq. by left.
Qed.

Lemma foldl_insert_lookup {A : Type} (key : A → Z) (val : A → hg_addr_t) (l : list A)
    (tbl : gmap Z hg_addr_t) (x : A) :
  NoDup (key <$> l) → x ∈ l →
  foldl (fun m x => <[key x := val x]> m) tbl l !! key x = Some (val x).
Proof.
  revert tbl. induction l as [|y l IH]; intros tbl Hnd Hx.
  - by apply elem_of_nil in Hx.
  - rewrite fmap_cons in Hnd. apply NoDup_cons in Hnd as [Hy Hnd]. cbn [foldl].
    apply elem_of_cons in Hx as [->|?]; [|by apply IH].
    destruct (foldl_insert_dom key val l (<[key y := val y]> tbl)) as [_ Hother].
    rewrite Hother by done. apply lookup_insert_eq.
Qed.

(** X9. A discovery that returns has added to its routing table exactly
    the global ranks of the members of its group: every member's global
    rank is a key of the table, no other key is added, and the entries
    under other keys are left as they were. *)
Theorem discovery_tables_hold_the_group :
  (∀ (E : env) (s s' : state),
     local_group_ok E (grank (nctx s)) →
     discover_local_info E s = (Ret tt, s') →
     let members := node_of E (grank (nctx s)) in
     dom (laddrs (nctx s')) = dom (laddrs (nctx s)) ∪ list_to_set members
     ∧ ∀ k, k ∉ members → laddrs (nctx s') !! k = laddrs (nctx s) !! k)
  ∧ (∀ (E : env) (hgaddr : string) (s s' : state),
       rep_group_ok E (grank (nctx s)) →
       discover_remote_info E hgaddr s = (Ret tt, s') →
       let members := reps_of E (grank (nctx s)) in
       dom (gaddrs (nctx s')) = dom (gaddrs (nctx s)) ∪ list_to_set members
       ∧ ∀ k, k ∉ members → gaddrs (nctx s') !! k = gaddrs (nctx s) !! k).
Proof.
  split.
  - intros E s s' Hok Hrun members.
    pose proof Hok as [Hrank Hsize Hlen Hlrank Hgrank].
    apply discover_local_info_cases in Hrun; [|done].
    destruct Hrun as [(msg & evs & [=] & _)|(o' & tr & Hv & _ & Hcases)].
    destruct Hcases as [(-> & _)|(Ho' & <- & _)]; [|done].
    apply visit_peers_Ret in Hv as (_ & -> & _).
    match goal with
    | |- context [foldl (fun m pk => <[peer_grank pk := @?f pk]> m) ?tbl ?pks] =>
        destruct (foldl_insert_dom peer_grank f pks tbl) as [Hdom Hother]
    end.
    assert (peer_grank <$> (local_peer <$>
              visited (local_hginfo E (grank (nctx s))) (MPI_Comm_rank E localcomm)
                      (MPI_Comm_size E localcomm)) ≡ₚ members) as Hperm.
    { rewrite <- list_fmap_compose. unfold members, node_of.
      apply fmap_Permutation, visited_perm; [done|].
      unfold local_hginfo. rewrite length_insert. lia. }
    split.
    + rewrite Hdom. f_equal. apply set_eq. intros k.
      rewrite !elem_of_list_to_set. by rewrite Hperm.
    + intros k Hk. apply Hother. by rewrite Hperm.
  - intros E hgaddr s s' Hok Hrun members.
    pose proof Hok as [Hrank Hsize Hlen Hwrank Hwlen Hgrank Huri].
    apply discover_remote_info_cases in Hrun; [|done].
    destruct Hrun as [(msg & evs & [=] & _)|(o' & tr & Hv & _ & _ & Hcases)].
    destruct Hcases as [(-> & _)|(Ho' & <- & _)]; [|done].
    apply visit_peers_Ret in Hv as (_ & -> & _).
    match goal with
    | |- context [foldl (fun m pk => <[peer_grank pk := @?f pk]> m) ?tbl ?pks] =>
        destruct (foldl_insert_dom peer_grank f pks tbl) as [Hdom Hother]
    end.
    assert (peer_grank <$> (remote_peer <$>
              visited (remote_hginfo E (mk_rdata (strncpy hgaddr RDATA_ADDR_SIZE)
                                                 (grank (nctx s))))
                      (MPI_Comm_rank E repcomm) (MPI_Comm_size E repcomm))
            ≡ₚ members) as Hperm.
    { rewrite <- list_fmap_compose. unfold members, reps_of.
      rewrite visited_perm; [|done|unfold remote_hginfo; rewrite length_insert; lia].
      unfold remote_hginfo. by rewrite list_fmap_insert. }
    split.
    + rewrite Hdom. f_equal. apply set_eq. intros k.
      rewrite !elem_of_list_to_set. by rewrite Hperm.
    + intros k Hk. apply Hother. by rewrite Hperm.
Qed.

Lemma discovery_tables_hold_the_group_witness :
  dom (laddrs (nctx rank0_after_local)) = list_to_set [0; 1]
  ∧ dom (gaddrs (nctx rank0_after_remote)) = list_to_set [0; 2].
Proof.
  destruct discovery_tables_hold_the_group as [Hlocal Hremote]. split.
  - destruct (Hlocal rank0_env fresh_state rank0_after_local rank0_local_group_ok
                ltac:(by vm_compute)) as [-> _].
    by vm_compute.
  - destruct (Hremote rank0_env "tcp://10.0.0.1:5000" rank0_before_remote
                rank0_after_remote rank0_rep_group_ok ltac:(by vm_compute)) as [-> _].
    by vm_compute.
Defined.

(** *** The content of the routing tables *)

(** The table a visit builds, by index into the gathered records, when
    the members of the group have distinct global ranks. *)
Lemma table_lookup_by_index {A : Type} `{Inhabited A} (E : env) (ep : endpoint)
    (g rank size : Z) (hginfo : list A) (pk : A → peer) (tbl : gmap Z hg_addr_t) :
  0 ≤ rank < size → Z.of_nat (length hginfo) = size →
  (∀ j, 0 ≤ j < size →
        bool_decide (peer_grank (pk (hginfo !!! Z.to_nat j)) = g) = bool_decide (j = rank)) →
  NoDup (peer_grank <$> (pk <$> hginfo)) →
  let addr j := resolution_addr E ep (bool_decide (j = rank)) (pk (hginfo !!! Z.to_nat j)) in
  let tbl' := foldl (fun m p => <[peer_grank p :=
                                    resolution_addr E ep (bool_decide (peer_grank p = g)) p]> m)
                    tbl (pk <$> visited hginfo rank size) in
  (∀ j, 0 ≤ j < size → tbl' !! peer_grank (pk (hginfo !!! Z.to_nat j)) = Some (addr j))
  ∧ (tbl = ∅ → ∀ k a, tbl' !! k = Some a →
       ∃ j, 0 ≤ j < size ∧ k = peer_grank (pk (hginfo !!! Z.to_nat j)) ∧ a = addr j).
Proof.
  intros Hr Hlen Hself Hnd addr tbl'.
  set (val := fun p => resolution_addr E ep (bool_decide (peer_grank p = g)) p).
  set (pks := pk <$> visited hginfo rank size) in *.
  assert (NoDup (peer_grank <$> pks)) as Hnd'.
  { unfold pks. by rewrite (visited_perm hginfo rank size Hr Hlen). }
  assert (∀ j, 0 ≤ j < size →
               tbl' !! peer_grank (pk (hginfo !!! Z.to_nat j)) = Some (addr j)) as Hlook.
  { intros j Hj. unfold tbl', addr. rewrite <- (Hself j Hj).
    apply (foldl_insert_lookup peer_grank val pks tbl); [done|].
    unfold pks. apply list_elem_of_fmap. eexists. split; [done|].
    by apply visited_elem. }
  split; [done|].
  intros -> k a Hk.
  destruct (decide (k ∈ peer_grank <$> pks)) as [Hin|Hnin].
  - apply list_elem_of_fmap in Hin as (p & -> & Hp).
    unfold pks in Hp. apply list_elem_of_fmap in Hp as (x & -> & Hx).
    unfold visited in Hx. apply list_elem_of_fmap in Hx as (j & -> & Hj).
    apply elem_of_cyclic_order in Hj; [|done].
    exists j. split; [done|]. split; [done|].
    rewrite (Hlook j Hj) in Hk. by injection Hk as <-.
  - destruct (foldl_insert_dom peer_grank val pks ∅) as [_ Hother].
    pose proof (Hother k Hnin) as Hn.
    change (tbl' !! k = (∅ : gmap Z hg_addr_t) !! k) in Hn.
    by rewrite Hn in Hk.
Qed.

(** The tables of the two discoveries, by index. *)
Lemma local_table_by_index (E : env) (s s' : state) :
  local_group_ok E (grank (nctx s)) →
  NoDup (node_of E (grank (nctx s))) →
  discover_local_info E s = (Ret tt, s') →
  let p j := local_hginfo E (grank (nctx s)) !!! Z.to_nat j in
  let addr j := resolution_addr E EP_LOCAL (bool_decide (j = MPI_Comm_rank E localcomm))
                                (local_peer (p j)) in
  (∀ j, 0 ≤ j < MPI_Comm_size E localcomm →
        laddrs (nctx s') !! l_grank (p j) = Some (addr j))
  ∧ (laddrs (nctx s) = ∅ → ∀ k a, laddrs (nctx s') !! k = Some a →
       ∃ j, 0 ≤ j < MPI_Comm_size E localcomm ∧ k = l_grank (p j) ∧ a = addr j).
Proof.
  intros Hok Hnd Hrun p addr.
  pose proof Hok as [Hrank Hsize Hlen Hlrank Hgrank].
  apply discover_local_info_cases in Hrun; [|done].
  destruct Hrun as [(msg & evs & [=] & _)|(o' & tr & Hv & _ & Hcases)].
  destruct Hcases as [(-> & _)|(Ho' & <- & _)]; [|done].
  apply visit_peers_Ret in Hv as (_ & -> & _).
  apply (table_lookup_by_index E EP_LOCAL (grank (nctx s)) (MPI_Comm_rank E localcomm)
           (MPI_Comm_size E localcomm) (local_hginfo E (grank (nctx s))) local_peer
           (laddrs (nctx s))).
  - done.
  - unfold local_hginfo. rewrite length_insert. lia.
  - intros j Hj. by apply local_self_iff.
  - by rewrite <- list_fmap_compose.
Qed.

Lemma remote_table_by_index (E : env) (hgaddr : string) (s s' : state) :
  rep_group_ok E (grank (nctx s)) →
  NoDup (reps_of E (grank (nctx s))) →
  discover_remote_info E hgaddr s = (Ret tt, s') →
  let rdat := mk_rdata (strncpy hgaddr RDATA_ADDR_SIZE) (grank (nctx s)) in
  let p j := remote_hginfo E rdat !!! Z.to_nat j in
  let addr j := resolution_addr E EP_REMOTE (bool_decide (j = MPI_Comm_rank E repcomm))
                                (remote_peer (p j)) in
  (∀ j, 0 ≤ j < MPI_Comm_size E repcomm →
        gaddrs (nctx s') !! r_grank (p j) = Some (addr j))
  ∧ (gaddrs (nctx s) = ∅ → ∀ k a, gaddrs (nctx s') !! k = Some a →
       ∃ j, 0 ≤ j < MPI_Comm_size E repcomm ∧ k = r_grank (p j) ∧ a = addr j).
Proof.
  intros Hok Hnd Hrun rdat p addr.
  pose proof Hok as [Hrank Hsize Hlen Hwrank Hwlen Hgrank Huri].
  apply discover_remote_info_cases in Hrun; [|done].
  destruct Hrun as [(msg & evs & [=] & _)|(o' & tr & Hv & _ & _ & Hcases)].
  destruct Hcases as [(-> & _)|(Ho' & <- & _)]; [|done].
  apply visit_peers_Ret in Hv as (_ & -> & _).
  apply (table_lookup_by_index E EP_REMOTE (grank (nctx s)) (MPI_Comm_rank E repcomm)
           (MPI_Comm_size E repcomm) (remote_hginfo E rdat) remote_peer
           (gaddrs (nctx s))).
  - done.
  - unfold remote_hginfo. rewrite length_insert. lia.
  - intros j Hj. by apply remote_self_iff.
  - rewrite <- list_fmap_compose. unfold remote_hginfo.
    by rewrite list_fmap_insert.
Qed.

(** X10. In a group whose members have distinct global ranks, a discovery
    that returns leaves, under the global rank of the member at index [j]
    of the gathered records, the address it resolved for that member: the
    result of the self-address query for the caller, of the Lookup Adapter
    on the member's address string for another member. *)
Theorem discovery_table_maps_rank_to_resolved_address :
  (∀ (E : env) (s s' : state),
     local_group_ok E (grank (nctx s)) →
     NoDup (node_of E (grank (nctx s))) →
     discover_local_info E s = (Ret tt, s') →
     ∀ j, 0 ≤ j < MPI_Comm_size E localcomm →
          let p := local_hginfo E (grank (nctx s)) !!! Z.to_nat j in
          laddrs (nctx s') !! l_grank p
          = Some (resolution_addr E EP_LOCAL
                    (bool_decide (j = MPI_Comm_rank E localcomm)) (local_peer p)))
  ∧ (∀ (E : env) (hgaddr : string) (s s' : state),
       rep_group_ok E (grank (nctx s)) →
       NoDup (reps_of E (grank (nctx s))) →
       discover_remote_info E hgaddr s = (Ret tt, s') →
       ∀ j, 0 ≤ j < MPI_Comm_size E repcomm →
            let p := remote_hginfo E (mk_rdata (strncpy hgaddr RDATA_ADDR_SIZE)
                                               (grank (nctx s))) !!! Z.to_nat j in
            gaddrs (nctx s') !! r_grank p
            = Some (resolution_addr E EP_REMOTE
                      (bool_decide (j = MPI_Comm_rank E repcomm)) (remote_peer p))).
Proof.
  split.
  - intros E s s' Hok Hnd Hrun j Hj p.
    by apply (local_table_by_index E s s' Hok Hnd Hrun).
  - intros E hgaddr s s' Hok Hnd Hrun j Hj p.
    by apply (remote_table_by_index E hgaddr s s' Hok Hnd Hrun).
Qed.

Lemma discovery_table_maps_rank_to_resolved_address_witness :
  laddrs (nctx rank0_after_local) !! 1 = Some 1001
  ∧ gaddrs (nctx rank0_after_remote) !! 2 = Some 2002.
Proof.
  destruct discovery_table_maps_rank_to_resolved_address as [Hlocal Hremote]. split.
  - pose proof (Hlocal rank0_env fresh_state rank0_after_local rank0_local_group_ok
                  ltac:(apply (bool_decide_unpack _); by vm_compute)
                  ltac:(by vm_compute) 1 ltac:(by vm_compute)) as Hl.
    exact Hl.
  - pose proof (Hremote rank0_env "tcp://10.0.0.1:5000" rank0_before_remote
                  rank0_after_remote rank0_rep_group_ok
                  ltac:(apply (bool_decide_unpack _); by vm_compute)
                  ltac:(by vm_compute) 1 ltac:(by vm_compute)) as Hr.
    exact Hr.
Defined.

(** *** Runs that stay in the model *)




(** *** What the discoveries write *)

(** X12. Whatever its outcome, the local discovery writes only the fields
    of the local endpoint (it leaves the ranks in the whole group, the
    representative map, the remote table and the remote handles as they
    are), and the remote discovery writes only the fields of the remote
    endpoint (it leaves the ranks, the local rank, size, root and rank map,
    the local table and the local handles as they are). *)
Theorem discoveries_write_their_own_fields :
  (∀ (E : env) (s : state),
     let c' := nctx (discover_local_info E s).2 in
     rank_part c' = rank_part (nctx s) ∧ remote_part c' = remote_part (nctx s))
  ∧ (∀ (E : env) (hgaddr : string) (s : state),
       let c' := nctx (discover_remote_info E hgaddr s).2 in
       rank_part c' = rank_part (nctx s) ∧ local_part c' = local_part (nctx s)).
Proof.
  split.
  - intros E s c'. destruct (discover_local_info_keeps E) as [H1 H2].
    destruct (discover_local_info E s) as [o s'] eqn:Hrun. subst c'. simpl.
    split; [by apply (H1 s o)|by apply (H2 s o)].
  - intros E hgaddr s c'. destruct (discover_remote_info_keeps E hgaddr) as [H1 H2].
    destruct (discover_remote_info E hgaddr s) as [o s'] eqn:Hrun. subst c'. simpl.
    split; [by apply (H1 s o)|by apply (H2 s o)].
Qed.

(** *** A failed endpoint setup *)

(** The case of a run [H] that has just aborted during the setup. *)
Ltac setup_failed H :=
  injection H as <- <-; split; [by eexists|];
  unfold new_events; simpl; rewrite <- ?app_assoc, drop_app_length; simpl;
  rewrite ?list_elem_of_In; simpl;
  repeat split; try done; try (by repeat constructor); try tauto;
  intuition discriminate.

Ltac setup_passed :=
  repeat match goal with
         | H : bool_decide _ = false |- _ => apply bool_decide_eq_false in H
         | H : negb _ = false |- _ => apply negb_false_iff in H
         end.

(** X13. When the setup of an endpoint fails the discovery aborts before
    the all-gather on the endpoint's group: the record of the process does
    not reach its peers, no address is resolved and the routing table is
    left as it was.  For the remote endpoint the all-gather of the local
    roots over [MPI_COMM_WORLD] comes before the setup and has taken
    place. *)
Theorem endpoint_setup_failure_precedes_exchange :
  (∀ (E : env) (s : state),
     endpoint_setup_fails E EP_LOCAL ("na+sm://" +:+ pretty (getpid E) +:+ "/0") →
     let r := discover_local_info E s in
     (∃ msg, r.1 = Abort msg)
     ∧ (EvAllgather localcomm ∉ new_events s r.2)
     ∧ Forall (fun e => is_resolution EP_LOCAL e = false) (new_events s r.2)
     ∧ laddrs (nctx r.2) = laddrs (nctx s))
  ∧ (∀ (E : env) (hgaddr : string) (s : state),
       malloc_ok E A_rankreps = true →
       0 ≤ MPI_Comm_rank E MPI_COMM_WORLD < MPI_Comm_size E MPI_COMM_WORLD →
       Z.of_nat (length (world_sendbufs E)) = MPI_Comm_size E MPI_COMM_WORLD →
       endpoint_setup_fails E EP_REMOTE hgaddr →
       let r := discover_remote_info E hgaddr s in
       (∃ msg, r.1 = Abort msg)
       ∧ EvAllgather MPI_COMM_WORLD ∈ new_events s r.2
       ∧ (EvAllgather repcomm ∉ new_events s r.2)
       ∧ Forall (fun e => is_resolution EP_REMOTE e = false) (new_events s r.2)
       ∧ gaddrs (nctx r.2) = gaddrs (nctx s)).
Proof.
  split.
  - intros E s Hfail r. subst r.
    destruct (discover_local_info E s) as [o s'] eqn:Hrun. simpl.
    unfold discover_local_info in Hrun.
    repeat mstep Hrun ltac:(setup_failed Hrun).
    exfalso. setup_passed.
    destruct Hfail as [?|[?|[?|[?|?]]]]; first [congruence|contradiction].
  - intros E hgaddr s Hmalloc Hwrank Hwlen Hfail r. subst r.
    destruct (discover_remote_info E hgaddr s) as [o s'] eqn:Hrun. simpl.
    unfold discover_remote_info in Hrun.
    repeat mstep Hrun ltac:(by rewrite Hmalloc in *).
    rewrite run_bind in Hrun. unfold MPI_Allgather at 1 in Hrun.
    rewrite run_bind, run_emit in Hrun. rewrite decide_True in Hrun by done.
    simpl in Hrun.
    repeat mstep Hrun ltac:(setup_failed Hrun).
    rewrite run_bind in Hrun. simpl in Hrun.
    repeat mstep Hrun ltac:(setup_failed Hrun).
    exfalso. setup_passed.
    destruct Hfail as [?|[?|[?|[?|?]]]]; first [congruence|contradiction].
Qed.

Lemma endpoint_setup_failure_precedes_exchange_witness :
  (∃ msg, (discover_local_info rank0_env_no_mercury fresh_state).1 = Abort msg)
  ∧ (EvAllgather localcomm
       ∉ new_events fresh_state (discover_local_info rank0_env_no_mercury fresh_state).2).
Proof.
  destruct endpoint_setup_failure_precedes_exchange as [Hlocal _].
  destruct (Hlocal rank0_env_no_mercury fresh_state ltac:(by left))
    as (Habort & Hgather & _).
  by split.
Defined.

(** *** The record sent to the representatives *)

Lemma c_chars_app_NUL (l l' : list ascii) :
  NUL ∉ l → c_chars (l ++ NUL :: l') = l.
Proof.
  induction l as [|a l IH]; intros Hl; cbn [c_chars app].
  - by rewrite decide_True.
  - rewrite decide_False by (intros ->; apply Hl; left).
    f_equal. apply IH. intros Hin. apply Hl. by right.
Qed.

Lemma c_chars_no_NUL (l : list ascii) : NUL ∉ l → c_chars l = l.
Proof.
  induction l as [|a l IH]; intros Hl; cbn [c_chars]; [done|].
  rewrite decide_False by (intros ->; apply Hl; left).
  f_equal. apply IH. intros Hin. apply Hl. by right.
Qed.

Lemma length_list_ascii_of_string (s : string) :
  length (String.list_ascii_of_string s) = String.length s.
Proof. induction s as [|a s IH]; simpl; [done|by rewrite IH]. Qed.

Lemma strncpy_length (src : string) (n : Z) :
  length (strncpy src n) = Z.to_nat n.
Proof.
  unfold strncpy. rewrite length_take, length_app, length_replicate. lia.
Qed.

Lemma strncpy_short (src : string) (n : Z) :
  is_c_string src → Z.of_nat (String.length src) < n →
  strncpy src n
  = String.list_ascii_of_string src
    ++ replicate (Z.to_nat n - String.length src) NUL.
Proof.
  intros Hc Hlen. unfold strncpy. rewrite c_chars_no_NUL by done.
  rewrite take_app, length_list_ascii_of_string.
  rewrite take_ge by (rewrite length_list_ascii_of_string; lia).
  by rewrite take_replicate, Nat.min_l by lia.
Qed.

Lemma strncpy_long (src : string) (n : Z) :
  is_c_string src → n ≤ Z.of_nat (String.length src) →
  strncpy src n = take (Z.to_nat n) (String.list_ascii_of_string src).
Proof.
  intros Hc Hlen. unfold strncpy. rewrite c_chars_no_NUL by done.
  rewrite take_app_le by (rewrite length_list_ascii_of_string; lia). done.
Qed.

Lemma fill_rdat_eq (E : env) (hgaddr : string) (g : Z) :
  fill_rdat E hgaddr g = Some (mk_rdata (strncpy hgaddr RDATA_ADDR_SIZE) g).
Proof. reflexivity. Qed.

(** X14. The address record of a representative round-trips: for an
    address of fewer than 60 characters, [strncpy] fills the 60 bytes of
    [rdat.addr] with the address and NUL padding, the record carries the
    caller's global rank (the assignment of [grank] comes after the store
    at index 60 and overwrites it), and a peer that reads [addr] as a C
    string gets the address back. *)
Theorem rdat_address_round_trip (E : env) (hgaddr : string) (g : Z) :
  is_c_string hgaddr →
  Z.of_nat (String.length hgaddr) < RDATA_ADDR_SIZE →
  ∃ rdat, fill_rdat E hgaddr g = Some rdat
          ∧ Z.of_nat (length (r_addr rdat)) = RDATA_ADDR_SIZE
          ∧ c_str (r_addr rdat) = Some hgaddr
          ∧ r_grank rdat = g.
Proof.
  intros Hc Hlen. eexists. split; [apply fill_rdat_eq|]. simpl.
  split; [rewrite strncpy_length; unfold RDATA_ADDR_SIZE; lia|].
  split; [|done].
  rewrite strncpy_short by done.
  destruct (Z.to_nat RDATA_ADDR_SIZE - String.length hgaddr)%nat as [|k] eqn:Hk;
    [unfold RDATA_ADDR_SIZE in *; lia|].
  simpl. unfold c_str. rewrite decide_True.
  - rewrite c_chars_app_NUL by done.
    by rewrite String.string_of_list_ascii_of_string.
  - apply elem_of_app. right. left.
Qed.

Lemma rdat_address_round_trip_witness :
  ∃ rdat, fill_rdat rank0_env node_b_uri 2 = Some rdat
          ∧ Z.of_nat (length (r_addr rdat)) = RDATA_ADDR_SIZE
          ∧ c_str (r_addr rdat) = Some node_b_uri
          ∧ r_grank rdat = 2.
Proof.
  apply (rdat_address_round_trip rank0_env node_b_uri 2).
  - unfold is_c_string. apply (bool_decide_unpack _). by vm_compute.
  - by vm_compute.
Defined.

(** X15. An address of 60 characters or more is cut to its first 60
    characters and sent without a terminator: [strncpy] writes no NUL, and
    the one the code adds goes to index 60, outside the field.  A peer
    that reads [addr] as a C string runs past the end of the field. *)
Theorem rdat_long_address_is_unterminated (E : env) (hgaddr : string) (g : Z) :
  is_c_string hgaddr →
  RDATA_ADDR_SIZE ≤ Z.of_nat (String.length hgaddr) →
  ∃ rdat, fill_rdat E hgaddr g = Some rdat
          ∧ r_addr rdat = take (Z.to_nat RDATA_ADDR_SIZE) (String.list_ascii_of_string hgaddr)
          ∧ (NUL ∉ r_addr rdat)
          ∧ c_str (r_addr rdat) = None.
Proof.
  intros Hc Hlen. eexists. split; [apply fill_rdat_eq|]. simpl.
  rewrite strncpy_long by done. split; [done|].
  assert (NUL ∉ take (Z.to_nat RDATA_ADDR_SIZE) (String.list_ascii_of_string hgaddr)) as Hno.
  { intros Hin. apply Hc.
    rewrite <- (take_drop (Z.to_nat RDATA_ADDR_SIZE) (String.list_ascii_of_string hgaddr)).
    apply elem_of_app. by left. }
  split; [done|]. unfold c_str. by rewrite decide_False.
Qed.

Lemma rdat_long_address_is_unterminated_witness :
  ∃ rdat, fill_rdat rank0_env long_uri 2 = Some rdat
          ∧ r_addr rdat
            = take (Z.to_nat RDATA_ADDR_SIZE) (String.list_ascii_of_string long_uri)
          ∧ (NUL ∉ r_addr rdat)
          ∧ c_str (r_addr rdat) = None.
Proof.
  apply (rdat_long_address_is_unterminated rank0_env long_uri 2).
  - unfold is_c_string. apply (bool_decide_unpack _). by vm_compute.
  - by vm_compute.
Defined.

(** ** [nexus_bootstrap] *)

(** X16. The calls of a bootstrap that returns come in three phases, one
    after the other: after the rank and size in [MPI_COMM_WORLD] and the
    split of the local group, the calls of the local discovery (local
    group and local endpoint only); then the calls that choose the address
    (socket layer, rank and size in the local group; no Mercury call);
    then the split of the representative group and the calls of the
    remote discovery (representative group, all-gather over the whole
    group, remote endpoint only). *)
Theorem bootstrap_runs_its_phases_in_order (E : env) (minport maxport : Z)
    (subnet proto : string) (s : state) (r : nexus_ret_t) (s' : state) :
  nexus_bootstrap E minport maxport subnet proto s = (Ret r, s') →
  ∃ a b c,
    trace s' = trace s
               ++ [EvCommRank MPI_COMM_WORLD; EvCommSize MPI_COMM_WORLD; EvInitLocalComm]
               ++ a ++ b ++ [EvInitRepComm] ++ c
    ∧ Forall (fun e => is_local_phase_op e = true) a
    ∧ Forall (fun e => is_address_phase_op e = true) b
    ∧ Forall (fun e => is_remote_phase_op e = true) c.
Proof.
  intros Hrun.
  apply bootstrap_returns_phases in Hrun as (s1 & uri & s2 & Hlocal & Hprep & Hremote).
  apply emits_discover_local_info in Hlocal as (a & Ha & Hall_a).
  apply emits_prepare_addr in Hprep as (b & Hb & Hall_b).
  apply emits_discover_remote_info in Hremote as (c & Hc & Hall_c).
  exists a, b, c. split; [|done].
  rewrite Hc. simpl. rewrite Hb, Ha. simpl. by rewrite <- !app_assoc.
Qed.

Lemma bootstrap_runs_its_phases_in_order_witness :
  ∃ a b c,
    trace rank0_after_bootstrap
    = trace fresh_state
      ++ [EvCommRank MPI_COMM_WORLD; EvCommSize MPI_COMM_WORLD; EvInitLocalComm]
      ++ a ++ b ++ [EvInitRepComm] ++ c
    ∧ Forall (fun e => is_local_phase_op e = true) a
    ∧ Forall (fun e => is_address_phase_op e = true) b
    ∧ Forall (fun e => is_remote_phase_op e = true) c.
Proof.
  apply (bootstrap_runs_its_phases_in_order rank0_env 5000 5010 "10.0" "tcp"
           fresh_state NX_SUCCESS rank0_after_bootstrap).
  by vm_compute.
Defined.

(** X17. A bootstrap that returns is the local discovery, then
    [prepare_addr], then the remote discovery on the URI [prepare_addr]
    returned, each run to its end.  It leaves [grank] and [gsize] as
    [MPI_COMM_WORLD] reports them and every field of the local endpoint
    (local rank, size and root, the local-to-global rank map, the local
    table, the local handles) exactly as the local discovery left it:
    neither [prepare_addr] nor the remote discovery writes them. *)
Theorem bootstrap_keeps_what_local_discovery_built (E : env) (minport maxport : Z)
    (subnet proto : string) (s : state) (r : nexus_ret_t) (s' : state) :
  nexus_bootstrap E minport maxport subnet proto s = (Ret r, s') →
  ∃ s1 uri s2,
    discover_local_info E (local_discovery_entry E s) = (Ret tt, s1)
    ∧ prepare_addr E minport maxport subnet proto s1 = (Ret uri, s2)
    ∧ discover_remote_info E uri (mk_state (nctx s1) (trace s2 ++ [EvInitRepComm]))
      = (Ret tt, s')
    ∧ rank_part (nctx s')
      = (MPI_Comm_rank E MPI_COMM_WORLD, MPI_Comm_size E MPI_COMM_WORLD)
    ∧ local_part (nctx s') = local_part (nctx s1).
Proof.
  intros Hrun.
  apply bootstrap_returns_phases in Hrun as (s1 & uri & s2 & Hlocal & Hprep & Hremote).
  pose proof (keeps_ctx_prepare_addr E minport maxport subnet proto _ _ _ Hprep) as Hctx.
  rewrite Hctx in Hremote.
  exists s1, uri, s2. split; [done|]. split; [done|]. split; [done|].
  destruct (discover_local_info_keeps E) as [Hlr _].
  destruct (discover_remote_info_keeps E uri) as [Hrr Hrl].
  apply Hlr in Hlocal as Hl1. apply Hrr in Hremote as Hr1. apply Hrl in Hremote as Hr2.
  simpl in Hl1, Hr1, Hr2. split; [by rewrite Hr1, Hl1|done].
Qed.

Lemma bootstrap_keeps_what_local_discovery_built_witness :
  ∃ s1 uri s2,
    discover_local_info rank0_env (local_discovery_entry rank0_env fresh_state)
    = (Ret tt, s1)
    ∧ prepare_addr rank0_env 5000 5010 "10.0" "tcp" s1 = (Ret uri, s2)
    ∧ discover_remote_info rank0_env uri (mk_state (nctx s1) (trace s2 ++ [EvInitRepComm]))
      = (Ret tt, rank0_after_bootstrap)
    ∧ rank_part (nctx rank0_after_bootstrap)
      = (MPI_Comm_rank rank0_env MPI_COMM_WORLD, MPI_Comm_size rank0_env MPI_COMM_WORLD)
    ∧ local_part (nctx rank0_after_bootstrap) = local_part (nctx s1).
Proof.
  apply (bootstrap_keeps_what_local_discovery_built rank0_env 5000 5010 "10.0" "tcp"
           fresh_state NX_SUCCESS rank0_after_bootstrap).
  by vm_compute.
Defined.

(** ** [nexus_destroy] *)

Lemma free_addrs_run (ep : endpoint) (m : gmap Z hg_addr_t) (s : state) :
  free_addrs ep m s
  = (Ret tt, mk_state (nctx s) (trace s ++ (EvAddrFree ep <$> freed_addrs m))).
Proof.
  unfold free_addrs, freed_addrs. generalize (map_entries m). intros l. revert s.
  induction l as [|it l IH]; intros s.
  - simpl. rewrite app_nil_r. by destruct s.
  - cbn [for_each]. rewrite run_bind. rewrite fmap_cons, filter_cons.
    destruct (decide (it.2 ≠ HG_ADDR_NULL)) as [Hne|Heq].
    + rewrite bool_decide_eq_true_2 by done. simpl. rewrite IH. simpl.
      by rewrite <- app_assoc.
    + rewrite bool_decide_eq_false_2 by done. simpl. by rewrite IH.
Qed.

Lemma map_entries_perm (m : gmap Z hg_addr_t) : map_entries m ≡ₚ map_to_list m.
Proof. apply merge_sort_Permutation. Qed.


Lemma elem_of_map_entries (m : gmap Z hg_addr_t) (k : Z) (a : hg_addr_t) :
  (k, a) ∈ map_entries m ↔ m !! k = Some a.
Proof. rewrite map_entries_perm. apply elem_of_map_to_list. Qed.

Lemma elem_of_freed_addrs (m : gmap Z hg_addr_t) (a : hg_addr_t) :
  a ∈ freed_addrs m ↔ a ≠ HG_ADDR_NULL ∧ ∃ k, m !! k = Some a.
Proof.
  unfold freed_addrs. rewrite list_elem_of_filter, list_elem_of_fmap.
  split.
  - intros [Hne ([k a'] & -> & Hin)]. split; [done|].
    exists k. by apply elem_of_map_entries.
  - intros [Hne [k Hk]]. split; [done|]. exists (k, a). split; [done|].
    by apply elem_of_map_entries.
Qed.

Lemma nexus_destroy_run (s : state) :
  nexus_destroy s
  = (Ret NX_SUCCESS, mk_state (nctx s) (trace s ++ destroy_events (nctx s))).
Proof.
  unfold nexus_destroy, destroy_events.
  rewrite run_bind. simpl. rewrite run_bind, free_addrs_run.
  do 4 rewrite run_bind, run_emit. rewrite run_bind, free_addrs_run.
  do 4 rewrite run_bind, run_emit. simpl.
  by rewrite <- !app_assoc.
Qed.

Lemma elem_of_destroy_events (c : nexus_ctx) (ep : endpoint) (a : hg_addr_t) :
  EvAddrFree ep a ∈ destroy_events c
  ↔ a ∈ freed_addrs (match ep with EP_LOCAL => laddrs c | EP_REMOTE => gaddrs c end).
Proof.
  unfold destroy_events. rewrite !elem_of_app, !list_elem_of_fmap.
  rewrite !(list_elem_of_In (_ :: _) _). simpl. split.
  - intros [(a' & Heq & Hin)|[Hor|[(a' & Heq & Hin)|Hor]]];
      try (decompose [or] Hor; done); by simplify_eq.
  - intros Hin. destruct ep; [left|right; right; left]; by exists a.
Qed.


(** X19. Bootstrap and destroy together: after a discovery that started
    from an empty table and returned, in a group whose members have
    distinct global ranks, the addresses [nexus_destroy] frees on the
    endpoint are exactly the non-NULL addresses the discovery resolved for
    the members of the group; nothing else is handed to [HG_Addr_free]. *)
Theorem destroy_frees_what_discovery_resolved :
  (∀ (E : env) (s s' : state) (a : hg_addr_t),
     local_group_ok E (grank (nctx s)) →
     NoDup (node_of E (grank (nctx s))) →
     laddrs (nctx s) = ∅ →
     discover_local_info E s = (Ret tt, s') →
     EvAddrFree EP_LOCAL a ∈ new_events s' (nexus_destroy s').2
     ↔ a ≠ HG_ADDR_NULL
       ∧ ∃ j, 0 ≤ j < MPI_Comm_size E localcomm
              ∧ a = resolution_addr E EP_LOCAL
                      (bool_decide (j = MPI_Comm_rank E localcomm))
                      (local_peer (local_hginfo E (grank (nctx s)) !!! Z.to_nat j)))
  ∧ (∀ (E : env) (hgaddr : string) (s s' : state) (a : hg_addr_t),
       rep_group_ok E (grank (nctx s)) →
       NoDup (reps_of E (grank (nctx s))) →
       gaddrs (nctx s) = ∅ →
       discover_remote_info E hgaddr s = (Ret tt, s') →
       EvAddrFree EP_REMOTE a ∈ new_events s' (nexus_destroy s').2
       ↔ a ≠ HG_ADDR_NULL
         ∧ ∃ j, 0 ≤ j < MPI_Comm_size E repcomm
                ∧ a = resolution_addr E EP_REMOTE
                        (bool_decide (j = MPI_Comm_rank E repcomm))
                        (remote_peer
                           (remote_hginfo E (mk_rdata (strncpy hgaddr RDATA_ADDR_SIZE)
                                                      (grank (nctx s)))
                              !!! Z.to_nat j))).
Proof.
  split.
  - intros E s s' a Hok Hnd Hempty Hrun.
    destruct (local_table_by_index E s s' Hok Hnd Hrun) as [Hlook Honly].
    rewrite nexus_destroy_run. simpl.
    rewrite (new_events_app s' _ (destroy_events (nctx s'))) by done.
    rewrite (elem_of_destroy_events (nctx s') EP_LOCAL), elem_of_freed_addrs.
    split.
    + intros [Hne [k Hk]]. split; [done|].
      destruct (Honly Hempty k a Hk) as (j & Hj & _ & ->). by exists j.
    + intros [Hne (j & Hj & ->)]. split; [done|]. eexists. by apply Hlook.
  - intros E hgaddr s s' a Hok Hnd Hempty Hrun.
    destruct (remote_table_by_index E hgaddr s s' Hok Hnd Hrun) as [Hlook Honly].
    rewrite nexus_destroy_run. simpl.
    rewrite (new_events_app s' _ (destroy_events (nctx s'))) by done.
    rewrite (elem_of_destroy_events (nctx s') EP_REMOTE), elem_of_freed_addrs.
    split.
    + intros [Hne [k Hk]]. split; [done|].
      destruct (Honly Hempty k a Hk) as (j & Hj & _ & ->). by exists j.
    + intros [Hne (j & Hj & ->)]. split; [done|]. eexists. by apply Hlook.
Qed.

Lemma destroy_frees_what_discovery_resolved_witness :
  EvAddrFree EP_LOCAL 1001 ∈ new_events rank0_after_local (nexus_destroy rank0_after_local).2.
Proof.
  destruct destroy_frees_what_discovery_resolved as [Hlocal _].
  apply (Hlocal rank0_env fresh_state rank0_after_local 1001 rank0_local_group_ok
           ltac:(apply (bool_decide_unpack _); by vm_compute)
           ltac:(done) ltac:(by vm_compute)).
  split; [done|]. exists 1. split; [by vm_compute|by vm_compute].
Defined.

(** ** [nexus_bgthread] *)

(** The drain loop never aborts; when it returns it has made [k + 1]
    triggers, the first [k] of which reported completed work. *)
Lemma trigger_loop_inv (B : bg_env) (fuel : nat) (s : bg_state)
    (o : outcome hg_return_t) (s' : bg_state) :
  trigger_loop B fuel s = (o, s') →
  (o = Stuck ∧ n_trigger s' = (n_trigger s + fuel)%nat)
  ∨ ∃ k : nat,
      (k < fuel)%nat
      ∧ (∀ j, (j < k)%nat → trigger_worked B (n_trigger s + j))
      ∧ ¬ trigger_worked B (n_trigger s + k)
      ∧ o = Ret (HG_Trigger B (n_trigger s + k)).1
      ∧ s' = mk_bg_state (n_reads s) (n_trigger s + S k) (n_progress s)
                         (bg_trace s ++ replicate (S k) (BgTrigger 0 1)).
Proof.
  revert s. induction fuel as [|fuel IH]; intros s Hrun; simpl in Hrun.
  - injection Hrun as <- <-. left. split; [done|lia].
  - destruct (decide ((HG_Trigger B (n_trigger s)).1 = HG_SUCCESS
                      ∧ (HG_Trigger B (n_trigger s)).2 ≠ 0)) as [Hw|Hw].
    + apply IH in Hrun as [[-> Hn]|(k & Hk & Hwork & Hlast & -> & ->)]; simpl in *.
      * left. split; [done|lia].
      * right. exists (S k). split; [lia|]. split; [|split; [|split]].
        -- intros [|j] Hj; [by rewrite Nat.add_0_r|].
           rewrite Nat.add_succ_r, <- Nat.add_succ_l. apply Hwork. lia.
        -- by rewrite Nat.add_succ_r, <- Nat.add_succ_l.
        -- by rewrite Nat.add_succ_r, <- Nat.add_succ_l.
        -- rewrite <- app_assoc. simpl. f_equal. lia.
    + injection Hrun as <- <-. right. exists 0%nat. rewrite Nat.add_0_r.
      split; [lia|]. split; [intros j Hj; lia|]. split; [done|]. split; [done|].
      f_equal. lia.
Qed.

(** The drain loop returns as soon as a trigger reports no work. *)
Lemma trigger_loop_returns (B : bg_env) (fuel : nat) (s : bg_state) :
  (∃ k, (k < fuel)%nat ∧ ¬ trigger_worked B (n_trigger s + k)) →
  ∃ k : nat,
    (k < fuel)%nat
    ∧ trigger_loop B fuel s
      = (Ret (HG_Trigger B (n_trigger s + k)).1,
         mk_bg_state (n_reads s) (n_trigger s + S k) (n_progress s)
                     (bg_trace s ++ replicate (S k) (BgTrigger 0 1))).
Proof.
  intros (k & Hk & Hlast).
  destruct (trigger_loop B fuel s) as [o s'] eqn:Hrun.
  apply trigger_loop_inv in Hrun as Hinv.
  destruct Hinv as [[-> Hn]|(k' & Hk' & _ & _ & -> & ->)]; [|by exists k'].
  exfalso. clear Hn. revert s k Hk Hlast Hrun.
  induction fuel as [|fuel IH]; intros s k Hk Hlast Hrun; [lia|].
  simpl in Hrun.
  destruct (decide ((HG_Trigger B (n_trigger s)).1 = HG_SUCCESS
                    ∧ (HG_Trigger B (n_trigger s)).2 ≠ 0)) as [Hw|Hw]; [|done].
  destruct k as [|k]; [by rewrite Nat.add_0_r in Hlast|].
  apply (IH _ k) in Hrun; [done|lia|]. simpl.
  by replace (S (n_trigger s + k)) with (n_trigger s + S k)%nat by lia.
Qed.

Lemma hg_tolerated_iff (h : hg_return_t) :
  hg_tolerated h ↔ ¬ (h ≠ HG_SUCCESS ∧ h ≠ HG_TIMEOUT).
Proof.
  unfold hg_tolerated. split.
  - intros [->| ->] [? ?]; done.
  - intros Hn. destruct (decide (h = HG_SUCCESS)); [by left|].
    destruct (decide (h = HG_TIMEOUT)); [by right|]. by destruct Hn.
Qed.

(** One turn of the thread from a state in which the flag reads 0, and
    the state after it. *)
Lemma bgthread_turn_inv (B : bg_env) (fuel : nat) (s : bg_state)
    (o : outcome unit) (s' : bg_state) :
  bgdone B (n_reads s) = 0 →
  nexus_bgthread B (S fuel) s = (o, s') →
  (o = Stuck)
  ∨ ∃ k : nat,
      let s1 := mk_bg_state (S (n_reads s)) (n_trigger s + S k) (n_progress s)
                            (bg_trace s ++ replicate (S k) (BgTrigger 0 1)) in
      let s2 := mk_bg_state (S (n_reads s)) (n_trigger s + S k) (S (n_progress s))
                            (bg_trace s ++ bg_turn k) in
      (k < fuel)%nat
      ∧ ((¬ hg_tolerated (HG_Trigger B (n_trigger s + k)).1
          ∧ o = Abort "nexus_bgthread: HG_Trigger failed" ∧ s' = s1)
         ∨ (hg_tolerated (HG_Trigger B (n_trigger s + k)).1
            ∧ ¬ hg_tolerated (HG_Progress B (n_progress s))
            ∧ o = Abort "nexus_bgthread: HG_Progress failed" ∧ s' = s2)
         ∨ (hg_tolerated (HG_Trigger B (n_trigger s + k)).1
            ∧ hg_tolerated (HG_Progress B (n_progress s))
            ∧ nexus_bgthread B fuel s2 = (o, s'))).
Proof.
  intros Hflag Hrun. cbn [nexus_bgthread] in Hrun.
  rewrite decide_False in Hrun by (by intros []).
  destruct (trigger_loop B fuel _) as [o1 s1] eqn:Hloop.
  apply trigger_loop_inv in Hloop as [[-> _]|(k & Hk & _ & _ & -> & ->)];
    [injection Hrun as <- _; by left|].
  right. exists k. simpl in *. split; [done|].
  destruct (decide (_ ≠ HG_SUCCESS ∧ _ ≠ HG_TIMEOUT)) as [Hbad|Hok] in Hrun.
  { injection Hrun as <- <-. left. split; [by rewrite hg_tolerated_iff; intros []|done]. }
  apply hg_tolerated_iff in Hok.
  destruct (decide (_ ≠ HG_SUCCESS ∧ _ ≠ HG_TIMEOUT)) as [Hbad|Hok'] in Hrun.
  { injection Hrun as <- <-. right. left. unfold bg_turn. rewrite app_assoc.
    split; [done|]. split; [by rewrite hg_tolerated_iff; intros []|done]. }
  apply hg_tolerated_iff in Hok'.
  right. right. unfold bg_turn. rewrite app_assoc. done.
Qed.

(** X20. When the progress thread returns it has made a whole number of
    turns: it read the flag once per turn and found it 0, then read it
    set; each turn was a drain (one or more non-blocking triggers of at
    most one callback) followed by exactly one progress with a timeout of
    100 ms, whose code was success or timeout.  It never returns in the
    middle of a turn, and never progresses twice without a trigger in
    between. *)
Theorem bgthread_returns_after_whole_turns (B : bg_env) (fuel : nat)
    (s s' : bg_state) :
  nexus_bgthread B fuel s = (Ret tt, s') →
  ∃ ks : list nat,
    let n := length ks in
    n_reads s' = (n_reads s + S n)%nat
    ∧ n_progress s' = (n_progress s + n)%nat
    ∧ bg_trace s' = bg_trace s ++ concat (bg_turn <$> ks)
    ∧ (∀ i, (i < n)%nat → bgdone B (n_reads s + i) = 0)
    ∧ bgdone B (n_reads s + n) ≠ 0
    ∧ (∀ i, (i < n)%nat → hg_tolerated (HG_Progress B (n_progress s + i))).
Proof.
  revert s. induction fuel as [|fuel IH]; intros s Hrun; [done|].
  destruct (decide (bgdone B (n_reads s) = 0)) as [Hflag|Hflag].
  - apply bgthread_turn_inv in Hrun as [?|(k & Hk & Hcases)]; [done| |done].
    destruct Hcases as [(_ & ? & _)|[(_ & _ & ? & _)|(Ht & Hp & Hrun)]]; [done|done|].
    apply IH in Hrun as (ks & Hreads & Hprog & Htr & Hzero & Hset & Hcodes).
    simpl in *. exists (k :: ks). simpl.
    split; [lia|]. split; [lia|]. split; [by rewrite Htr, <- app_assoc|].
    split; [|split].
    + intros [|i] Hi; [by rewrite Nat.add_0_r|].
      rewrite Nat.add_succ_r, <- Nat.add_succ_l. apply Hzero. lia.
    + by rewrite Nat.add_succ_r, <- Nat.add_succ_l.
    + intros [|i] Hi; [by rewrite Nat.add_0_r|].
      rewrite Nat.add_succ_r, <- Nat.add_succ_l. apply Hcodes. lia.
  - cbn [nexus_bgthread] in Hrun. rewrite decide_True in Hrun by done.
    injection Hrun as <-. exists []. simpl. rewrite !Nat.add_0_r, app_nil_r.
    split; [lia|]. split; [lia|]. split; [done|].
    split; [intros i Hi; lia|]. split; [done|intros i Hi; lia].
Qed.

Lemma bgthread_returns_after_whole_turns_witness :
  ∃ ks : list nat,
    n_reads (nexus_bgthread bg_script 6 (mk_bg_state 0 0 0 [])).2 = S (length ks)
    ∧ bg_trace (nexus_bgthread bg_script 6 (mk_bg_state 0 0 0 [])).2
      = concat (bg_turn <$> ks).
Proof.
  destruct (bgthread_returns_after_whole_turns bg_script 6 (mk_bg_state 0 0 0 [])
              (nexus_bgthread bg_script 6 (mk_bg_state 0 0 0 [])).2 ltac:(by vm_compute))
    as (ks & Hreads & _ & Htr & _).
  exists ks. split; [exact Hreads|exact Htr].
Defined.

(** X21. The progress thread aborts only on a Mercury error: with
    "HG_Trigger failed" right after a trigger whose code is neither
    success nor timeout, with "HG_Progress failed" right after a progress
    whose code is neither.  A timeout never aborts it. *)
Theorem bgthread_aborts_only_on_mercury_error (B : bg_env) (fuel : nat)
    (s : bg_state) (msg : string) (s' : bg_state) :
  nexus_bgthread B fuel s = (Abort msg, s') →
  (msg = "nexus_bgthread: HG_Trigger failed"
   ∧ ∃ i, n_trigger s' = S i ∧ (n_trigger s ≤ i)%nat
          ∧ ¬ hg_tolerated (HG_Trigger B i).1
          ∧ last (bg_trace s') = Some (BgTrigger 0 1))
  ∨ (msg = "nexus_bgthread: HG_Progress failed"
     ∧ ∃ i, n_progress s' = S i ∧ (n_progress s ≤ i)%nat
            ∧ ¬ hg_tolerated (HG_Progress B i)
            ∧ last (bg_trace s') = Some (BgProgress 100)).
Proof.
  revert s. induction fuel as [|fuel IH]; intros s Hrun; [done|].
  destruct (decide (bgdone B (n_reads s) = 0)) as [Hflag|Hflag].
  - apply bgthread_turn_inv in Hrun as [?|(k & Hk & Hcases)]; [done| |done].
    destruct Hcases as [(Hbad & [= <-] & ->)|[(_ & Hbad & [= <-] & ->)|(_ & _ & Hrun)]].
    + left. split; [done|]. exists (n_trigger s + k)%nat.
      cbn [n_trigger bg_trace].
      split; [lia|]. split; [lia|]. split; [done|].
      rewrite replicate_S_end, app_assoc. apply last_snoc.
    + right. split; [done|]. exists (n_progress s).
      cbn [n_progress bg_trace].
      split; [done|]. split; [lia|]. split; [done|].
      unfold bg_turn. rewrite app_assoc. apply last_snoc.
    + apply IH in Hrun. simpl in Hrun.
      destruct Hrun as [(-> & i & Hi & Hle & Hbad & Hlast)|(-> & i & Hi & Hle & Hbad & Hlast)].
      * left. split; [done|]. exists i. repeat split; try done. lia.
      * right. split; [done|]. exists i. repeat split; try done. lia.
  - cbn [nexus_bgthread] in Hrun. by rewrite decide_True in Hrun by done.
Qed.

(** X22. The progress thread stops once the flag is set: when the flag
    reads set at the [n + 1]-th read, Mercury reports no error, and every
    drain ends within [d] triggers, the thread returns after exactly [n]
    turns. *)
Theorem bgthread_stops_when_flag_is_set (B : bg_env) (fuel : nat) (s : bg_state)
    (n d : nat) :
  (∀ i, (i < n)%nat → bgdone B (n_reads s + i) = 0) →
  bgdone B (n_reads s + n) ≠ 0 →
  (∀ i, hg_tolerated (HG_Trigger B i).1) →
  (∀ i, hg_tolerated (HG_Progress B i)) →
  (∀ i, ∃ k, (k < d)%nat ∧ ¬ trigger_worked B (i + k)) →
  (n + d < fuel)%nat →
  ∃ s', nexus_bgthread B fuel s = (Ret tt, s')
        ∧ n_reads s' = (n_reads s + S n)%nat
        ∧ n_progress s' = (n_progress s + n)%nat.
Proof.
  intros Hzero Hset Htrig Hprog Hdrain. revert s fuel Hzero Hset.
  induction n as [|n IH]; intros s fuel Hzero Hset Hfuel;
    (destruct fuel as [|fuel]; [lia|]).
  - rewrite Nat.add_0_r in Hset. cbn [nexus_bgthread].
    rewrite decide_True by done. eexists. split; [done|]. simpl. lia.
  - pose proof (Hzero 0%nat ltac:(lia)) as Hflag. rewrite Nat.add_0_r in Hflag.
    cbn [nexus_bgthread]. rewrite decide_False by (by intros []).
    destruct (trigger_loop_returns B fuel
                (mk_bg_state (S (n_reads s)) (n_trigger s) (n_progress s) (bg_trace s)))
      as (k & Hk & ->).
    { destruct (Hdrain (n_trigger s)) as (k & Hk & Hlast). exists k. split; [lia|done]. }
    simpl.
    rewrite decide_False by (apply hg_tolerated_iff, Htrig).
    rewrite decide_False by (apply hg_tolerated_iff, Hprog).
    match goal with
    | |- ∃ s', nexus_bgthread B fuel ?s2 = _ ∧ _ =>
        destruct (IH s2 fuel) as (s' & Hrun & Hreads & Hprogress)
    end.
    + intros i Hi. simpl. rewrite <- Nat.add_succ_r. apply Hzero. lia.
    + simpl. by rewrite <- Nat.add_succ_r.
    + lia.
    + exists s'. split; [done|]. simpl in *. lia.
Qed.

Lemma bgthread_stops_when_flag_is_set_witness :
  ∃ s', nexus_bgthread bg_script 6 (mk_bg_state 0 0 0 []) = (Ret tt, s')
        ∧ n_reads s' = 2%nat ∧ n_progress s' = 1%nat.
Proof.
  apply (bgthread_stops_when_flag_is_set bg_script 6 (mk_bg_state 0 0 0 []) 1 3).
  - intros [|i] Hi; [done|lia].
  - done.
  - intros [|[|i]]; [by left|by left|by right].
  - intros i. by right.
  - intros i. destruct i as [|[|i]].
    + exists 2%nat. split; [lia|]. by intros [[=] _].
    + exists 1%nat. split; [lia|]. by intros [[=] _].
    + exists 0%nat. split; [lia|]. rewrite Nat.add_0_r. by intros [[=] _].
  - lia.
Defined.

Lemma bgthread_aborts_only_on_mercury_error_witness :
  ∃ i, n_progress (nexus_bgthread bg_script_failing 5 (mk_bg_state 0 0 0 [])).2 = S i
       ∧ ¬ hg_tolerated (HG_Progress bg_script_failing i).
Proof.
  destruct (bgthread_aborts_only_on_mercury_error bg_script_failing 5
              (mk_bg_state 0 0 0 []) "nexus_bgthread: HG_Progress failed"
              (nexus_bgthread bg_script_failing 5 (mk_bg_state 0 0 0 [])).2
              ltac:(by vm_compute))
    as [([=] & _)|(_ & i & Hi & _ & Hbad & _)].
  by exists i.
Defined.
